(** * Geo-Narrator: discovery gateway, discovery view and live conversation view

    A shallow embedding of
    - [src/services/geminiService.ts] ([getNearbyPlaces], [getTextToSpeech]),
    - the discovery view ([getCategoryImage], [handleFetchPlaces],
      [handleSearch], [handleUseCurrentLocation], the buttons and the
      screens of the [return] statement, [cleanupAudio], [generateAudio],
      [toggleAudio]),
    - the conversation view ([cleanup], [stopConversation],
      [startConversation] and the live-session callbacks),
    together with a model of the audio codec utilities
    ([utils/audioUtils]).

    JavaScript strings are sequences of code units; the embedding uses
    [string], whose characters stand for the code units below 256.
    JavaScript numbers that carry time (the audio clock, buffer durations)
    are embedded as exact rationals [Q]; the wall clock [Date.now()] is an
    integer number of milliseconds, [Z]. *)

From Stdlib Require Import ZArith QArith Qround Qminmax Qabs Lqa List String Ascii Bool Lia DecimalString.
From stdpp Require Import base option list gmap.
Import ListNotations.

#[local] Set Warnings "-register-all".
Local Open Scope string_scope.

(** ** Part I: the embedding *)

Module Js.

(** Outcome of a JavaScript computation: a value, or a thrown exception. *)
Inductive exn : Type :=
| TypeError (message : string)
| SyntaxError (message : string)
| DOMException (message : string)
| Error (message : string).

Definition message_of (e : exn) : string :=
  match e with
  | TypeError m | SyntaxError m | DOMException m | Error m => m
  end.

Inductive Result (A : Type) : Type :=
| Ok (a : A)
| Throw (e : exn).
Arguments Ok {A} a.
Arguments Throw {A} e.

#[global] Instance Result_ret : MRet Result := @Ok.
#[global] Instance Result_bind : MBind Result :=
  fun A B f m => match m with Ok a => f a | Throw e => Throw e end.

(** Optional chaining, [o?.f]. *)
Definition chain {A B : Type} (o : option A) (f : A -> option B) : option B :=
  match o with
  | Some a => f a
  | None => None
  end.

(** [x || d] on strings: the empty string is falsy. *)
Definition or_default (x : option string) (d : string) : string :=
  match x with
  | Some (String c s) => String c s
  | _ => d
  end.

(** The line feed, code unit 10. *)
Definition LF : string := String (ascii_of_nat 10) EmptyString.

(** [s.startsWith(p)]. *)
Fixpoint startsWith (p s : string) : bool :=
  match p, s with
  | EmptyString, _ => true
  | String a p', String b s' => Ascii.eqb a b && startsWith p' s'
  | String _ _, EmptyString => false
  end.

(** [s.substring(n)] for [n] within the string. *)
Fixpoint drop (n : nat) (s : string) : string :=
  match n, s with
  | O, _ => s
  | S n', String _ s' => drop n' s'
  | S _, EmptyString => EmptyString
  end.

(** [s.includes(key)]: [key] occurs in [s] at some position. *)
Fixpoint includes (s key : string) : bool :=
  startsWith key s ||
  match s with
  | EmptyString => false
  | String _ s' => includes s' key
  end.

(** [String.prototype.toLowerCase] on one code unit below 256: the Latin
    capitals A-Z and the Latin-1 capitals U+00C0-U+00DE, without the
    multiplication sign U+00D7, move up by 32. *)
Definition toLowerCase_unit (c : ascii) : ascii :=
  let n := nat_of_ascii c in
  if ((65 <=? n) && (n <=? 90) || (192 <=? n) && (n <=? 222) && negb (n =? 215))%nat
  then ascii_of_nat (n + 32)
  else c.

Fixpoint toLowerCase (s : string) : string :=
  match s with
  | EmptyString => EmptyString
  | String c s' => String (toLowerCase_unit c) (toLowerCase s')
  end.

End Js.

(** ** The AI gateway and the discovery view *)

Module Discovery.
Import Js.

(** A parsed JSON value.  Object properties are kept in insertion order. *)
Inductive JSON : Type :=
| JNull
| JBool (b : bool)
| JNum (x : Q)
| JStr (s : string)
| JArr (items : list JSON)
| JObj (props : list (string * JSON)).

(** [types.ts] *)
Inductive SourceType : Type := web | maps.

Record GroundingSource : Type := {
  uri : string;
  title : string;
  type : SourceType
}.

(** The part of the service response that [getNearbyPlaces] reads. *)
Record ChunkRef : Type := {
  ref_uri : option string;
  ref_title : option string
}.

Record GroundingChunk : Type := {
  chunk_web : option ChunkRef;
  chunk_maps : option ChunkRef
}.

Record GenerateContentResponse : Type := {
  text : option string;
  groundingChunks : option (list GroundingChunk)
}.

(** The body of the [flatMap] callback of [getNearbyPlaces]. *)
Definition chunk_source (r : option ChunkRef) (fallback : string) (t : SourceType)
  : list GroundingSource :=
  match r with
  | Some c =>
      match ref_uri c with
      | Some (String u us) =>
          [ {| uri := String u us; title := or_default (ref_title c) fallback; type := t |} ]
      | _ => []
      end
  | None => []
  end.

Definition chunk_sources (chunk : GroundingChunk) : list GroundingSource :=
  chunk_source (chunk_web chunk) "Web Source" web
  ++ chunk_source (chunk_maps chunk) "Map Location" maps.

(** The regular expression [/```json\n([\s\S]*?)\n```/]. *)
Definition fence_open : string := "```json" ++ LF.
Definition fence_close : string := LF ++ "```".

(** [([\s\S]*?)\n```] tried at the start of [s]: the lazy quantifier takes
    the fewest code units after which the closing marker matches. *)
Fixpoint lazy_body (s : string) : option string :=
  if startsWith fence_close s then Some EmptyString
  else match s with
       | EmptyString => None
       | String c s' => option_map (String c) (lazy_body s')
       end.

(** The whole pattern tried at the start of [s]. *)
Definition match_here (s : string) : option string :=
  if startsWith fence_open s then lazy_body (drop (String.length fence_open) s)
  else None.

(** [text.match(re)] for a pattern without the global flag: start positions
    are tried from the left; the result is capture group 1 of the first
    position at which the pattern matches, [None] for [null]. *)
Fixpoint match_json_fence (s : string) : option string :=
  match match_here s with
  | Some body => Some body
  | None =>
      match s with
      | EmptyString => None
      | String _ s' => match_json_fence s'
      end
  end.

Definition format_error : string :=
  "The AI returned an unexpected format. Please try again.".

Section Gateway.

(** [JSON.parse], a built-in of the runtime: [None] when it throws a
    [SyntaxError]. *)
Variable JSON_parse : string -> option JSON.

(** The body of the [try] block of [getNearbyPlaces]. *)
Definition parse_places (text : option string) : Result JSON :=
  match text with
  | None => Throw (TypeError "Cannot read properties of undefined (reading 'match')")
  | Some t =>
      match match_json_fence t with
      | Some (String c body) =>
          match JSON_parse (String c body) with
          | Some places => Ok places
          | None => Throw (SyntaxError "Unexpected token in JSON")
          end
      | _ => Throw (Error "Could not find a JSON code block in the response.")
      end
  end.

(** [getNearbyPlaces], from the outcome of the awaited [generateContent]
    call on.  A rejection of that call happens before the [try] block and
    propagates unchanged. *)
Definition getNearbyPlaces (service : Result GenerateContentResponse)
  : Result (JSON * list GroundingSource) :=
  match service with
  | Throw e => Throw e
  | Ok response =>
      let sources := flat_map chunk_sources (default [] (groundingChunks response)) in
      match parse_places (text response) with
      | Ok places => Ok (places, sources)
      | Throw _ => Throw (Error format_error)
      end
  end.

End Gateway.

(** *** [getCategoryImage] *)

Definition pexels (photo : string) : string :=
  "https://images.pexels.com/photos/" ++ photo
  ++ "?auto=compress&cs=tinysrgb&w=1260&h=750&dpr=1".

Definition categories_other : string := pexels "417074/pexels-photo-417074.jpeg".

Definition categories : list (string * string) :=
  [ ("nature", pexels "3225517/pexels-photo-3225517.jpeg");
    ("architecture", pexels "161439/architecture-building-france-landmark-161439.jpeg");
    ("history", pexels "326900/pexels-photo-326900.jpeg");
    ("food", pexels "262978/pexels-photo-262978.jpeg");
    ("art", pexels "102127/pexels-photo-102127.jpeg");
    ("other", categories_other) ].

(** The [for ... in] loop: keys in insertion order, first hit returns. *)
Fixpoint first_included (categoryLower : string) (entries : list (string * string))
  : option string :=
  match entries with
  | [] => None
  | (key, url) :: rest =>
      if includes categoryLower key then Some url
      else first_included categoryLower rest
  end.

Definition getCategoryImage (category : option string) : string :=
  let defaultCategory := "other" in
  let categoryLower := or_default (option_map toLowerCase category) defaultCategory in
  match first_included categoryLower categories with
  | Some url => url
  | None => categories_other
  end.

(** *** Property access on parsed values *)

Fixpoint get_prop (k : string) (props : list (string * JSON)) : option JSON :=
  match props with
  | [] => None
  | (k', v) :: rest => if String.eqb k k' then Some v else get_prop k rest
  end.

(** Writing a property keeps the position of an existing key and appends a
    new one. *)
Fixpoint set_prop (k : string) (v : JSON) (props : list (string * JSON))
  : list (string * JSON) :=
  match props with
  | [] => [(k, v)]
  | (k', v') :: rest =>
      if String.eqb k k' then (k, v) :: rest else (k', v') :: set_prop k v rest
  end.

Definition index_key (i : nat) : string := NilEmpty.string_of_uint (Nat.to_uint i).

Definition indexed (items : list JSON) : list (string * JSON) :=
  imap (fun i v => (index_key i, v)) items.

(** The own enumerable properties copied by [{...place}]. *)
Definition spread (place : JSON) : list (string * JSON) :=
  match place with
  | JObj props => props
  | JArr items => indexed items
  | JStr s => indexed (map (fun c => JStr (String c EmptyString)) (list_ascii_of_string s))
  | _ => []
  end.

(** [place.category]: reading a property of [null] throws; values other
    than objects have no such property. *)
Definition place_category (place : JSON) : Result (option JSON) :=
  match place with
  | JNull => Throw (TypeError "Cannot read properties of null (reading 'category')")
  | JObj props => Ok (get_prop "category" props)
  | _ => Ok None
  end.

(** [getCategoryImage] applied to a value that is not statically known to
    be a string: [category?.toLowerCase()] skips the call for [undefined]
    and [null] only. *)
Definition getCategoryImage_dyn (category : option JSON) : Result string :=
  match category with
  | None | Some JNull => Ok (getCategoryImage None)
  | Some (JStr s) => Ok (getCategoryImage (Some s))
  | Some _ => Throw (TypeError "category?.toLowerCase is not a function")
  end.

(** The callback of [foundPlaces.map] in [handleFetchPlaces]. *)
Definition decorate (place : JSON) : Result JSON :=
  category ← place_category place;
  imageUrl ← getCategoryImage_dyn category;
  mret (JObj (set_prop "imageUrl" (JStr imageUrl) (spread place))).

Fixpoint map_result {A B : Type} (f : A -> Result B) (l : list A) : Result (list B) :=
  match l with
  | [] => Ok []
  | a :: rest =>
      b ← f a;
      bs ← map_result f rest;
      mret (b :: bs)
  end.

(** [foundPlaces.map(f)]: only arrays have [map]. *)
Definition array_map (f : JSON -> Result JSON) (foundPlaces : JSON) : Result (list JSON) :=
  match foundPlaces with
  | JArr items => map_result f items
  | JNull => Throw (TypeError "Cannot read properties of null (reading 'map')")
  | _ => Throw (TypeError "foundPlaces.map is not a function")
  end.

(** *** The discovery view *)

Record DiscoverView : Type := {
  isLoading : bool;
  status : string;
  error : option string;
  places : option (list JSON);
  sources : option (list GroundingSource);
  selectedPlace : option JSON;
  isPlaying : bool;
  audioBufferRef : option nat;
  audioSourceRef : option nat
}.

Definition initialView : DiscoverView :=
  {| isLoading := false; status := EmptyString; error := None; places := None;
     sources := None; selectedPlace := None; isPlaying := false;
     audioBufferRef := None; audioSourceRef := None |}.

(** The state at the first [await] of [handleFetchPlaces]: the five
    resets, [cleanupAudio] and the first status line.  Every modelled part
    of the view is overwritten, so nothing of [v] is left. *)
Definition begin_fetch (v : DiscoverView) : DiscoverView :=
  {| isLoading := true; status := "Finding interesting places..."; error := None;
     places := None; sources := None; selectedPlace := None; isPlaying := false;
     audioBufferRef := None; audioSourceRef := None |}.

(** The [finally] block. *)
Definition end_fetch (v : DiscoverView) : DiscoverView :=
  {| isLoading := false; status := EmptyString; error := error v; places := places v;
     sources := sources v; selectedPlace := selectedPlace v; isPlaying := isPlaying v;
     audioBufferRef := audioBufferRef v; audioSourceRef := audioSourceRef v |}.

Definition setError (e : option string) (v : DiscoverView) : DiscoverView :=
  {| isLoading := isLoading v; status := status v; error := e; places := places v;
     sources := sources v; selectedPlace := selectedPlace v; isPlaying := isPlaying v;
     audioBufferRef := audioBufferRef v; audioSourceRef := audioSourceRef v |}.

Definition setSources (s : option (list GroundingSource)) (v : DiscoverView) : DiscoverView :=
  {| isLoading := isLoading v; status := status v; error := error v; places := places v;
     sources := s; selectedPlace := selectedPlace v; isPlaying := isPlaying v;
     audioBufferRef := audioBufferRef v; audioSourceRef := audioSourceRef v |}.

Definition setPlaces (p : option (list JSON)) (v : DiscoverView) : DiscoverView :=
  {| isLoading := isLoading v; status := status v; error := error v; places := p;
     sources := sources v; selectedPlace := selectedPlace v; isPlaying := isPlaying v;
     audioBufferRef := audioBufferRef v; audioSourceRef := audioSourceRef v |}.

Definition setStatus (s : string) (v : DiscoverView) : DiscoverView :=
  {| isLoading := isLoading v; status := s; error := error v; places := places v;
     sources := sources v; selectedPlace := selectedPlace v; isPlaying := isPlaying v;
     audioBufferRef := audioBufferRef v; audioSourceRef := audioSourceRef v |}.

(** The [catch] block: [(err as Error).message || '...']. *)
Definition catch_fetch (e : exn) (v : DiscoverView) : DiscoverView :=
  setError (Some (or_default (Some (message_of e)) "Failed to get information. Please try again.")) v.

Section View.

Variable JSON_parse : string -> option JSON.

(** [handleFetchPlaces], run to completion on the outcome of the service
    call. *)
Definition handleFetchPlaces (service : Result GenerateContentResponse)
  (v : DiscoverView) : DiscoverView :=
  let v1 := begin_fetch v in
  end_fetch
    match getNearbyPlaces JSON_parse service with
    | Throw e => catch_fetch e v1
    | Ok (foundPlaces, foundSources) =>
        let v2 := setStatus "Preparing place cards..." (setSources (Some foundSources) v1) in
        match array_map decorate foundPlaces with
        | Ok placesWithImages => setStatus "Done!" (setPlaces (Some placesWithImages) v2)
        | Throw e => catch_fetch e v2
        end
    end.

End View.

(** *** Vocabulary of the statements about discovery *)

(** [body] stands between a fence opener and a fence closer of [s]. *)
Definition fenced (s body : string) : Prop :=
  exists pre post, s = pre ++ fence_open ++ body ++ fence_close ++ post.

(** The response text carries no fenced block at all (an absent text
    carries none). *)
Definition no_fence (text : option string) : Prop :=
  forall s body, text = Some s -> ~ fenced s body.

(** The fenced content the pattern captures is rejected by the parser. *)
Definition unparsable (JSON_parse : string -> option JSON) (text : option string) : Prop :=
  exists s body, text = Some s /\ match_json_fence s = Some body /\ JSON_parse body = None.

(** [PlaceInfo] of [types.ts], and the parsed values that have its shape. *)
Record PlaceInfo : Type := {
  name : string;
  description : string;
  oneLiner : string;
  category : string;
  imageUrl : option string
}.

Definition as_PlaceInfo (place : JSON) : option PlaceInfo :=
  match place with
  | JObj props =>
      match get_prop "name" props, get_prop "description" props,
            get_prop "oneLiner" props, get_prop "category" props with
      | Some (JStr n), Some (JStr d), Some (JStr o), Some (JStr c) =>
          Some {| name := n; description := d; oneLiner := o; category := c;
                  imageUrl := match get_prop "imageUrl" props with
                              | Some (JStr u) => Some u
                              | _ => None
                              end |}
      | _, _, _, _ => None
      end
  | _ => None
  end.

Definition vocabulary : list string := ["nature"; "architecture"; "history"; "food"; "art"].

(** [term] occurs in [category] when letter case is ignored. *)
Definition occurs_ignoring_case (term category : string) : Prop :=
  exists pre mid post, category = pre ++ mid ++ post /\ toLowerCase mid = term.

(** [url] is an illustration picked for [category] by the vocabulary: the
    illustration of a term that occurs in it, or the generic one when no
    term does. *)
Definition chosen_for (category url : string) : Prop :=
  (exists term, In term vocabulary /\ occurs_ignoring_case term category
                /\ In (term, url) categories)
  \/ ((forall term, In term vocabulary -> ~ occurs_ignoring_case term category)
      /\ url = categories_other).

(** [shown] is the card made from the record [place]: the four fields are
    kept and the illustration is the one chosen for the category. *)
Definition card_of (place shown : JSON) : Prop :=
  exists p s, as_PlaceInfo place = Some p /\ as_PlaceInfo shown = Some s
    /\ name s = name p /\ description s = description p
    /\ oneLiner s = oneLiner p /\ category s = category p
    /\ exists url, imageUrl s = Some url /\ url <> EmptyString /\ chosen_for (category p) url.

(** *** Sample documents *)

(** The double quote, code unit 34. *)
Definition DQ : string := String (ascii_of_nat 34) EmptyString.

Definition quoted (s : string) : string := DQ ++ s ++ DQ.

Definition member_text (key value : string) : string := quoted key ++ ": " ++ quoted value.

(** The text of a place record, and the value it parses to. *)
Definition record_text (name category : string) : string :=
  "{" ++ member_text "name" name ++ ", " ++ member_text "oneLiner" "A view." ++ ", "
  ++ member_text "description" "A long view." ++ ", " ++ member_text "category" category ++ "}".

Definition sample_record (name category : string) : JSON :=
  JObj [ ("name", JStr name); ("oneLiner", JStr "A view."); ("description", JStr "A long view.");
         ("category", JStr category) ].

Definition places_text : string :=
  "[" ++ record_text "Lookout" "Nature" ++ ", " ++ record_text "Alley" "Street ART" ++ "]".

Definition strings_text : string := "[" ++ quoted "x" ++ "]".

(** A stand-in for [JSON.parse] to run the definitions on sample inputs: it
    parses the three documents [places_text], [{}] and [strings_text] and
    rejects every other string. *)
Definition sample_parse (s : string) : option JSON :=
  if String.eqb s places_text
  then Some (JArr [sample_record "Lookout" "Nature"; sample_record "Alley" "Street ART"])
  else if String.eqb s "{}" then Some (JObj [])
  else if String.eqb s strings_text then Some (JArr [JStr "x"])
  else None.

(** A response whose text is [body] inside a fence, after a line of prose. *)
Definition fenced_text (body : string) : string :=
  "Here you go:" ++ LF ++ "```json" ++ LF ++ body ++ LF ++ "```" ++ LF.

Definition fenced_response (body : string) : GenerateContentResponse :=
  {| text := Some (fenced_text body); groundingChunks := None |}.

End Discovery.


(** ** The audio codec utilities *)

(** [utils/audioUtils] ([encode], [decode], [createBlob], [decodeAudioData])
    is imported by both views but is not among the sources at hand; this
    module follows the description of the four functions in the
    specification.  Bytes are integers from 0 to 255.  A 32-bit float
    sample is a rational, and every operation below is exact on it: the
    scaling is by a power of two and a 16-bit integer divided by 32768 is
    again a 32-bit float. *)
Module AudioUtils.

Local Open Scope Z_scope.

Definition is_byte (b : Z) : Prop := 0 <= b < 256.

Definition base64_alphabet : string :=
  "ABCDEFGHIJKLMNOPQRSTUVWXYZabcdefghijklmnopqrstuvwxyz0123456789+/".

Definition pad : ascii := "="%char.

Definition is_pad (c : ascii) : bool := Ascii.eqb c pad.

Definition char_of_sextet (n : Z) : ascii :=
  match String.get (Z.to_nat n) base64_alphabet with
  | Some c => c
  | None => pad
  end.

Definition sextet_of_char (c : ascii) : option Z :=
  let n := Z.of_nat (nat_of_ascii c) in
  if (65 <=? n) && (n <=? 90) then Some (n - 65)
  else if (97 <=? n) && (n <=? 122) then Some (n - 71)
  else if (48 <=? n) && (n <=? 57) then Some (n + 4)
  else if n =? 43 then Some 62
  else if n =? 47 then Some 63
  else None.

(** Modelled from the spec: [encode] of [utils/audioUtils], which is
    missing from the sources; "the inverse [of decode], used to package
    outgoing microphone frames": standard base64 with padding. *)
Fixpoint encode (bytes : list Z) : string :=
  match bytes with
  | [] => EmptyString
  | [b0] =>
      String (char_of_sextet (b0 / 4))
        (String (char_of_sextet (b0 mod 4 * 16)) (String pad (String pad EmptyString)))
  | [b0; b1] =>
      String (char_of_sextet (b0 / 4))
        (String (char_of_sextet (b0 mod 4 * 16 + b1 / 16))
           (String (char_of_sextet (b1 mod 16 * 4)) (String pad EmptyString)))
  | b0 :: b1 :: b2 :: rest =>
      String (char_of_sextet (b0 / 4))
        (String (char_of_sextet (b0 mod 4 * 16 + b1 / 16))
           (String (char_of_sextet (b1 mod 16 * 4 + b2 / 64))
              (String (char_of_sextet (b2 mod 64)) (encode rest))))
  end.

(** Modelled from the spec: [decode] of [utils/audioUtils], which is
    missing from the sources; "reverses standard base64 text encoding into
    a raw byte sequence; fails only on malformed input" ([None]). *)
Fixpoint decode (s : string) : option (list Z) :=
  match s with
  | EmptyString => Some []
  | String c0 (String c1 (String c2 (String c3 rest))) =>
      match sextet_of_char c0, sextet_of_char c1 with
      | Some s0, Some s1 =>
          let b0 := s0 * 4 + s1 / 16 in
          if is_pad c2 then
            match rest with
            | EmptyString => if is_pad c3 then Some [b0] else None
            | _ => None
            end
          else
            match sextet_of_char c2 with
            | Some s2 =>
                let b1 := s1 mod 16 * 16 + s2 / 4 in
                if is_pad c3 then
                  match rest with
                  | EmptyString => Some [b0; b1]
                  | _ => None
                  end
                else
                  match sextet_of_char c3 with
                  | Some s3 =>
                      match decode rest with
                      | Some bytes => Some (b0 :: b1 :: (s2 mod 4 * 64 + s3) :: bytes)
                      | None => None
                      end
                  | None => None
                  end
            | None => None
            end
      | _, _ => None
      end
  | _ => None
  end.

(** A sextet survives the alphabet, and its character is not the padding. *)
Definition sextet_ok (n : Z) : bool :=
  match sextet_of_char (char_of_sextet n) with
  | Some m => (m =? n) && negb (is_pad (char_of_sextet n))
  | None => false
  end.

(** "clamping each sample to [-1, 1]" *)
Definition clamp (s : Q) : Q := Qmax (-1) (Qmin 1 s).

(** Conversion to an integer drops the fraction. *)
Definition truncate (x : Q) : Z := if Qle_bool 0 x then Qfloor x else Qceiling x.

(** The store into the 16-bit sample "must clamp, not wrap": it saturates
    at the ends of the 16-bit range. *)
Definition to_int16 (x : Q) : Z := Z.max (-32768) (Z.min 32767 (truncate x)).

(** The quantizer ("clamping each sample to [-1, 1] before quantizing"),
    with the step [1/32768] that [decodeAudioData] divides by. *)
Definition quantize (s : Q) : Z := to_int16 (clamp s * 32768).

(** Two's complement, low byte first. *)
Definition int16_bytes (v : Z) : list Z :=
  let u := v mod 65536 in [u mod 256; u / 256].

Definition pcm_bytes (samples : list Q) : list Z :=
  flat_map (fun s => int16_bytes (quantize s)) samples.

Record Blob : Type := { data : string; mimeType : string }.

(** Modelled from the spec: [createBlob] of [utils/audioUtils]
    ([createAudioBlob] in the specification), which is missing from the
    sources; "converts 32-bit floating-point samples into 16-bit
    little-endian PCM, clamping each sample to [-1, 1] before quantizing,
    then base64-encodes the byte buffer and tags it with a fixed sample rate
    (16 kHz)". *)
Definition createBlob (samples : list Q) : Blob :=
  {| data := encode (pcm_bytes samples); mimeType := "audio/pcm;rate=16000" |}.

(** The bytes read as 16-bit little-endian samples; a trailing byte
    without its pair is dropped ("truncating the remainder"). *)
Fixpoint int16_of_bytes (bytes : list Z) : list Z :=
  match bytes with
  | lo :: hi :: rest =>
      let u := lo + 256 * hi in
      (if u <? 32768 then u else u - 65536) :: int16_of_bytes rest
  | _ => []
  end.

(** "normalizes each sample ... by dividing by 32768" *)
Definition normalize (v : Z) : Q := v # 32768.

Record DecodedAudio : Type := {
  sampleRate : positive;
  channelData : list (list Q)
}.

(** Modelled from the spec: [decodeAudioData] of [utils/audioUtils], which
    is missing from the sources; "interprets raw bytes as 16-bit
    little-endian PCM, normalizes each sample to floating-point [-1, 1] by
    dividing by 32768, and de-interleaves across the given channel count". *)
Definition decodeAudioData (bytes : list Z) (rate : positive) (numChannels : nat)
  : DecodedAudio :=
  let dataInt16 := int16_of_bytes bytes in
  let frameCount := (length dataInt16 / numChannels)%nat in
  {| sampleRate := rate;
     channelData :=
       map (fun channel =>
              map (fun i => normalize (nth (i * numChannels + channel) dataInt16 0))
                  (seq 0 frameCount))
           (seq 0 numChannels) |}.

(** [r] is what comes back for the sample [s]: within one step of [s] when
    [s] lies in [-1, 1], and the end of the range on the side of [s] when
    it lies outside. *)
Definition within_one_step (s r : Q) : Prop :=
  ((-1 <= s <= 1 -> Qabs (r - s) <= 1 # 32768)
   /\ (1 <= s -> r = 32767 # 32768)
   /\ (s <= -1 -> r = -32768 # 32768))%Q.

End AudioUtils.
(** ** The live conversation view *)

Module Conversation.
Import Js.

(** [types.ts] *)
Inductive Speaker : Type := user | model.

Record Transcript : Type := {
  id : Z;
  speaker : Speaker;
  text : string
}.

(** The part of a [LiveServerMessage] that [onmessage] reads.  Every field
    of the SDK type is optional. *)
Record Transcription : Type := { transcription_text : option string }.
Record InlineData : Type := { data : option string }.
Record Part : Type := { inlineData : option InlineData }.
Record Content : Type := { parts : option (list Part) }.

Record LiveServerContent : Type := {
  inputTranscription : option Transcription;
  outputTranscription : option Transcription;
  turnComplete : bool;
  modelTurn : option Content;
  interrupted : bool
}.

Record LiveServerMessage : Type := { serverContent : option LiveServerContent }.

(** An [AudioBuffer]: a number of sample frames at a sample rate. *)
Record AudioBuffer : Type := {
  frames : nat;
  sampleRate : positive
}.

Definition duration (b : AudioBuffer) : Q := Z.of_nat (frames b) # sampleRate b.

Record MediaStream : Type := { tracks : list nat }.

Inductive SessionStatus : Type := Connecting | Opened | Closed.

(** A live session as the SDK holds it: its connection status and the
    [stream] its callbacks closed over. *)
Record Session : Type := {
  sessionStatus : SessionStatus;
  capturedStream : MediaStream
}.

(** What the callbacks read from their environment: the clock of the output
    audio context and the two evaluations of [Date.now()] in the
    turn-completion branch. *)
Record Clock : Type := {
  currentTime : Q;
  dateNow_user : Z;
  dateNow_model : Z
}.

(** The component: React state, the refs, and the browser objects the refs
    point to.  Browser objects are named by handles. *)
Record State : Type := {
  (* useState *)
  isSessionActive : bool;
  transcripts : list Transcript;
  error : option string;
  (* useRef *)
  sessionPromiseRef : option nat;
  mediaStreamRef : option MediaStream;
  audioContextRef : option nat;
  scriptProcessorRef : option nat;
  mediaStreamSourceRef : option nat;
  outputAudioContextRef : option nat;
  outputNodeRef : option nat;
  sourcesRef : gset nat;
  nextStartTimeRef : Q;
  currentInputTranscriptionRef : string;
  currentOutputTranscriptionRef : string;
  (* the browser *)
  liveTracks : gset nat;            (* media tracks whose readyState is 'live' *)
  openContexts : gset nat;          (* audio contexts whose state is not 'closed' *)
  connected : gset nat;             (* audio nodes with an outgoing connection *)
  startLog : list (nat * Q);        (* the calls source.start(when), latest first *)
  stoppedSources : gset nat;        (* source nodes on which stop() was called *)
  sessions : list Session;          (* the live sessions opened so far, by handle *)
  nextHandle : nat                  (* the next fresh object handle *)
}.


Definition set_isSessionActive (x : bool) (st : State) : State :=
  {| isSessionActive := x; transcripts := transcripts st; error := error st;
     sessionPromiseRef := sessionPromiseRef st; mediaStreamRef := mediaStreamRef st;
     audioContextRef := audioContextRef st; scriptProcessorRef := scriptProcessorRef st;
     mediaStreamSourceRef := mediaStreamSourceRef st;
     outputAudioContextRef := outputAudioContextRef st; outputNodeRef := outputNodeRef st;
     sourcesRef := sourcesRef st; nextStartTimeRef := nextStartTimeRef st;
     currentInputTranscriptionRef := currentInputTranscriptionRef st;
     currentOutputTranscriptionRef := currentOutputTranscriptionRef st;
     liveTracks := liveTracks st; openContexts := openContexts st; connected := connected st;
     startLog := startLog st; stoppedSources := stoppedSources st; sessions := sessions st;
     nextHandle := nextHandle st |}.

Definition set_transcripts (x : list Transcript) (st : State) : State :=
  {| isSessionActive := isSessionActive st; transcripts := x; error := error st;
     sessionPromiseRef := sessionPromiseRef st; mediaStreamRef := mediaStreamRef st;
     audioContextRef := audioContextRef st; scriptProcessorRef := scriptProcessorRef st;
     mediaStreamSourceRef := mediaStreamSourceRef st;
     outputAudioContextRef := outputAudioContextRef st; outputNodeRef := outputNodeRef st;
     sourcesRef := sourcesRef st; nextStartTimeRef := nextStartTimeRef st;
     currentInputTranscriptionRef := currentInputTranscriptionRef st;
     currentOutputTranscriptionRef := currentOutputTranscriptionRef st;
     liveTracks := liveTracks st; openContexts := openContexts st; connected := connected st;
     startLog := startLog st; stoppedSources := stoppedSources st; sessions := sessions st;
     nextHandle := nextHandle st |}.

Definition set_error (x : option string) (st : State) : State :=
  {| isSessionActive := isSessionActive st; transcripts := transcripts st; error := x;
     sessionPromiseRef := sessionPromiseRef st; mediaStreamRef := mediaStreamRef st;
     audioContextRef := audioContextRef st; scriptProcessorRef := scriptProcessorRef st;
     mediaStreamSourceRef := mediaStreamSourceRef st;
     outputAudioContextRef := outputAudioContextRef st; outputNodeRef := outputNodeRef st;
     sourcesRef := sourcesRef st; nextStartTimeRef := nextStartTimeRef st;
     currentInputTranscriptionRef := currentInputTranscriptionRef st;
     currentOutputTranscriptionRef := currentOutputTranscriptionRef st;
     liveTracks := liveTracks st; openContexts := openContexts st; connected := connected st;
     startLog := startLog st; stoppedSources := stoppedSources st; sessions := sessions st;
     nextHandle := nextHandle st |}.

Definition set_sessionPromiseRef (x : option nat) (st : State) : State :=
  {| isSessionActive := isSessionActive st; transcripts := transcripts st; error := error st;
     sessionPromiseRef := x; mediaStreamRef := mediaStreamRef st;
     audioContextRef := audioContextRef st; scriptProcessorRef := scriptProcessorRef st;
     mediaStreamSourceRef := mediaStreamSourceRef st;
     outputAudioContextRef := outputAudioContextRef st; outputNodeRef := outputNodeRef st;
     sourcesRef := sourcesRef st; nextStartTimeRef := nextStartTimeRef st;
     currentInputTranscriptionRef := currentInputTranscriptionRef st;
     currentOutputTranscriptionRef := currentOutputTranscriptionRef st;
     liveTracks := liveTracks st; openContexts := openContexts st; connected := connected st;
     startLog := startLog st; stoppedSources := stoppedSources st; sessions := sessions st;
     nextHandle := nextHandle st |}.

Definition set_mediaStreamRef (x : option MediaStream) (st : State) : State :=
  {| isSessionActive := isSessionActive st; transcripts := transcripts st; error := error st;
     sessionPromiseRef := sessionPromiseRef st; mediaStreamRef := x;
     audioContextRef := audioContextRef st; scriptProcessorRef := scriptProcessorRef st;
     mediaStreamSourceRef := mediaStreamSourceRef st;
     outputAudioContextRef := outputAudioContextRef st; outputNodeRef := outputNodeRef st;
     sourcesRef := sourcesRef st; nextStartTimeRef := nextStartTimeRef st;
     currentInputTranscriptionRef := currentInputTranscriptionRef st;
     currentOutputTranscriptionRef := currentOutputTranscriptionRef st;
     liveTracks := liveTracks st; openContexts := openContexts st; connected := connected st;
     startLog := startLog st; stoppedSources := stoppedSources st; sessions := sessions st;
     nextHandle := nextHandle st |}.

Definition set_audioContextRef (x : option nat) (st : State) : State :=
  {| isSessionActive := isSessionActive st; transcripts := transcripts st; error := error st;
     sessionPromiseRef := sessionPromiseRef st; mediaStreamRef := mediaStreamRef st;
     audioContextRef := x; scriptProcessorRef := scriptProcessorRef st;
     mediaStreamSourceRef := mediaStreamSourceRef st;
     outputAudioContextRef := outputAudioContextRef st; outputNodeRef := outputNodeRef st;
     sourcesRef := sourcesRef st; nextStartTimeRef := nextStartTimeRef st;
     currentInputTranscriptionRef := currentInputTranscriptionRef st;
     currentOutputTranscriptionRef := currentOutputTranscriptionRef st;
     liveTracks := liveTracks st; openContexts := openContexts st; connected := connected st;
     startLog := startLog st; stoppedSources := stoppedSources st; sessions := sessions st;
     nextHandle := nextHandle st |}.

Definition set_scriptProcessorRef (x : option nat) (st : State) : State :=
  {| isSessionActive := isSessionActive st; transcripts := transcripts st; error := error st;
     sessionPromiseRef := sessionPromiseRef st; mediaStreamRef := mediaStreamRef st;
     audioContextRef := audioContextRef st; scriptProcessorRef := x;
     mediaStreamSourceRef := mediaStreamSourceRef st;
     outputAudioContextRef := outputAudioContextRef st; outputNodeRef := outputNodeRef st;
     sourcesRef := sourcesRef st; nextStartTimeRef := nextStartTimeRef st;
     currentInputTranscriptionRef := currentInputTranscriptionRef st;
     currentOutputTranscriptionRef := currentOutputTranscriptionRef st;
     liveTracks := liveTracks st; openContexts := openContexts st; connected := connected st;
     startLog := startLog st; stoppedSources := stoppedSources st; sessions := sessions st;
     nextHandle := nextHandle st |}.

Definition set_mediaStreamSourceRef (x : option nat) (st : State) : State :=
  {| isSessionActive := isSessionActive st; transcripts := transcripts st; error := error st;
     sessionPromiseRef := sessionPromiseRef st; mediaStreamRef := mediaStreamRef st;
     audioContextRef := audioContextRef st; scriptProcessorRef := scriptProcessorRef st;
     mediaStreamSourceRef := x; outputAudioContextRef := outputAudioContextRef st;
     outputNodeRef := outputNodeRef st; sourcesRef := sourcesRef st;
     nextStartTimeRef := nextStartTimeRef st;
     currentInputTranscriptionRef := currentInputTranscriptionRef st;
     currentOutputTranscriptionRef := currentOutputTranscriptionRef st;
     liveTracks := liveTracks st; openContexts := openContexts st; connected := connected st;
     startLog := startLog st; stoppedSources := stoppedSources st; sessions := sessions st;
     nextHandle := nextHandle st |}.

Definition set_outputAudioContextRef (x : option nat) (st : State) : State :=
  {| isSessionActive := isSessionActive st; transcripts := transcripts st; error := error st;
     sessionPromiseRef := sessionPromiseRef st; mediaStreamRef := mediaStreamRef st;
     audioContextRef := audioContextRef st; scriptProcessorRef := scriptProcessorRef st;
     mediaStreamSourceRef := mediaStreamSourceRef st; outputAudioContextRef := x;
     outputNodeRef := outputNodeRef st; sourcesRef := sourcesRef st;
     nextStartTimeRef := nextStartTimeRef st;
     currentInputTranscriptionRef := currentInputTranscriptionRef st;
     currentOutputTranscriptionRef := currentOutputTranscriptionRef st;
     liveTracks := liveTracks st; openContexts := openContexts st; connected := connected st;
     startLog := startLog st; stoppedSources := stoppedSources st; sessions := sessions st;
     nextHandle := nextHandle st |}.

Definition set_outputNodeRef (x : option nat) (st : State) : State :=
  {| isSessionActive := isSessionActive st; transcripts := transcripts st; error := error st;
     sessionPromiseRef := sessionPromiseRef st; mediaStreamRef := mediaStreamRef st;
     audioContextRef := audioContextRef st; scriptProcessorRef := scriptProcessorRef st;
     mediaStreamSourceRef := mediaStreamSourceRef st;
     outputAudioContextRef := outputAudioContextRef st; outputNodeRef := x;
     sourcesRef := sourcesRef st; nextStartTimeRef := nextStartTimeRef st;
     currentInputTranscriptionRef := currentInputTranscriptionRef st;
     currentOutputTranscriptionRef := currentOutputTranscriptionRef st;
     liveTracks := liveTracks st; openContexts := openContexts st; connected := connected st;
     startLog := startLog st; stoppedSources := stoppedSources st; sessions := sessions st;
     nextHandle := nextHandle st |}.

Definition set_sourcesRef (x : gset nat) (st : State) : State :=
  {| isSessionActive := isSessionActive st; transcripts := transcripts st; error := error st;
     sessionPromiseRef := sessionPromiseRef st; mediaStreamRef := mediaStreamRef st;
     audioContextRef := audioContextRef st; scriptProcessorRef := scriptProcessorRef st;
     mediaStreamSourceRef := mediaStreamSourceRef st;
     outputAudioContextRef := outputAudioContextRef st; outputNodeRef := outputNodeRef st;
     sourcesRef := x; nextStartTimeRef := nextStartTimeRef st;
     currentInputTranscriptionRef := currentInputTranscriptionRef st;
     currentOutputTranscriptionRef := currentOutputTranscriptionRef st;
     liveTracks := liveTracks st; openContexts := openContexts st; connected := connected st;
     startLog := startLog st; stoppedSources := stoppedSources st; sessions := sessions st;
     nextHandle := nextHandle st |}.

Definition set_nextStartTimeRef (x : Q) (st : State) : State :=
  {| isSessionActive := isSessionActive st; transcripts := transcripts st; error := error st;
     sessionPromiseRef := sessionPromiseRef st; mediaStreamRef := mediaStreamRef st;
     audioContextRef := audioContextRef st; scriptProcessorRef := scriptProcessorRef st;
     mediaStreamSourceRef := mediaStreamSourceRef st;
     outputAudioContextRef := outputAudioContextRef st; outputNodeRef := outputNodeRef st;
     sourcesRef := sourcesRef st; nextStartTimeRef := x;
     currentInputTranscriptionRef := currentInputTranscriptionRef st;
     currentOutputTranscriptionRef := currentOutputTranscriptionRef st;
     liveTracks := liveTracks st; openContexts := openContexts st; connected := connected st;
     startLog := startLog st; stoppedSources := stoppedSources st; sessions := sessions st;
     nextHandle := nextHandle st |}.

Definition set_currentInputTranscriptionRef (x : string) (st : State) : State :=
  {| isSessionActive := isSessionActive st; transcripts := transcripts st; error := error st;
     sessionPromiseRef := sessionPromiseRef st; mediaStreamRef := mediaStreamRef st;
     audioContextRef := audioContextRef st; scriptProcessorRef := scriptProcessorRef st;
     mediaStreamSourceRef := mediaStreamSourceRef st;
     outputAudioContextRef := outputAudioContextRef st; outputNodeRef := outputNodeRef st;
     sourcesRef := sourcesRef st; nextStartTimeRef := nextStartTimeRef st;
     currentInputTranscriptionRef := x;
     currentOutputTranscriptionRef := currentOutputTranscriptionRef st;
     liveTracks := liveTracks st; openContexts := openContexts st; connected := connected st;
     startLog := startLog st; stoppedSources := stoppedSources st; sessions := sessions st;
     nextHandle := nextHandle st |}.

Definition set_currentOutputTranscriptionRef (x : string) (st : State) : State :=
  {| isSessionActive := isSessionActive st; transcripts := transcripts st; error := error st;
     sessionPromiseRef := sessionPromiseRef st; mediaStreamRef := mediaStreamRef st;
     audioContextRef := audioContextRef st; scriptProcessorRef := scriptProcessorRef st;
     mediaStreamSourceRef := mediaStreamSourceRef st;
     outputAudioContextRef := outputAudioContextRef st; outputNodeRef := outputNodeRef st;
     sourcesRef := sourcesRef st; nextStartTimeRef := nextStartTimeRef st;
     currentInputTranscriptionRef := currentInputTranscriptionRef st;
     currentOutputTranscriptionRef := x; liveTracks := liveTracks st;
     openContexts := openContexts st; connected := connected st; startLog := startLog st;
     stoppedSources := stoppedSources st; sessions := sessions st;
     nextHandle := nextHandle st |}.

Definition set_liveTracks (x : gset nat) (st : State) : State :=
  {| isSessionActive := isSessionActive st; transcripts := transcripts st; error := error st;
     sessionPromiseRef := sessionPromiseRef st; mediaStreamRef := mediaStreamRef st;
     audioContextRef := audioContextRef st; scriptProcessorRef := scriptProcessorRef st;
     mediaStreamSourceRef := mediaStreamSourceRef st;
     outputAudioContextRef := outputAudioContextRef st; outputNodeRef := outputNodeRef st;
     sourcesRef := sourcesRef st; nextStartTimeRef := nextStartTimeRef st;
     currentInputTranscriptionRef := currentInputTranscriptionRef st;
     currentOutputTranscriptionRef := currentOutputTranscriptionRef st; liveTracks := x;
     openContexts := openContexts st; connected := connected st; startLog := startLog st;
     stoppedSources := stoppedSources st; sessions := sessions st;
     nextHandle := nextHandle st |}.

Definition set_openContexts (x : gset nat) (st : State) : State :=
  {| isSessionActive := isSessionActive st; transcripts := transcripts st; error := error st;
     sessionPromiseRef := sessionPromiseRef st; mediaStreamRef := mediaStreamRef st;
     audioContextRef := audioContextRef st; scriptProcessorRef := scriptProcessorRef st;
     mediaStreamSourceRef := mediaStreamSourceRef st;
     outputAudioContextRef := outputAudioContextRef st; outputNodeRef := outputNodeRef st;
     sourcesRef := sourcesRef st; nextStartTimeRef := nextStartTimeRef st;
     currentInputTranscriptionRef := currentInputTranscriptionRef st;
     currentOutputTranscriptionRef := currentOutputTranscriptionRef st;
     liveTracks := liveTracks st; openContexts := x; connected := connected st;
     startLog := startLog st; stoppedSources := stoppedSources st; sessions := sessions st;
     nextHandle := nextHandle st |}.

Definition set_connected (x : gset nat) (st : State) : State :=
  {| isSessionActive := isSessionActive st; transcripts := transcripts st; error := error st;
     sessionPromiseRef := sessionPromiseRef st; mediaStreamRef := mediaStreamRef st;
     audioContextRef := audioContextRef st; scriptProcessorRef := scriptProcessorRef st;
     mediaStreamSourceRef := mediaStreamSourceRef st;
     outputAudioContextRef := outputAudioContextRef st; outputNodeRef := outputNodeRef st;
     sourcesRef := sourcesRef st; nextStartTimeRef := nextStartTimeRef st;
     currentInputTranscriptionRef := currentInputTranscriptionRef st;
     currentOutputTranscriptionRef := currentOutputTranscriptionRef st;
     liveTracks := liveTracks st; openContexts := openContexts st; connected := x;
     startLog := startLog st; stoppedSources := stoppedSources st; sessions := sessions st;
     nextHandle := nextHandle st |}.

Definition set_startLog (x : list (nat * Q)) (st : State) : State :=
  {| isSessionActive := isSessionActive st; transcripts := transcripts st; error := error st;
     sessionPromiseRef := sessionPromiseRef st; mediaStreamRef := mediaStreamRef st;
     audioContextRef := audioContextRef st; scriptProcessorRef := scriptProcessorRef st;
     mediaStreamSourceRef := mediaStreamSourceRef st;
     outputAudioContextRef := outputAudioContextRef st; outputNodeRef := outputNodeRef st;
     sourcesRef := sourcesRef st; nextStartTimeRef := nextStartTimeRef st;
     currentInputTranscriptionRef := currentInputTranscriptionRef st;
     currentOutputTranscriptionRef := currentOutputTranscriptionRef st;
     liveTracks := liveTracks st; openContexts := openContexts st; connected := connected st;
     startLog := x; stoppedSources := stoppedSources st; sessions := sessions st;
     nextHandle := nextHandle st |}.

Definition set_stoppedSources (x : gset nat) (st : State) : State :=
  {| isSessionActive := isSessionActive st; transcripts := transcripts st; error := error st;
     sessionPromiseRef := sessionPromiseRef st; mediaStreamRef := mediaStreamRef st;
     audioContextRef := audioContextRef st; scriptProcessorRef := scriptProcessorRef st;
     mediaStreamSourceRef := mediaStreamSourceRef st;
     outputAudioContextRef := outputAudioContextRef st; outputNodeRef := outputNodeRef st;
     sourcesRef := sourcesRef st; nextStartTimeRef := nextStartTimeRef st;
     currentInputTranscriptionRef := currentInputTranscriptionRef st;
     currentOutputTranscriptionRef := currentOutputTranscriptionRef st;
     liveTracks := liveTracks st; openContexts := openContexts st; connected := connected st;
     startLog := startLog st; stoppedSources := x; sessions := sessions st;
     nextHandle := nextHandle st |}.

Definition set_sessions (x : list Session) (st : State) : State :=
  {| isSessionActive := isSessionActive st; transcripts := transcripts st; error := error st;
     sessionPromiseRef := sessionPromiseRef st; mediaStreamRef := mediaStreamRef st;
     audioContextRef := audioContextRef st; scriptProcessorRef := scriptProcessorRef st;
     mediaStreamSourceRef := mediaStreamSourceRef st;
     outputAudioContextRef := outputAudioContextRef st; outputNodeRef := outputNodeRef st;
     sourcesRef := sourcesRef st; nextStartTimeRef := nextStartTimeRef st;
     currentInputTranscriptionRef := currentInputTranscriptionRef st;
     currentOutputTranscriptionRef := currentOutputTranscriptionRef st;
     liveTracks := liveTracks st; openContexts := openContexts st; connected := connected st;
     startLog := startLog st; stoppedSources := stoppedSources st; sessions := x;
     nextHandle := nextHandle st |}.

Definition set_nextHandle (x : nat) (st : State) : State :=
  {| isSessionActive := isSessionActive st; transcripts := transcripts st; error := error st;
     sessionPromiseRef := sessionPromiseRef st; mediaStreamRef := mediaStreamRef st;
     audioContextRef := audioContextRef st; scriptProcessorRef := scriptProcessorRef st;
     mediaStreamSourceRef := mediaStreamSourceRef st;
     outputAudioContextRef := outputAudioContextRef st; outputNodeRef := outputNodeRef st;
     sourcesRef := sourcesRef st; nextStartTimeRef := nextStartTimeRef st;
     currentInputTranscriptionRef := currentInputTranscriptionRef st;
     currentOutputTranscriptionRef := currentOutputTranscriptionRef st;
     liveTracks := liveTracks st; openContexts := openContexts st; connected := connected st;
     startLog := startLog st; stoppedSources := stoppedSources st; sessions := sessions st;
     nextHandle := x |}.

Definition initialState : State :=
  {| isSessionActive := false; transcripts := []; error := None;
     sessionPromiseRef := None; mediaStreamRef := None; audioContextRef := None;
     scriptProcessorRef := None; mediaStreamSourceRef := None;
     outputAudioContextRef := None; outputNodeRef := None; sourcesRef := ∅;
     nextStartTimeRef := 0; currentInputTranscriptionRef := EmptyString;
     currentOutputTranscriptionRef := EmptyString;
     liveTracks := ∅; openContexts := ∅; connected := ∅; startLog := [];
     stoppedSources := ∅; sessions := []; nextHandle := 0 |}.

(** *** Handlers as state transformers that may throw *)

Definition M (A : Type) : Type := State -> Result A * State.

Definition ret {A : Type} (a : A) : M A := fun st => (Ok a, st).

Definition bind {A B : Type} (m : M A) (f : A -> M B) : M B :=
  fun st =>
    match m st with
    | (Ok a, st') => f a st'
    | (Throw e, st') => (Throw e, st')
    end.

Definition throw {A : Type} (e : exn) : M A := fun st => (Throw e, st).

Definition gets {A : Type} (f : State -> A) : M A := fun st => (Ok (f st), st).

Definition modify (f : State -> State) : M unit := fun st => (Ok tt, f st).

(** [try { body } catch (e) { handler }] *)
Definition try_catch {A : Type} (body : M A) (handler : exn -> M A) : M A :=
  fun st =>
    match body st with
    | (Ok a, st') => (Ok a, st')
    | (Throw e, st') => handler e st'
    end.

(** [try { body } finally { fin }] *)
Definition try_finally {A : Type} (body : M A) (fin : M unit) : M A :=
  fun st =>
    match body st with
    | (r, st') =>
        match fin st' with
        | (Ok _, st'') => (r, st'')
        | (Throw e, st'') => (Throw e, st'')
        end
    end.

Declare Scope js_scope.
Delimit Scope js_scope with js.
Notation "x <- m ;; k" := (bind m (fun x => k))
  (at level 100, m at next level, right associativity) : js_scope.
Notation "m ;; k" := (bind m (fun _ => k))
  (at level 100, right associativity) : js_scope.
Local Open Scope js_scope.

Definition when (b : bool) (m : M unit) : M unit := if b then m else ret tt.

(** [if (ref.current) { body }], with [body] reading [ref.current]. *)
Definition if_ref {A : Type} (ref : State -> option A) (body : A -> M unit) : M unit :=
  current <- gets ref ;;
  match current with
  | Some a => body a
  | None => ret tt
  end.

(** *** Browser operations *)

Definition fresh : M nat :=
  h <- gets nextHandle ;;
  modify (set_nextHandle (S h)) ;;
  ret h.

(** [navigator.mediaDevices.getUserMedia({ audio: true })]: rejects, or
    resolves to a stream with one live audio track. *)
Definition getUserMedia (denied : option exn) : M MediaStream :=
  match denied with
  | Some e => throw e
  | None =>
      t <- fresh ;;
      modify (fun st => set_liveTracks (liveTracks st ∪ {[t]}) st) ;;
      ret {| tracks := [t] |}
  end.

(** [stream.getTracks().forEach(track => track.stop())] *)
Definition stop_all_tracks (stream : MediaStream) : M unit :=
  modify (fun st => set_liveTracks (liveTracks st ∖ list_to_set (tracks stream)) st).

Definition new_AudioContext : M nat :=
  c <- fresh ;;
  modify (fun st => set_openContexts (openContexts st ∪ {[c]}) st) ;;
  ret c.

(** [ctx.state === 'closed'] *)
Definition context_closed (c : nat) : M bool :=
  gets (fun st => bool_decide (c ∉ openContexts st)).

(** [ctx.close()]: fails with an [InvalidStateError] on a context that is
    closed already. *)
Definition context_close (c : nat) : M unit :=
  closed <- context_closed c ;;
  if closed then throw (DOMException "InvalidStateError")
  else modify (fun st => set_openContexts (openContexts st ∖ {[c]}) st).

(** [createGain], [createMediaStreamSource], [createScriptProcessor],
    [createBufferSource]: a new node. *)
Definition create_node : M nat := fresh.

Definition node_connect (n : nat) : M unit :=
  modify (fun st => set_connected (connected st ∪ {[n]}) st).

Definition node_disconnect (n : nat) : M unit :=
  modify (fun st => set_connected (connected st ∖ {[n]}) st).

(** [source.start(when)] *)
Definition source_start (source : nat) (when_ : Q) : M unit :=
  modify (fun st => set_startLog ((source, when_) :: startLog st) st).

(** [sourcesRef.current.forEach(source => source.stop())]: every member of
    the set was started before it was added, so [stop()] cannot raise. *)
Definition stop_all_sources : M unit :=
  modify (fun st => set_stoppedSources (stoppedSources st ∪ sourcesRef st) st).

(** [startLiveConversation(callbacks)]: a new session, still connecting;
    the callbacks close over [stream]. *)
Definition startLiveConversation (stream : MediaStream) : M nat :=
  s <- gets (fun st => length (sessions st)) ;;
  modify (fun st =>
    set_sessions (sessions st ++ [ {| sessionStatus := Connecting; capturedStream := stream |} ]) st) ;;
  ret s.

Definition set_status (s : nat) (status : SessionStatus) (st : State) : State :=
  set_sessions (alter (fun x => {| sessionStatus := status; capturedStream := capturedStream x |}) s
                  (sessions st)) st.

(** What [await sessionPromiseRef.current] finds. *)
Inductive Settled : Type :=
| Fulfilled
| Rejected (e : exn).

Definition await_session (s : nat) (settled : Settled) : M nat :=
  match settled with
  | Fulfilled => ret s
  | Rejected e => throw e
  end.

(** [session.close()], which may itself fail. *)
Definition session_close (s : nat) (fault : option exn) : M unit :=
  match fault with
  | Some e => throw e
  | None => modify (set_status s Closed)
  end.

(** *** [cleanup] *)

Definition cleanup : M unit :=
  stop_all_sources ;;
  modify (set_sourcesRef ∅) ;;
  if_ref scriptProcessorRef (fun scriptProcessor =>
    node_disconnect scriptProcessor ;;
    modify (set_scriptProcessorRef None)) ;;
  if_ref mediaStreamSourceRef (fun mediaStreamSource =>
    node_disconnect mediaStreamSource ;;
    modify (set_mediaStreamSourceRef None)) ;;
  if_ref audioContextRef (fun audioContext =>
    closed <- context_closed audioContext ;;
    when (negb closed)
      (context_close audioContext ;;
       modify (set_audioContextRef None))) ;;
  if_ref outputAudioContextRef (fun outputAudioContext =>
    closed <- context_closed outputAudioContext ;;
    when (negb closed)
      (context_close outputAudioContext ;;
       modify (set_outputAudioContextRef None))) ;;
  if_ref mediaStreamRef (fun mediaStream =>
    stop_all_tracks mediaStream ;;
    modify (set_mediaStreamRef None)).

(** *** [stopConversation] *)

(** The [try]/[catch]/[finally] statement, from the point where the
    [await] is resumed. *)
Definition close_session (s : nat) (settled : Settled) (fault : option exn) : M unit :=
  try_finally
    (try_catch
       (session <- await_session s settled ;; session_close session fault)
       (fun e => ret tt))
    (modify (set_sessionPromiseRef None)).

(** [stopConversation] with nothing running between its suspension at the
    [await] and its resumption. *)
Definition stopConversation (settled : Settled) (fault : option exn) : M unit :=
  modify (set_isSessionActive false) ;;
  if_ref sessionPromiseRef (fun s => close_session s settled fault) ;;
  cleanup.


(** *** [startConversation] and the callbacks it installs *)

(** [startConversation] on the outcome of the awaited [getUserMedia]; it is
    taken to run from that [await] to its end before another callback runs. *)
Definition startConversation (denied : option exn) : M unit :=
  modify (set_error None) ;;
  modify (set_transcripts []) ;;
  modify (set_currentInputTranscriptionRef EmptyString) ;;
  modify (set_currentOutputTranscriptionRef EmptyString) ;;
  try_catch
    (stream <- getUserMedia denied ;;
     modify (set_mediaStreamRef (Some stream)) ;;
     audioContext <- new_AudioContext ;;
     modify (set_audioContextRef (Some audioContext)) ;;
     outputAudioContext <- new_AudioContext ;;
     modify (set_outputAudioContextRef (Some outputAudioContext)) ;;
     outputNode <- create_node ;;
     node_connect outputNode ;;
     modify (set_outputNodeRef (Some outputNode)) ;;
     modify (set_nextStartTimeRef 0) ;;
     modify (set_sourcesRef ∅) ;;
     session <- startLiveConversation stream ;;
     modify (set_sessionPromiseRef (Some session)))
    (fun err =>
       modify (set_error (Some "Failed to start conversation. Please check microphone permissions."))).

(** [onopen], for the session with handle [s]; [audioContextRef.current!]
    is dereferenced without a check.  The [onaudioprocess] callback it
    installs encodes and sends frames and writes no state of the component. *)
Definition onopen (s : nat) : M unit :=
  modify (set_status s Opened) ;;
  modify (set_isSessionActive true) ;;
  audioContext <- gets audioContextRef ;;
  match audioContext with
  | None => throw (TypeError "Cannot read properties of null (reading 'createMediaStreamSource')")
  | Some _ =>
      source <- create_node ;;
      modify (set_mediaStreamSourceRef (Some source)) ;;
      scriptProcessor <- create_node ;;
      modify (set_scriptProcessorRef (Some scriptProcessor)) ;;
      node_connect source ;;
      node_connect scriptProcessor
  end.

(** [ref.current += transcription.text]: an absent [text] is appended as
    the string ["undefined"]. *)
Definition fragment (t : Transcription) : string :=
  match transcription_text t with
  | Some s => s
  | None => "undefined"
  end.

Definition entry (now : Z) (who : Speaker) (content : string) : list Transcript :=
  match content with
  | EmptyString => []
  | String _ _ => [ {| id := now; speaker := who; text := content |} ]
  end.

(** [if (transcription) { ref.current += transcription.text }] *)
Definition append_fragment (t : option Transcription)
  (ref : State -> string) (set_ref : string -> State -> State) : M unit :=
  match t with
  | Some t => modify (fun st => set_ref (ref st ++ fragment t) st)
  | None => ret tt
  end.

(** The [turnComplete] branch. *)
Definition flush_turn (clock : Clock) : M unit :=
  input <- gets currentInputTranscriptionRef ;;
  output <- gets currentOutputTranscriptionRef ;;
  modify (fun st =>
    set_transcripts (transcripts st
                     ++ entry (dateNow_user clock) user input
                     ++ entry (dateNow_model clock + 1) model output) st) ;;
  modify (set_currentInputTranscriptionRef EmptyString) ;;
  modify (set_currentOutputTranscriptionRef EmptyString).

(** [message.serverContent?.modelTurn?.parts[0]?.inlineData?.data]: the
    index into [parts] is not guarded. *)
Definition first_audio (message : LiveServerMessage) : M (option string) :=
  match chain (serverContent message) modelTurn with
  | None => ret None
  | Some turn =>
      match parts turn with
      | None => throw (TypeError "Cannot read properties of undefined (reading '0')")
      | Some ps => ret (chain (chain (head ps) inlineData) data)
      end
  end.

(** [message.serverContent?.turnComplete], [message.serverContent?.interrupted]
    as conditions. *)
Definition turn_completion (message : LiveServerMessage) : bool :=
  from_option turnComplete false (serverContent message).

Definition interruption (message : LiveServerMessage) : bool :=
  from_option interrupted false (serverContent message).

(** The interruption branch. *)
Definition interrupt : M unit :=
  stop_all_sources ;;
  modify (set_sourcesRef ∅) ;;
  modify (set_nextStartTimeRef 0).

(** The transcript statements of [onmessage]: the two fragments, then the
    [turnComplete] branch. *)
Definition onmessage_transcript (clock : Clock) (message : LiveServerMessage) : M unit :=
  append_fragment (chain (serverContent message) inputTranscription)
    currentInputTranscriptionRef set_currentInputTranscriptionRef ;;
  append_fragment (chain (serverContent message) outputTranscription)
    currentOutputTranscriptionRef set_currentOutputTranscriptionRef ;;
  when (turn_completion message) (flush_turn clock).

Section Callbacks.

(** [decodeAudioData(decode(base64Audio), ctx, 24000, 1)] from
    [utils/audioUtils]: the decoded buffer, [None] when decoding throws. *)
Variable decodeAudio : string -> option AudioBuffer.

(** The audio branch of [onmessage].  The handler is taken to run from its
    [await] to its end before another callback runs. *)
Definition schedule_audio (clock : Clock) (base64Audio : option string) : M unit :=
  outputAudioContext <- gets outputAudioContextRef ;;
  outputNode <- gets outputNodeRef ;;
  match base64Audio, outputAudioContext, outputNode with
  | Some (String c rest), Some _, Some _ =>
      modify (fun st => set_nextStartTimeRef (Qmax (nextStartTimeRef st) (currentTime clock)) st) ;;
      audioBuffer <- match decodeAudio (String c rest) with
                     | Some b => ret b
                     | None => throw (DOMException "InvalidCharacterError")
                     end ;;
      source <- create_node ;;
      node_connect source ;;
      start <- gets nextStartTimeRef ;;
      source_start source start ;;
      modify (set_nextStartTimeRef (start + duration audioBuffer)) ;;
      modify (fun st => set_sourcesRef (sourcesRef st ∪ {[source]}) st)
  | _, _, _ => ret tt
  end.

(** The playback statements of [onmessage]: the audio branch, then the
    interruption branch. *)
Definition onmessage_playback (clock : Clock) (message : LiveServerMessage) : M unit :=
  base64Audio <- first_audio message ;;
  schedule_audio clock base64Audio ;;
  when (interruption message) interrupt.

Definition onmessage (clock : Clock) (message : LiveServerMessage) : M unit :=
  onmessage_transcript clock message ;;
  onmessage_playback clock message.

End Callbacks.

(** The listener for a source node's [ended] event. *)
Definition onended (source : nat) : M unit :=
  modify (fun st => set_sourcesRef (sourcesRef st ∖ {[source]}) st).

Definition conversation_error : string := "An error occurred during the conversation.".

(** [onerror] and [onclose]; [e] is the event the transport hands over. *)
Definition onerror (e : string) (settled : Settled) (fault : option exn) : M unit :=
  modify (set_error (Some conversation_error)) ;;
  stopConversation settled fault.

Definition onclose (e : string) (settled : Settled) (fault : option exn) : M unit :=
  stopConversation settled fault.

(** *** The header of the rendered view *)

Inductive HeaderButton : Type := StartButton | StopButton.

Definition headerButton (st : State) : HeaderButton :=
  if negb (isSessionActive st) then StartButton else StopButton.

(** A click on the one button the header shows. *)
Definition click (denied : option exn) (settled : Settled) (fault : option exn) : M unit :=
  button <- gets headerButton ;;
  match button with
  | StartButton => startConversation denied
  | StopButton => stopConversation settled fault
  end.

(** Running a handler for its effect on the state. *)
Definition exec {A : Type} (m : M A) (st : State) : State := snd (m st).

(** The sessions that hold a connection: opened or still connecting. *)
Definition liveSessions (st : State) : list Session :=
  List.filter (fun s => match sessionStatus s with Closed => false | _ => true end) (sessions st).

(** *** Vocabulary of the statements about the conversation *)

(** The audio payload a message carries in its first part, when reading it
    does not throw. *)
Definition inbound_audio (message : LiveServerMessage) : option string :=
  chain (chain (chain (chain (chain (serverContent message) modelTurn) parts) head) inlineData) data.

(** The transcription buffer once the fragment of the message is appended. *)
Definition accumulated (buffer : string) (t : option Transcription) : string :=
  match t with
  | Some t => buffer ++ fragment t
  | None => buffer
  end.

(** The entries a turn completion adds, by cases on the two buffers. *)
Definition turn_entries (clock : Clock) (input output : string) : list Transcript :=
  match input, output with
  | EmptyString, EmptyString => []
  | EmptyString, String _ _ =>
      [ {| id := dateNow_model clock + 1; speaker := model; text := output |} ]
  | String _ _, EmptyString =>
      [ {| id := dateNow_user clock; speaker := user; text := input |} ]
  | String _ _, String _ _ =>
      [ {| id := dateNow_user clock; speaker := user; text := input |};
        {| id := dateNow_model clock + 1; speaker := model; text := output |} ]
  end.

(** Identifiers that increase strictly along a list of entries. *)
Fixpoint increasing_ids (l : list Transcript) : Prop :=
  match l with
  | [] => True
  | a :: rest =>
      match rest with
      | [] => True
      | b :: _ => (id a < id b)%Z
      end /\ increasing_ids rest
  end.

(** What the teardown leaves of the resources held in [before]: every
    scheduled source is stopped and the set is empty, the capture and
    processing node refs and the stream ref are null, every track of the
    held stream is stopped, no context that was or is referenced is open,
    and nothing was acquired. *)
Definition released (before after : State) : Prop :=
  sourcesRef after = ∅
  /\ sourcesRef before ⊆ stoppedSources after
  /\ scriptProcessorRef after = None
  /\ mediaStreamSourceRef after = None
  /\ mediaStreamRef after = None
  /\ (forall stream t, mediaStreamRef before = Some stream -> In t (tracks stream) ->
        t ∉ liveTracks after)
  /\ (forall c, audioContextRef before = Some c \/ outputAudioContextRef before = Some c
                \/ audioContextRef after = Some c \/ outputAudioContextRef after = Some c ->
        c ∉ openContexts after)
  /\ liveTracks after ⊆ liveTracks before
  /\ openContexts after ⊆ openContexts before.

(** *** Sample runs *)

(** [decodeAudioData(decode(base64Audio), ctx, 24000, 1)] on the model of
    the codec utilities: one frame for every two bytes. *)
Definition sample_decode (base64Audio : string) : option AudioBuffer :=
  match AudioUtils.decode base64Audio with
  | Some bytes =>
      Some {| frames := length (AudioUtils.int16_of_bytes bytes); sampleRate := 24000 |}
  | None => None
  end.

Definition audio_message (base64Audio : string) : LiveServerMessage :=
  {| serverContent := Some
       {| inputTranscription := None; outputTranscription := None; turnComplete := false;
          modelTurn := Some {| parts := Some [ {| inlineData := Some {| data := Some base64Audio |} |} ] |};
          interrupted := false |} |}.

Definition interruption_message : LiveServerMessage :=
  {| serverContent := Some
       {| inputTranscription := None; outputTranscription := None; turnComplete := false;
          modelTurn := None; interrupted := true |} |}.

Definition turn_message (fragment : string) : LiveServerMessage :=
  {| serverContent := Some
       {| inputTranscription := None;
          outputTranscription := Some {| transcription_text := Some fragment |};
          turnComplete := true; modelTurn := None; interrupted := false |} |}.

Definition sample_clock : Clock :=
  {| currentTime := 1 # 2; dateNow_user := 1700000000000; dateNow_model := 1700000000000 |}.

(** Start granted, session still connecting; then opened; then two
    segments scheduled. *)
Definition st_connecting : State := exec (startConversation None) initialState.
Definition st_active : State := exec (onopen 0) st_connecting.
Definition st_playing : State :=
  exec (onmessage sample_decode sample_clock (audio_message "QUJD"))
    (exec (onmessage sample_decode sample_clock (audio_message "QUJDRA==")) st_active).

End Conversation.

(** ** Speech synthesis *)

Module Speech.
Import Js.

Inductive Language : Type := english | hindi.

(** The prompt of [getTextToSpeech]: the text stands between double quotes
    at its end. *)
Definition tts_prompt (text : string) (language : Language) : string :=
  match language with
  | hindi =>
      "Translate the following English text to Hindi and then say it in a clear, friendly voice. Text: "
      ++ Discovery.quoted text
  | english =>
      "Say the following English text in a clear, friendly voice with an Indian accent. Text: "
      ++ Discovery.quoted text
  end.

(** The part of the service response that [getTextToSpeech] reads. *)
Record Candidate : Type := { content : option Conversation.Content }.

Record SpeechResponse : Type := { candidates : option (list Candidate) }.

(** [response.candidates?.[0]?.content?.parts?.[0]?.inlineData?.data] *)
Definition first_inline_data (response : SpeechResponse) : option string :=
  chain (chain (chain (chain (chain (chain (candidates response) head) content)
    Conversation.parts) head) Conversation.inlineData) Conversation.data.

Definition speech_error : string := "Failed to generate audio from text.".

Section Service.

(** The awaited [generateContent] call of the speech model, by its prompt. *)
Variable generateContent : string -> Result SpeechResponse.

Definition getTextToSpeech (text : string) (language : Language) : Result string :=
  match generateContent (tts_prompt text language) with
  | Throw e => Throw e
  | Ok response =>
      match first_inline_data response with
      | Some (String c base64Audio) => Ok (String c base64Audio)
      | _ => Throw (Error speech_error)
      end
  end.

End Service.

(** *** Sample responses *)

Definition audio_part (base64Audio : string) : Conversation.Part :=
  {| Conversation.inlineData := Some {| Conversation.data := Some base64Audio |} |}.

Definition text_part : Conversation.Part := {| Conversation.inlineData := None |}.

Definition speech_response (ps : list Conversation.Part) : SpeechResponse :=
  {| candidates := Some [ {| content := Some {| Conversation.parts := Some ps |} |} ] |}.

(** A stand-in for the speech service: audio in the first part for the
    English prompt, audio only in the second part for the Hindi one. *)
Definition sample_speech (prompt : string) : Result SpeechResponse :=
  if startsWith "Say" prompt
  then Ok (speech_response [audio_part "QUJDRA=="])
  else Ok (speech_response [text_part; audio_part "QUJDRA=="]).

End Speech.

(** ** The discovery view: search entry points and screens *)

Module Search.
Import Js Discovery.

(** *** [String.prototype.trim] *)

(** The white space and line terminator code units below 256: TAB, LF, VT,
    FF, CR, SP and NBSP. *)
Definition is_whitespace (c : ascii) : bool :=
  let n := nat_of_ascii c in
  ((9 <=? n) && (n <=? 13) || (n =? 32) || (n =? 160))%nat.

Fixpoint trimStart (s : string) : string :=
  match s with
  | EmptyString => EmptyString
  | String c s' => if is_whitespace c then trimStart s' else s
  end.

Fixpoint trimEnd (s : string) : string :=
  match s with
  | EmptyString => EmptyString
  | String c s' =>
      match trimEnd s' with
      | EmptyString => if is_whitespace c then EmptyString else String c EmptyString
      | String c' t => String c (String c' t)
      end
  end.

Definition trim (s : string) : string := trimEnd (trimStart s).

(** *** Further setters of the view state *)

Definition setIsLoading (b : bool) (v : DiscoverView) : DiscoverView :=
  {| isLoading := b; status := status v; error := error v; places := places v;
     sources := sources v; selectedPlace := selectedPlace v; isPlaying := isPlaying v;
     audioBufferRef := audioBufferRef v; audioSourceRef := audioSourceRef v |}.


Definition setIsPlaying (b : bool) (v : DiscoverView) : DiscoverView :=
  {| isLoading := isLoading v; status := status v; error := error v; places := places v;
     sources := sources v; selectedPlace := selectedPlace v; isPlaying := b;
     audioBufferRef := audioBufferRef v; audioSourceRef := audioSourceRef v |}.

Definition setAudioBufferRef (b : option nat) (v : DiscoverView) : DiscoverView :=
  {| isLoading := isLoading v; status := status v; error := error v; places := places v;
     sources := sources v; selectedPlace := selectedPlace v; isPlaying := isPlaying v;
     audioBufferRef := b; audioSourceRef := audioSourceRef v |}.

Definition setAudioSourceRef (s : option nat) (v : DiscoverView) : DiscoverView :=
  {| isLoading := isLoading v; status := status v; error := error v; places := places v;
     sources := sources v; selectedPlace := selectedPlace v; isPlaying := isPlaying v;
     audioBufferRef := audioBufferRef v; audioSourceRef := s |}.

(** *** The handlers of the initial screen *)

(** What [navigator.geolocation.getCurrentPosition] ends in: a position,
    whose coordinates are given as the decimal texts a template literal
    prints for them, a [GeolocationPositionError], or another thrown
    value. *)
Inductive Located : Type :=
| Position (latitude longitude : string)
| PositionError (message : string)
| Failure (e : exn).

Definition location_query (latitude longitude : string) : string :=
  "near my current location at latitude " ++ latitude ++ ", longitude " ++ longitude.

Section Handlers.

Variable JSON_parse : string -> option JSON.

(** The awaited [generateContent] call of [getNearbyPlaces], by the
    location query its prompt is built from. *)
Variable backend : string -> Result GenerateContentResponse.

Definition fetchPlaces (locationQuery : string) (v : DiscoverView) : DiscoverView :=
  handleFetchPlaces JSON_parse (backend locationQuery) v.

(** The query [handleSearch] hands to [handleFetchPlaces], if any. *)
Definition submitted (locationInput : string) : option string :=
  match trim locationInput with
  | EmptyString => None
  | String c q => Some (trim locationInput)
  end.

Definition handleSearch (locationInput : string) (v : DiscoverView) : DiscoverView :=
  match submitted locationInput with
  | Some locationQuery => fetchPlaces locationQuery v
  | None => v
  end.

(** [handleUseCurrentLocation], on the outcome of the awaited position.
    [handleFetchPlaces] catches every exception of its own, so the [catch]
    block here sees the failures of the position request only. *)
Definition handleUseCurrentLocation (located : Located) (v : DiscoverView) : DiscoverView :=
  let v1 := setStatus "Getting your location..." (setError None (setIsLoading true v)) in
  match located with
  | Position latitude longitude => fetchPlaces (location_query latitude longitude) v1
  | PositionError message =>
      setStatus EmptyString (setIsLoading false
        (setError (Some ("Geolocation Error: " ++ message)) v1))
  | Failure e =>
      setStatus EmptyString (setIsLoading false
        (setError (Some (or_default (Some (message_of e))
                           "Failed to get location. Please try again.")) v1))
  end.

End Handlers.

(** *** The buttons of the other screens *)




(** Try Again *)
Definition tryAgain (v : DiscoverView) : DiscoverView := setPlaces None (setError None v).

(** *** What the view renders *)

(** A value used as a condition. *)
Definition truthy (v : JSON) : bool :=
  match v with
  | JNull => false
  | JBool b => b
  | JNum x => negb (Qeq_bool x 0)
  | JStr EmptyString => false
  | _ => true
  end.

Inductive Screen : Type :=
| Loader (status : string)
| ErrorBox (message : string)
| PlaceDetail (place : JSON)
| PlacesList (cards : list JSON)
| InitialState.

(** The conditional chain of the [return] statement. *)
Definition render (v : DiscoverView) : Screen :=
  if isLoading v then Loader (status v)
  else match error v with
       | Some (String c message) => ErrorBox (String c message)
       | _ =>
           match selectedPlace v with
           | Some place =>
               if truthy place then PlaceDetail place
               else match places v with
                    | Some cards => PlacesList cards
                    | None => InitialState
                    end
           | None =>
               match places v with
               | Some cards => PlacesList cards
               | None => InitialState
               end
           end
       end.

(** *** Vocabulary of the statements about searching *)

(** A string of white space only. *)
Fixpoint blank (s : string) : bool :=
  match s with
  | EmptyString => true
  | String c s' => is_whitespace c && blank s'
  end.

(** The first and the last code unit of a string. *)
Definition first_unit (s : string) : option ascii :=
  match s with
  | EmptyString => None
  | String c _ => Some c
  end.

Fixpoint last_unit (s : string) : option ascii :=
  match s with
  | EmptyString => None
  | String c EmptyString => Some c
  | String _ s' => last_unit s'
  end.

(** The parsed values [handleFetchPlaces] can turn into cards: an array
    whose elements are neither [null] nor objects with a [category] that
    is something other than a string or [null]. *)
Definition usable_category (category : option JSON) : bool :=
  match category with
  | None | Some JNull | Some (JStr _) => true
  | Some _ => false
  end.

Definition mappable_element (place : JSON) : bool :=
  match place with
  | JNull => false
  | JObj props => usable_category (get_prop "category" props)
  | _ => true
  end.

Definition mappable (foundPlaces : JSON) : bool :=
  match foundPlaces with
  | JArr items => forallb mappable_element items
  | _ => false
  end.

(** An element that names no category: not an object, or an object whose
    [category] is absent, [null] or the empty string. *)
Definition uncategorised (place : JSON) : bool :=
  match place with
  | JNull => false
  | JObj props =>
      match get_prop "category" props with
      | None | Some JNull | Some (JStr EmptyString) => true
      | Some _ => false
      end
  | _ => true
  end.

(** A source made from a reference of a grounding chunk: the reference has
    a non-empty [uri]; the title is the reference's, or [fallback] when
    that is absent or empty. *)
Definition made_from (r : option ChunkRef) (fallback : string) (t : SourceType)
  (s : GroundingSource) : Prop :=
  exists c, r = Some c /\ ref_uri c = Some (uri s) /\ uri s <> EmptyString /\ type s = t
    /\ ((ref_title c = Some (title s) /\ title s <> EmptyString)
        \/ ((ref_title c = None \/ ref_title c = Some EmptyString) /\ title s = fallback)).

Definition source_of (chunk : GroundingChunk) (s : GroundingSource) : Prop :=
  made_from (chunk_web chunk) "Web Source" web s
  \/ made_from (chunk_maps chunk) "Map Location" maps s.

(** *** Sample inputs *)

(** A backend that answers every query with the two sample places, with
    one chunk that has a web reference without title and a maps reference
    without [uri]. *)
Definition sample_chunk : GroundingChunk :=
  {| chunk_web := Some {| ref_uri := Some "https://example.org/a"; ref_title := None |};
     chunk_maps := Some {| ref_uri := None; ref_title := Some "Somewhere" |} |}.

Definition sample_backend (locationQuery : string) : Result GenerateContentResponse :=
  Ok {| text := Some (fenced_text places_text); groundingChunks := Some [sample_chunk] |}.

(** The space, code unit 32. *)
Definition SP : string := String (ascii_of_nat 32) EmptyString.

(** The backtick, code unit 96. *)
Definition BQ : string := String (ascii_of_nat 96) EmptyString.

End Search.

(** ** The narration of a selected place *)

Module Narration.
Import Js Discovery Search.

(** The discovery view together with the rest of its audio state and the
    buffer sources of the browser.  Objects are named by handles. *)
Record Player : Type := {
  view : DiscoverView;
  isAudioLoading : bool;
  audioContextRef : option nat;
  (* the browser *)
  sounding : gset nat;     (* sources started and neither stopped nor run out *)
  ending : gset nat;       (* sources stopped whose 'ended' event is still to be dispatched *)
  nextObject : nat         (* the next fresh object handle *)
}.

Definition with_view (f : DiscoverView -> DiscoverView) (p : Player) : Player :=
  {| view := f (view p); isAudioLoading := isAudioLoading p;
     audioContextRef := audioContextRef p; sounding := sounding p; ending := ending p;
     nextObject := nextObject p |}.

Definition setIsAudioLoading (b : bool) (p : Player) : Player :=
  {| view := view p; isAudioLoading := b;
     audioContextRef := audioContextRef p; sounding := sounding p; ending := ending p;
     nextObject := nextObject p |}.

Definition initialPlayer : Player :=
  {| view := initialView; isAudioLoading := false; audioContextRef := None;
     sounding := ∅; ending := ∅; nextObject := 0 |}.

(** [source.stop()] on a started source: a sounding source falls silent
    and owes its 'ended' event; on any other source nothing happens. *)
Definition source_stop (source : nat) (p : Player) : Player :=
  if bool_decide (source ∈ sounding p)
  then {| view := view p; isAudioLoading := isAudioLoading p;
          audioContextRef := audioContextRef p;
          sounding := sounding p ∖ {[source]}; ending := ending p ∪ {[source]};
          nextObject := nextObject p |}
  else p.

(** [createBufferSource()] followed by [source.start()]. *)
Definition source_start (p : Player) : nat * Player :=
  (nextObject p,
   {| view := view p; isAudioLoading := isAudioLoading p;
      audioContextRef := audioContextRef p;
      sounding := sounding p ∪ {[nextObject p]}; ending := ending p;
      nextObject := S (nextObject p) |}).

(** [new AudioContext({ sampleRate: 24000 })] stored in the ref. *)
Definition new_AudioContext (p : Player) : Player :=
  {| view := view p; isAudioLoading := isAudioLoading p;
     audioContextRef := Some (nextObject p); sounding := sounding p; ending := ending p;
     nextObject := S (nextObject p) |}.

(** The decoded buffer, a new object, stored in the ref. *)
Definition store_buffer (p : Player) : Player :=
  {| view := setAudioBufferRef (Some (nextObject p)) (view p);
     isAudioLoading := isAudioLoading p;
     audioContextRef := audioContextRef p; sounding := sounding p; ending := ending p;
     nextObject := S (nextObject p) |}.

(** [cleanupAudio] *)
Definition cleanupAudio (p : Player) : Player :=
  let p1 := match audioSourceRef (view p) with
            | Some source => with_view (setAudioSourceRef None) (source_stop source p)
            | None => p
            end in
  with_view (setIsPlaying false) (with_view (setAudioBufferRef None) p1).

(** [toggleAudio] *)
Definition toggleAudio (p : Player) : Player :=
  match audioContextRef p, audioBufferRef (view p) with
  | Some _, Some _ =>
      if isPlaying (view p) then
        match audioSourceRef (view p) with
        | Some source => source_stop source p
        | None => p
        end
      else
        let (source, p1) := source_start p in
        with_view (setIsPlaying true) (with_view (setAudioSourceRef (Some source)) p1)
  | _, _ => p
  end.

(** The [onended] listener [toggleAudio] installs on every source. *)
Definition onended (p : Player) : Player :=
  with_view (setAudioSourceRef None) (with_view (setIsPlaying false) p).

(** The 'ended' event of [source] is dispatched: the source has run out,
    or it was stopped before.  [None] when the source owes no such event. *)
Definition dispatch_ended (source : nat) (p : Player) : option Player :=
  if bool_decide (source ∈ sounding p ∪ ending p)
  then Some (onended
               {| view := view p; isAudioLoading := isAudioLoading p;
                  audioContextRef := audioContextRef p;
                  sounding := sounding p ∖ {[source]}; ending := ending p ∖ {[source]};
                  nextObject := nextObject p |})
  else None.

(** What happens to a loaded player: clicks on the play button and
    'ended' events. *)
Inductive Event : Type :=
| Toggle
| Ended (source : nat).

Definition step (e : Event) (p : Player) : option Player :=
  match e with
  | Toggle => Some (toggleAudio p)
  | Ended source => dispatch_ended source p
  end.

Fixpoint run (events : list Event) (p : Player) : option Player :=
  match events with
  | [] => Some p
  | e :: rest =>
      match step e p with
      | Some p' => run rest p'
      | None => None
      end
  end.

Section Effect.

(** [decodeAudioData(decode(audioBase64), ctx, 24000, 1)] from
    [utils/audioUtils]: [None] when decoding throws. *)
Variable decodeAudio : string -> option Conversation.AudioBuffer.

(** [generateAudio] up to its [await]. *)
Definition generateAudio_begin (p : Player) : Player :=
  setIsAudioLoading true (cleanupAudio p).

(** [generateAudio] from the outcome of the awaited [getTextToSpeech] on;
    the [catch] block only logs. *)
Definition generateAudio_resume (speech : Result string) (p : Player) : Player :=
  setIsAudioLoading false
    match speech with
    | Throw _ => p
    | Ok audioBase64 =>
        let p1 := match audioContextRef p with
                  | Some _ => p
                  | None => new_AudioContext p
                  end in
        match decodeAudio audioBase64 with
        | Some _ => store_buffer p1
        | None => p1
        end
    end.

Definition generateAudio (speech : Result string) (p : Player) : Player :=
  generateAudio_resume speech (generateAudio_begin p).



End Effect.

(** The audio line of the detail screen. *)
Inductive AudioLine : Type :=
| Generating
| PlayButton (playing : bool)
| Unavailable.

Definition audio_line (p : Player) : AudioLine :=
  if isAudioLoading p then Generating
  else match audioBufferRef (view p) with
       | Some _ => PlayButton (isPlaying (view p))
       | None => Unavailable
       end.

(** *** Vocabulary and sample runs *)

(** Nothing sounds, no 'ended' event is owed and the button shows Play. *)
Definition quiet (p : Player) : Prop :=
  sounding p = ∅ /\ ending p = ∅ /\ isPlaying (view p) = false.

(** The ref and the play flag follow the sources: every source that
    sounds or owes its 'ended' event is the one the ref holds, and while
    the button shows Play there is no such source. *)
Definition in_step (p : Player) : Prop :=
  (forall s, s ∈ sounding p ∪ ending p -> audioSourceRef (view p) = Some s)
  /\ (isPlaying (view p) = false -> sounding p = ∅ /\ ending p = ∅).

(** A player with a context and a decoded buffer. *)
Definition loaded_player : Player :=
  generateAudio Conversation.sample_decode (Ok "QUJDRA==") initialPlayer.

(** Play, pause, the 'ended' event of the paused source, play again. *)
Definition replayed : Player :=
  default loaded_player (run [Toggle; Toggle; Ended 2; Toggle] loaded_player).

(** The language is switched while the narration plays: [generateAudio]
    runs again, its [cleanupAudio] stops source 2, whose 'ended' event is
    still to be dispatched when the new buffer is stored. *)
Definition switched : Player :=
  generateAudio Conversation.sample_decode (Ok "QUJDRA==") (toggleAudio loaded_player).

(** Play on the new buffer, the late 'ended' event of source 2, play. *)
Definition overlapped : Player :=
  default switched (run [Toggle; Ended 2; Toggle] switched).




End Narration.

(** ** A conversation as a sequence of events *)

Module Dialogue.
Import Js Conversation.

Section Run.

Variable decodeAudio : string -> option AudioBuffer.

(** The messages of a session handled one after the other, each with the
    clock readings it finds.  A handler that throws leaves the state it
    has reached. *)
Definition run_messages (events : list (Clock * LiveServerMessage)) (st : State) : State :=
  fold_left (fun s e => exec (onmessage decodeAudio (fst e) (snd e)) s) events st.


End Run.

(** *** Vocabulary of the statements about sequences of messages *)

(** Start times of segments played back to back from [start]. *)
Fixpoint back_to_back (start : Q) (durations : list Q) : list Q :=
  match durations with
  | [] => []
  | d :: rest => start :: back_to_back (start + d) rest
  end.

(** The message [e] carries a non-empty audio payload that decodes to
    [buffer], and signals no interruption. *)
Definition carries (decodeAudio : string -> option AudioBuffer)
  (e : Clock * LiveServerMessage) (buffer : AudioBuffer) : Prop :=
  exists payload,
    inbound_audio (snd e) = Some payload /\ payload <> EmptyString
    /\ decodeAudio payload = Some buffer /\ interruption (snd e) = false.

(** The fragments of a sequence of messages, one after the other in
    arrival order. *)
Fixpoint heard (which : LiveServerContent -> option Transcription)
  (events : list (Clock * LiveServerMessage)) : string :=
  match events with
  | [] => EmptyString
  | e :: rest =>
      accumulated EmptyString (chain (serverContent (snd e)) which) ++ heard which rest
  end.



(** [b] differs from [a] at most in the transcript, its two buffers and
    the playback state. *)
Definition same_resources (a b : State) : Prop :=
  isSessionActive b = isSessionActive a
  /\ error b = error a
  /\ sessionPromiseRef b = sessionPromiseRef a
  /\ mediaStreamRef b = mediaStreamRef a
  /\ audioContextRef b = audioContextRef a
  /\ scriptProcessorRef b = scriptProcessorRef a
  /\ mediaStreamSourceRef b = mediaStreamSourceRef a
  /\ outputAudioContextRef b = outputAudioContextRef a
  /\ outputNodeRef b = outputNodeRef a
  /\ liveTracks b = liveTracks a
  /\ openContexts b = openContexts a
  /\ sessions b = sessions a.

(** A message with a model turn that has no [parts]. *)
Definition partless_message (interrupted : bool) : LiveServerMessage :=
  {| serverContent := Some
       {| inputTranscription := None; outputTranscription := None; turnComplete := false;
          modelTurn := Some {| parts := None |}; interrupted := interrupted |} |}.

(** A message whose payload is no base64 text, with or without the
    interruption signal. *)
Definition undecodable_message (interrupted : bool) : LiveServerMessage :=
  {| serverContent := Some
       {| inputTranscription := None; outputTranscription := None; turnComplete := false;
          modelTurn := Some {| parts := Some [ {| inlineData := Some {| data := Some "*" |} |} ] |};
          interrupted := interrupted |} |}.


Definition said (who : Speaker) (fragment : string) : LiveServerMessage :=
  {| serverContent := Some
       {| inputTranscription :=
            match who with user => Some {| transcription_text := Some fragment |} | model => None end;
          outputTranscription :=
            match who with model => Some {| transcription_text := Some fragment |} | user => None end;
          turnComplete := false; modelTurn := None; interrupted := false |} |}.

End Dialogue.

(** ** Part II: properties *)

(** *** Discovery *)

Module DiscoveryFacts.
Import Js Discovery.

#[local] Arguments String.append !s1 s2 : simpl nomatch.

(** Strings as sequences. *)

Lemma append_assoc (a b c : string) : (a ++ b) ++ c = a ++ b ++ c.
Proof. induction a as [|x a IH]; simpl; [reflexivity | now rewrite IH]. Qed.

Lemma startsWith_iff (p s : string) :
  startsWith p s = true <-> exists r, s = p ++ r.
Proof.
  revert s. induction p as [|a p IH]; intros s; simpl.
  - split; [intros _; now exists s | reflexivity].
  - destruct s as [|b s]; simpl.
    + split; [discriminate | intros [r Hr]; discriminate].
    + rewrite andb_true_iff, Ascii.eqb_eq, IH. split.
      * intros [-> [r ->]]. now exists r.
      * intros [r Hr]. injection Hr as -> ->. split; [reflexivity | now exists r].
Qed.

Lemma includes_iff (s key : string) :
  includes s key = true <-> exists pre post, s = pre ++ key ++ post.
Proof.
  induction s as [|c s IH].
  - simpl. rewrite orb_false_r, startsWith_iff. split.
    + intros [r Hr]. now exists EmptyString, r.
    + intros [pre [post H]]. destruct pre; [now exists post | discriminate].
  - cbn [includes]. rewrite orb_true_iff, startsWith_iff, IH. split.
    + intros [[r Hr] | [pre [post H]]].
      * now exists EmptyString, r.
      * exists (String c pre), post. simpl. now rewrite H.
    + intros [pre [post H]]. destruct pre as [|x pre]; simpl in H.
      * left. now exists post.
      * right. injection H as _ H. now exists pre, post.
Qed.

Lemma toLowerCase_app (a b : string) :
  toLowerCase (a ++ b) = toLowerCase a ++ toLowerCase b.
Proof. induction a as [|x a IH]; simpl; [reflexivity | now rewrite IH]. Qed.

Lemma toLowerCase_split (s a b : string) :
  toLowerCase s = a ++ b ->
  exists a' b', s = a' ++ b' /\ toLowerCase a' = a /\ toLowerCase b' = b.
Proof.
  revert s. induction a as [|x a IH]; intros s H; simpl in H.
  - now exists EmptyString, s.
  - destruct s as [|c s]; [discriminate|]. simpl in H. injection H as Hx H.
    destruct (IH _ H) as [a' [b' [-> [Ha Hb]]]].
    exists (String c a'), b'. simpl. now rewrite Hx, Ha.
Qed.

(** The pattern against its reading as a decomposition of the text. *)

Lemma lazy_body_sound (s body : string) :
  lazy_body s = Some body -> exists post, s = body ++ fence_close ++ post.
Proof.
  revert body. induction s as [|c s IH]; intros body; cbn [lazy_body].
  - destruct (startsWith fence_close EmptyString) eqn:E; [|discriminate].
    discriminate E.
  - destruct (startsWith fence_close (String c s)) eqn:E.
    + intros [= <-]. apply startsWith_iff in E. exact E.
    + destruct (lazy_body s) as [b|]; [|discriminate].
      intros [= <-]. destruct (IH b eq_refl) as [post ->]. now exists post.
Qed.

Lemma lazy_body_complete (body post : string) :
  is_Some (lazy_body (body ++ fence_close ++ post)).
Proof.
  induction body as [|c body IH].
  - cbn [append]. destruct (fence_close ++ post) as [|c s] eqn:E; [discriminate E|].
    cbn [lazy_body]. rewrite <- E.
    replace (startsWith fence_close (fence_close ++ post)) with true; [eauto|].
    symmetry. apply startsWith_iff. now exists post.
  - cbn [append lazy_body]. destruct (startsWith _ _); [eauto|].
    destruct IH as [b ->]. simpl. eauto.
Qed.

Lemma drop_app (p r : string) : drop (String.length p) (p ++ r) = r.
Proof. induction p; simpl; auto. Qed.

Lemma match_here_sound (s body : string) :
  match_here s = Some body -> exists post, s = fence_open ++ body ++ fence_close ++ post.
Proof.
  unfold match_here. destruct (startsWith fence_open s) eqn:E; [|discriminate].
  apply startsWith_iff in E. destruct E as [r ->]. rewrite drop_app.
  intros H. apply lazy_body_sound in H. destruct H as [post ->]. now exists post.
Qed.

Lemma match_json_fence_sound (s body : string) :
  match_json_fence s = Some body -> fenced s body.
Proof.
  induction s as [|c s IH]; cbn [match_json_fence].
  - destruct (match_here EmptyString) eqn:E; [|discriminate]. intros [= ->].
    apply match_here_sound in E. destruct E as [post E]. now exists EmptyString, post.
  - destruct (match_here (String c s)) eqn:E.
    + intros [= ->]. apply match_here_sound in E. destruct E as [post E].
      now exists EmptyString, post.
    + intros H. destruct (IH H) as [pre [post ->]]. now exists (String c pre), post.
Qed.

Lemma match_json_fence_complete (s body : string) :
  fenced s body -> is_Some (match_json_fence s).
Proof.
  intros [pre [post ->]]. induction pre as [|c pre IH].
  - cbn [append].
    assert (E : is_Some (match_here (fence_open ++ body ++ fence_close ++ post))).
    { unfold match_here.
      replace (startsWith fence_open _) with true
        by (symmetry; apply startsWith_iff; eauto).
      rewrite drop_app. apply lazy_body_complete. }
    destruct E as [b E].
    destruct (fence_open ++ body ++ fence_close ++ post); cbn [match_json_fence];
      rewrite E; eauto.
  - cbn [append match_json_fence]. destruct (match_here _); eauto.
Qed.

Lemma match_json_fence_None (s : string) :
  match_json_fence s = None <-> forall body, ~ fenced s body.
Proof.
  split.
  - intros H body Hf. apply match_json_fence_complete in Hf.
    rewrite H in Hf. destruct Hf; discriminate.
  - intros H. destruct (match_json_fence s) as [b|] eqn:E; [|reflexivity].
    exfalso. exact (H b (match_json_fence_sound _ _ E)).
Qed.

(** The gateway. *)

Section Gateway.

Variable JSON_parse : string -> option JSON.

Lemma parse_places_throws (text : option string) :
  no_fence text \/ unparsable JSON_parse text ->
  exists e, parse_places JSON_parse text = Throw e.
Proof.
  intros [H | [s [body [-> [Hm Hp]]]]].
  - destruct text as [s|]; simpl; [|eauto].
    assert (E : match_json_fence s = None).
    { apply match_json_fence_None. intros body. now apply H. }
    rewrite E. eauto.
  - simpl. rewrite Hm. destruct body; [eauto|]. rewrite Hp. eauto.
Qed.

Lemma parse_places_value (t body : string) (v : JSON) :
  JSON_parse EmptyString = None ->
  match_json_fence t = Some body -> JSON_parse body = Some v ->
  parse_places JSON_parse (Some t) = Ok v.
Proof.
  intros H0 Hm Hp. simpl. rewrite Hm. destruct body; [congruence|]. now rewrite Hp.
Qed.

End Gateway.

(** The illustration of a category. *)

Lemma included_iff (c key : string) :
  includes (toLowerCase c) key = true <-> occurs_ignoring_case key c.
Proof.
  rewrite includes_iff. split.
  - intros [pre [post H]]. apply toLowerCase_split in H.
    destruct H as [a [r [-> [_ H]]]]. apply toLowerCase_split in H.
    destruct H as [m [b [-> [Hm _]]]]. now exists a, m, b.
  - intros [pre [mid [post [-> <-]]]].
    exists (toLowerCase pre), (toLowerCase post). now rewrite !toLowerCase_app.
Qed.

Lemma categoryLower_nonempty (c : ascii) (s : string) :
  or_default (option_map toLowerCase (Some (String c s))) "other" = toLowerCase (String c s).
Proof. reflexivity. Qed.

Lemma getCategoryImage_chosen (c : string) : chosen_for c (getCategoryImage (Some c)).
Proof.
  destruct c as [|x c].
  - right. split; [|reflexivity].
    intros term Hin [pre [mid [post [E <-]]]].
    destruct pre; [|discriminate]. destruct mid; [|discriminate].
    simpl in Hin. intuition discriminate.
  - unfold getCategoryImage. cbv zeta. rewrite categoryLower_nonempty.
    set (l := toLowerCase (String x c)).
    unfold categories. cbn [first_included].
    destruct (includes l "nature") eqn:E1.
    { left. exists "nature". apply included_iff in E1. simpl. auto 10. }
    destruct (includes l "architecture") eqn:E2.
    { left. exists "architecture". apply included_iff in E2. simpl. auto 10. }
    destruct (includes l "history") eqn:E3.
    { left. exists "history". apply included_iff in E3. simpl. auto 10. }
    destruct (includes l "food") eqn:E4.
    { left. exists "food". apply included_iff in E4. simpl. auto 10. }
    destruct (includes l "art") eqn:E5.
    { left. exists "art". apply included_iff in E5. simpl. auto 10. }
    right. split.
    + intros term Hin Hocc. apply included_iff in Hocc. fold l in Hocc.
      simpl in Hin. destruct Hin as [<-|[<-|[<-|[<-|[<-|[]]]]]]; congruence.
    + destruct (includes l "other"); reflexivity.
Qed.

Lemma chosen_nonempty (c url : string) : chosen_for c url -> url <> EmptyString.
Proof.
  intros [[term [_ [_ Hin]]] | [_ ->]]; [|discriminate].
  simpl in Hin. destruct Hin as [H|[H|[H|[H|[H|[H|[]]]]]]]; injection H as _ <-; discriminate.
Qed.

(** Properties of parsed objects. *)

Lemma get_set_prop_same (k : string) (v : JSON) (props : list (string * JSON)) :
  get_prop k (set_prop k v props) = Some v.
Proof.
  induction props as [|[k' v'] props IH]; simpl.
  - now rewrite String.eqb_refl.
  - destruct (String.eqb k k') eqn:E; simpl; rewrite ?String.eqb_refl, ?E; auto.
Qed.

Lemma get_set_prop_other (k k0 : string) (v : JSON) (props : list (string * JSON)) :
  k0 <> k -> get_prop k0 (set_prop k v props) = get_prop k0 props.
Proof.
  intros Hne. induction props as [|[k' v'] props IH]; simpl.
  - apply String.eqb_neq in Hne. now rewrite Hne.
  - destruct (String.eqb k k') eqn:E; simpl.
    + apply String.eqb_eq in E. subst k'. apply String.eqb_neq in Hne. now rewrite Hne.
    + now rewrite IH.
Qed.

Lemma decorate_record (place : JSON) (p : PlaceInfo) :
  as_PlaceInfo place = Some p ->
  exists shown, decorate place = Ok shown /\ card_of place shown.
Proof.
  intros H. destruct place as [| | | | |props]; try discriminate.
  pose proof H as H'. unfold as_PlaceInfo in H.
  destruct (get_prop "name" props) as [[| | |n| |]|] eqn:En; try discriminate.
  destruct (get_prop "description" props) as [[| | |d| |]|] eqn:Ed; try discriminate.
  destruct (get_prop "oneLiner" props) as [[| | |o| |]|] eqn:Eo; try discriminate.
  destruct (get_prop "category" props) as [[| | |c| |]|] eqn:Ec; try discriminate.
  injection H as <-.
  eexists. split.
  - unfold decorate, place_category. simpl. rewrite Ec. simpl. reflexivity.
  - eexists _, _. split; [exact H'|]. split.
    + unfold as_PlaceInfo. cbn [spread].
      rewrite !get_set_prop_other by discriminate.
      rewrite En, Ed, Eo, Ec, get_set_prop_same. reflexivity.
    + cbn [name description oneLiner category imageUrl].
      repeat split. eexists. split; [reflexivity|].
      pose proof (getCategoryImage_chosen c) as Hc.
      split; [exact (chosen_nonempty _ _ Hc) | exact Hc].
Qed.

Lemma map_decorate_records (items : list JSON) :
  Forall (fun place => is_Some (as_PlaceInfo place)) items ->
  exists shown, map_result decorate items = Ok shown /\ Forall2 card_of items shown.
Proof.
  induction 1 as [|place items [p Hp] _ [shown [E F]]].
  - exists []. split; [reflexivity | constructor].
  - destruct (decorate_record _ _ Hp) as [d [Ed Hd]].
    exists (d :: shown). split.
    + cbn [map_result]. rewrite Ed, E. reflexivity.
    + now constructor.
Qed.

(** C4.  When the response text has no fenced block, or the fenced content
    the pattern captures is rejected by the parser, [getNearbyPlaces] throws
    the one format error (and nothing else), and [handleFetchPlaces] ends
    with no places and that message as its error. *)
Theorem getNearbyPlaces_format_error
  (JSON_parse : string -> option JSON) (response : GenerateContentResponse) :
  no_fence (text response) \/ unparsable JSON_parse (text response) ->
  getNearbyPlaces JSON_parse (Ok response) = Throw (Error format_error)
  /\ forall v, places (handleFetchPlaces JSON_parse (Ok response) v) = None
               /\ error (handleFetchPlaces JSON_parse (Ok response) v) = Some format_error.
Proof.
  intros H. destruct (parse_places_throws JSON_parse _ H) as [e He].
  assert (G : getNearbyPlaces JSON_parse (Ok response) = Throw (Error format_error)).
  { unfold getNearbyPlaces. now rewrite He. }
  split; [exact G|]. intros v. unfold handleFetchPlaces. rewrite G. split; reflexivity.
Qed.

Lemma getNearbyPlaces_format_error_witness :
  getNearbyPlaces sample_parse (Ok {| text := Some "Sorry, no places."; groundingChunks := None |})
    = Throw (Error format_error)
  /\ getNearbyPlaces sample_parse (Ok (fenced_response "[oops")) = Throw (Error format_error).
Proof.
  split.
  - apply (getNearbyPlaces_format_error sample_parse
             {| text := Some "Sorry, no places."; groundingChunks := None |}).
    left. intros s body [= <-]. apply match_json_fence_None. vm_compute. reflexivity.
  - apply (getNearbyPlaces_format_error sample_parse (fenced_response "[oops")).
    right. exists (fenced_text "[oops"), "[oops". vm_compute. repeat split; reflexivity.
Defined.

(** C10.  Whatever value the parser returns for the captured content is
    handed back as [places] as it is, next to the sources collected from
    the grounding chunks: no property of it is inspected. *)
Theorem getNearbyPlaces_returns_parsed_value
  (JSON_parse : string -> option JSON) (response : GenerateContentResponse)
  (t body : string) (v : JSON) :
  JSON_parse EmptyString = None ->
  text response = Some t ->
  match_json_fence t = Some body ->
  JSON_parse body = Some v ->
  getNearbyPlaces JSON_parse (Ok response)
  = Ok (v, flat_map chunk_sources (default [] (groundingChunks response))).
Proof.
  intros H0 Ht Hm Hp. unfold getNearbyPlaces. rewrite Ht.
  now rewrite (parse_places_value JSON_parse t body v H0 Hm Hp).
Qed.

Lemma getNearbyPlaces_returns_parsed_value_witness :
  getNearbyPlaces sample_parse (Ok (fenced_response "{}")) = Ok (JObj [], [])
  /\ getNearbyPlaces sample_parse (Ok (fenced_response strings_text)) = Ok (JArr [JStr "x"], []).
Proof.
  split.
  - apply (getNearbyPlaces_returns_parsed_value sample_parse (fenced_response "{}")
             (fenced_text "{}") "{}" (JObj [])); reflexivity.
  - apply (getNearbyPlaces_returns_parsed_value sample_parse (fenced_response strings_text)
             (fenced_text strings_text) strings_text (JArr [JStr "x"])); reflexivity.
Defined.

(** C5.  When the captured content parses to an array of [N] place records,
    [handleFetchPlaces] ends with exactly [N] cards and no error; card [i]
    keeps the four fields of record [i] and carries a non-empty
    illustration, which is the illustration of a vocabulary term occurring
    in the category when case is ignored, or the generic one when no term
    occurs. *)
Theorem handleFetchPlaces_decorates
  (JSON_parse : string -> option JSON) (response : GenerateContentResponse)
  (t body : string) (items : list JSON) (v : DiscoverView) :
  JSON_parse EmptyString = None ->
  text response = Some t ->
  match_json_fence t = Some body ->
  JSON_parse body = Some (JArr items) ->
  Forall (fun place => is_Some (as_PlaceInfo place)) items ->
  exists shown,
    places (handleFetchPlaces JSON_parse (Ok response) v) = Some shown
    /\ error (handleFetchPlaces JSON_parse (Ok response) v) = None
    /\ length shown = length items
    /\ Forall2 card_of items shown.
Proof.
  intros H0 Ht Hm Hp Hrec.
  destruct (map_decorate_records items Hrec) as [shown [E F]].
  exists shown. unfold handleFetchPlaces.
  rewrite (getNearbyPlaces_returns_parsed_value JSON_parse response t body _ H0 Ht Hm Hp).
  cbn [array_map]. rewrite E. cbn.
  repeat split; [|exact F]. symmetry. exact (Forall2_length _ _ _ F).
Qed.

Lemma handleFetchPlaces_decorates_witness :
  exists shown,
    places (handleFetchPlaces sample_parse (Ok (fenced_response places_text)) initialView)
    = Some shown
    /\ error (handleFetchPlaces sample_parse (Ok (fenced_response places_text)) initialView)
       = None
    /\ length shown = 2%nat
    /\ Forall2 card_of [sample_record "Lookout" "Nature"; sample_record "Alley" "Street ART"] shown.
Proof.
  apply (handleFetchPlaces_decorates sample_parse (fenced_response places_text)
           (fenced_text places_text) places_text
           [sample_record "Lookout" "Nature"; sample_record "Alley" "Street ART"] initialView);
    try reflexivity.
  repeat constructor; vm_compute; eauto.
Defined.

End DiscoveryFacts.

(** *** The live conversation *)

Module ConversationFacts.
Import Js Conversation.
Local Open Scope js_scope.

#[local] Set Warnings "-clear-no-such-hyp".

(** Running the monad. *)

Lemma bind_run {A B : Type} (m : M A) (k : A -> M B) (st st1 : State) (a : A) :
  m st = (Ok a, st1) -> bind m k st = k a st1.
Proof. intros E. unfold bind. now rewrite E. Qed.

Lemma bind_modify {B : Type} (f : State -> State) (k : unit -> M B) (st : State) :
  bind (modify f) k st = k tt (f st).
Proof. reflexivity. Qed.

Lemma bind_gets {A B : Type} (f : State -> A) (k : A -> M B) (st : State) :
  bind (gets f) k st = k (f st) st.
Proof. reflexivity. Qed.

Lemma bind_inv {A B : Type} (m : M A) (k : A -> M B) (st st' : State) (b : B) :
  bind m k st = (Ok b, st') -> exists a st1, m st = (Ok a, st1) /\ k a st1 = (Ok b, st').
Proof.
  unfold bind. destruct (m st) as [[a|e] st1]; [eauto | discriminate].
Qed.

Lemma if_ref_None {A : Type} (ref : State -> option A) (body : A -> M unit) (st : State) :
  ref st = None -> if_ref ref body st = (Ok tt, st).
Proof. intros E. unfold if_ref. rewrite bind_gets, E. reflexivity. Qed.

Lemma if_ref_Some {A : Type} (ref : State -> option A) (body : A -> M unit) (st : State) (a : A) :
  ref st = Some a -> if_ref ref body st = body a st.
Proof. intros E. unfold if_ref. rewrite bind_gets, E. reflexivity. Qed.

(** The statements of [cleanup], one by one. *)

Lemma disconnect_scriptProcessor_run (st : State) :
  exists X,
    if_ref scriptProcessorRef (fun scriptProcessor =>
      node_disconnect scriptProcessor ;; modify (set_scriptProcessorRef None)) st
    = (Ok tt, set_scriptProcessorRef None (set_connected X st)).
Proof.
  destruct (scriptProcessorRef st) as [n|] eqn:E.
  - rewrite (if_ref_Some _ _ _ _ E). eexists. reflexivity.
  - rewrite (if_ref_None _ _ _ E). exists (connected st).
    destruct st; cbn in E; subst; reflexivity.
Qed.

Lemma disconnect_mediaStreamSource_run (st : State) :
  exists X,
    if_ref mediaStreamSourceRef (fun mediaStreamSource =>
      node_disconnect mediaStreamSource ;; modify (set_mediaStreamSourceRef None)) st
    = (Ok tt, set_mediaStreamSourceRef None (set_connected X st)).
Proof.
  destruct (mediaStreamSourceRef st) as [n|] eqn:E.
  - rewrite (if_ref_Some _ _ _ _ E). eexists. reflexivity.
  - rewrite (if_ref_None _ _ _ E). exists (connected st).
    destruct st; cbn in E; subst; reflexivity.
Qed.

Lemma close_opened (c : nat) (st : State) (k : M unit) :
  c ∈ openContexts st ->
  (closed <- context_closed c ;; when (negb closed) (context_close c ;; k)) st
  = k (set_openContexts (openContexts st ∖ {[c]}) st).
Proof.
  intros Hin. unfold context_close, context_closed. rewrite bind_gets.
  rewrite bool_decide_eq_false_2 by (intros H; exact (H Hin)).
  cbn [negb when]. unfold bind at 1. rewrite bind_gets.
  rewrite bool_decide_eq_false_2 by (intros H; exact (H Hin)).
  reflexivity.
Qed.

Lemma close_closed (c : nat) (st : State) (k : M unit) :
  c ∉ openContexts st ->
  (closed <- context_closed c ;; when (negb closed) (context_close c ;; k)) st = (Ok tt, st).
Proof.
  intros Hin. unfold context_closed. rewrite bind_gets.
  rewrite bool_decide_eq_true_2 by exact Hin. reflexivity.
Qed.

Lemma close_audioContext_run (st : State) :
  exists r X,
    if_ref audioContextRef (fun audioContext =>
      closed <- context_closed audioContext ;;
      when (negb closed) (context_close audioContext ;; modify (set_audioContextRef None))) st
    = (Ok tt, set_audioContextRef r (set_openContexts X st))
    /\ X ⊆ openContexts st
    /\ (forall c, audioContextRef st = Some c \/ r = Some c -> c ∉ X).
Proof.
  destruct (audioContextRef st) as [c|] eqn:E.
  - rewrite (if_ref_Some _ _ _ _ E).
    destruct (decide (c ∈ openContexts st)) as [Hin|Hout].
    + rewrite (close_opened _ _ _ Hin). exists None, (openContexts st ∖ {[c]}).
      split; [reflexivity|]. split; [set_solver|]. intros c' [H|H]; [|discriminate H]. injection H as <-. set_solver.
    + rewrite (close_closed _ _ _ Hout). exists (Some c), (openContexts st).
      split; [destruct st; cbn in E; subst; reflexivity|].
      split; [set_solver|]. intros c' [H|H]; injection H as <-; exact Hout.
  - rewrite (if_ref_None _ _ _ E). exists None, (openContexts st).
    split; [destruct st; cbn in E; subst; reflexivity|].
    split; [set_solver|]. intros c' [H|H]; discriminate H.
Qed.

Lemma close_outputAudioContext_run (st : State) :
  exists r X,
    if_ref outputAudioContextRef (fun outputAudioContext =>
      closed <- context_closed outputAudioContext ;;
      when (negb closed)
        (context_close outputAudioContext ;; modify (set_outputAudioContextRef None))) st
    = (Ok tt, set_outputAudioContextRef r (set_openContexts X st))
    /\ X ⊆ openContexts st
    /\ (forall c, outputAudioContextRef st = Some c \/ r = Some c -> c ∉ X).
Proof.
  destruct (outputAudioContextRef st) as [c|] eqn:E.
  - rewrite (if_ref_Some _ _ _ _ E).
    destruct (decide (c ∈ openContexts st)) as [Hin|Hout].
    + rewrite (close_opened _ _ _ Hin). exists None, (openContexts st ∖ {[c]}).
      split; [reflexivity|]. split; [set_solver|]. intros c' [H|H]; [|discriminate H]. injection H as <-. set_solver.
    + rewrite (close_closed _ _ _ Hout). exists (Some c), (openContexts st).
      split; [destruct st; cbn in E; subst; reflexivity|].
      split; [set_solver|]. intros c' [H|H]; injection H as <-; exact Hout.
  - rewrite (if_ref_None _ _ _ E). exists None, (openContexts st).
    split; [destruct st; cbn in E; subst; reflexivity|].
    split; [set_solver|]. intros c' [H|H]; discriminate H.
Qed.

Lemma stop_mediaStream_run (st : State) :
  exists X,
    if_ref mediaStreamRef (fun mediaStream =>
      stop_all_tracks mediaStream ;; modify (set_mediaStreamRef None)) st
    = (Ok tt, set_mediaStreamRef None (set_liveTracks X st))
    /\ X ⊆ liveTracks st
    /\ (forall stream t, mediaStreamRef st = Some stream -> In t (tracks stream) -> t ∉ X).
Proof.
  destruct (mediaStreamRef st) as [stream|] eqn:E.
  - rewrite (if_ref_Some _ _ _ _ E). eexists. split; [reflexivity|].
    split; [set_solver|]. intros s t H Hin. injection H as <-. apply list_elem_of_In in Hin. set_solver.
  - rewrite (if_ref_None _ _ _ E). exists (liveTracks st).
    split; [destruct st; cbn in E; subst; reflexivity|]. split; [set_solver|]. intros s t H. discriminate H.
Qed.

(** [cleanup] returns, releases what the refs hold, and leaves the rest of
    the component as it was. *)
Lemma cleanup_run (st : State) :
  exists st',
    cleanup st = (Ok tt, st')
    /\ released st st'
    /\ isSessionActive st' = isSessionActive st
    /\ sessionPromiseRef st' = sessionPromiseRef st
    /\ error st' = error st
    /\ transcripts st' = transcripts st
    /\ sessions st' = sessions st.
Proof.
  unfold cleanup, stop_all_sources. rewrite !bind_modify.
  set (st1 := set_sourcesRef ∅ _).
  destruct (disconnect_scriptProcessor_run st1) as [X2 E2].
  rewrite (bind_run _ _ _ _ _ E2). set (st2 := set_scriptProcessorRef None _).
  destruct (disconnect_mediaStreamSource_run st2) as [X3 E3].
  rewrite (bind_run _ _ _ _ _ E3). set (st3 := set_mediaStreamSourceRef None _).
  destruct (close_audioContext_run st3) as [r4 [X4 [E4 [S4 C4]]]].
  rewrite (bind_run _ _ _ _ _ E4). set (st4 := set_audioContextRef r4 _).
  destruct (close_outputAudioContext_run st4) as [r5 [X5 [E5 [S5 C5]]]].
  rewrite (bind_run _ _ _ _ _ E5). set (st5 := set_outputAudioContextRef r5 _).
  destruct (stop_mediaStream_run st5) as [X6 [E6 [S6 C6]]].
  rewrite E6. eexists. split; [reflexivity|].
  cbn in S4, C4, S5, C5, S6, C6.
  split; [|repeat split; reflexivity].
  unfold released. cbn. repeat split; try reflexivity.
  - set_solver.
  - exact C6.
  - intros c [H|[H|[H|H]]].
    + intros Hin. apply (C4 c); [now left | set_solver].
    + apply C5. now left.
    + intros Hin. apply (C4 c); [now right | set_solver].
    + apply C5. now right.
  - exact S6.
  - set_solver.
Qed.



Lemma close_session_run (s : nat) (settled : Settled) (fault : option exn) (st : State) :
  exists X, close_session s settled fault st
            = (Ok tt, set_sessionPromiseRef None (set_sessions X st)).
Proof.
  unfold close_session, try_finally, try_catch, await_session, session_close.
  destruct settled as [|e], fault as [e'|]; cbn; eexists; try reflexivity.
  all: instantiate (1 := sessions st); destruct st; reflexivity.
Qed.

Lemma released_before (a b after : State) :
  sourcesRef a = sourcesRef b -> mediaStreamRef a = mediaStreamRef b ->
  audioContextRef a = audioContextRef b -> outputAudioContextRef a = outputAudioContextRef b ->
  liveTracks a = liveTracks b -> openContexts a = openContexts b ->
  released a after -> released b after.
Proof.
  unfold released. intros -> -> -> -> -> ->. exact (fun H => H).
Qed.

(** [stopConversation] from any state. *)
Lemma stopConversation_run (settled : Settled) (fault : option exn) (st : State) :
  exists st',
    stopConversation settled fault st = (Ok tt, st')
    /\ isSessionActive st' = false
    /\ sessionPromiseRef st' = None
    /\ error st' = error st
    /\ released st st'.
Proof.
  unfold stopConversation. rewrite bind_modify.
  set (st1 := set_isSessionActive false st).
  assert (E : exists X, if_ref sessionPromiseRef (fun s => close_session s settled fault) st1
                        = (Ok tt, set_sessionPromiseRef None (set_sessions X st1))).
  { destruct (sessionPromiseRef st1) as [s|] eqn:E.
    - rewrite (if_ref_Some _ _ _ _ E). apply close_session_run.
    - rewrite (if_ref_None _ _ _ E). exists (sessions st1).
      destruct st; cbn in E; subst; reflexivity. }
  destruct E as [X E]. rewrite (bind_run _ _ _ _ _ E).
  destruct (cleanup_run (set_sessionPromiseRef None (set_sessions X st1)))
    as [st' [Ec [Hr [Ha [Hp [He _]]]]]].
  exists st'. split; [exact Ec|]. split; [exact Ha|]. split; [exact Hp|]. split; [exact He|].
  revert Hr. apply released_before; reflexivity.
Qed.


(** The statements of [onmessage]. *)

Lemma append_input_run (t : option Transcription) (st : State) :
  append_fragment t currentInputTranscriptionRef set_currentInputTranscriptionRef st
  = (Ok tt, set_currentInputTranscriptionRef (accumulated (currentInputTranscriptionRef st) t) st).
Proof. destruct t; [reflexivity|]. destruct st; reflexivity. Qed.

Lemma append_output_run (t : option Transcription) (st : State) :
  append_fragment t currentOutputTranscriptionRef set_currentOutputTranscriptionRef st
  = (Ok tt, set_currentOutputTranscriptionRef (accumulated (currentOutputTranscriptionRef st) t) st).
Proof. destruct t; [reflexivity|]. destruct st; reflexivity. Qed.

Lemma flush_turn_run (clock : Clock) (st : State) :
  flush_turn clock st
  = (Ok tt,
     set_currentOutputTranscriptionRef EmptyString
       (set_currentInputTranscriptionRef EmptyString
          (set_transcripts
             (transcripts st
              ++ entry (dateNow_user clock) user (currentInputTranscriptionRef st)
              ++ entry (dateNow_model clock + 1) model (currentOutputTranscriptionRef st)) st))).
Proof. reflexivity. Qed.

Lemma entries_by_cases (clock : Clock) (input output : string) :
  (entry (dateNow_user clock) user input ++ entry (dateNow_model clock + 1) model output)%list
  = turn_entries clock input output.
Proof. destruct input, output; reflexivity. Qed.

Lemma first_audio_state (message : LiveServerMessage) (st : State) :
  snd (first_audio message st) = st.
Proof.
  unfold first_audio. destruct (chain (serverContent message) modelTurn) as [turn|]; [|reflexivity].
  destruct (parts turn); reflexivity.
Qed.

Lemma first_audio_run (message : LiveServerMessage) (payload : string) (st : State) :
  inbound_audio message = Some payload -> first_audio message st = (Ok (Some payload), st).
Proof.
  unfold inbound_audio, first_audio.
  destruct (chain (serverContent message) modelTurn) as [turn|]; [|discriminate].
  cbn [chain]. destruct (parts turn) as [ps|]; [|discriminate].
  cbn [chain]. intros ->. reflexivity.
Qed.

Lemma interrupt_run (st : State) :
  interrupt st
  = (Ok tt, set_nextStartTimeRef 0
              (set_sourcesRef ∅ (set_stoppedSources (stoppedSources st ∪ sourcesRef st) st))).
Proof. reflexivity. Qed.

Lemma transcript_run (clock : Clock) (message : LiveServerMessage) (st : State) :
  exists st',
    onmessage_transcript clock message st = (Ok tt, st')
    /\ (if turn_completion message
        then transcripts st'
             = (transcripts st
                ++ turn_entries clock
                     (accumulated (currentInputTranscriptionRef st)
                        (chain (serverContent message) inputTranscription))
                     (accumulated (currentOutputTranscriptionRef st)
                        (chain (serverContent message) outputTranscription)))%list
             /\ currentInputTranscriptionRef st' = EmptyString
             /\ currentOutputTranscriptionRef st' = EmptyString
        else transcripts st' = transcripts st)
    /\ outputAudioContextRef st' = outputAudioContextRef st
    /\ outputNodeRef st' = outputNodeRef st
    /\ sourcesRef st' = sourcesRef st
    /\ stoppedSources st' = stoppedSources st
    /\ nextStartTimeRef st' = nextStartTimeRef st
    /\ startLog st' = startLog st
    /\ nextHandle st' = nextHandle st.
Proof.
  unfold onmessage_transcript.
  rewrite (bind_run _ _ _ _ _ (append_input_run _ _)).
  rewrite (bind_run _ _ _ _ _ (append_output_run _ _)).
  destruct (turn_completion message); cbn [when].
  - rewrite flush_turn_run. eexists. split; [reflexivity|]. cbn.
    rewrite entries_by_cases. repeat split; reflexivity.
  - eexists. split; [reflexivity|]. cbn. repeat split; reflexivity.
Qed.

(** Exact rationals: [Math.max] returns one of its arguments. *)

Lemma Qmax_left (x y : Q) : (y <= x)%Q -> Qmax x y = x.
Proof.
  intros H. unfold Qmax, GenericMinMax.gmax. destruct (x ?= y)%Q eqn:E; try reflexivity.
  apply Qlt_alt in E. exfalso. exact (Qle_not_lt _ _ H E).
Qed.

Lemma Qmax_ge_left (x y : Q) : (x <= Qmax x y)%Q.
Proof. apply Q.le_max_l. Qed.

Lemma Qmax_ge_right (x y : Q) : (y <= Qmax x y)%Q.
Proof. apply Q.le_max_r. Qed.

Lemma duration_nonneg (b : AudioBuffer) : (0 <= duration b)%Q.
Proof. unfold duration, Qle. cbn. lia. Qed.

Section Callbacks.

Variable decodeAudio : string -> option AudioBuffer.

(** A segment is scheduled: what the audio branch does to the playback
    state. *)
Lemma schedule_audio_run (clock : Clock) (payload : string) (buffer : AudioBuffer)
  (st : State) :
  payload <> EmptyString ->
  is_Some (outputAudioContextRef st) -> is_Some (outputNodeRef st) ->
  decodeAudio payload = Some buffer ->
  exists st',
    schedule_audio decodeAudio clock (Some payload) st = (Ok tt, st')
    /\ startLog st' = (nextHandle st, Qmax (nextStartTimeRef st) (currentTime clock)) :: startLog st
    /\ nextStartTimeRef st' = (Qmax (nextStartTimeRef st) (currentTime clock) + duration buffer)%Q
    /\ sourcesRef st' = sourcesRef st ∪ {[nextHandle st]}
    /\ stoppedSources st' = stoppedSources st
    /\ nextHandle st' = S (nextHandle st)
    /\ outputAudioContextRef st' = outputAudioContextRef st
    /\ outputNodeRef st' = outputNodeRef st.
Proof.
  intros Hne [ctx Hc] [node Hn] Hd. destruct payload as [|c rest]; [congruence|].
  unfold schedule_audio. rewrite !bind_gets, Hc, Hn, bind_modify, Hd.
  eexists. split; [reflexivity|]. cbn -[Qmax Qplus]. now rewrite Hc, Hn.
Qed.

(** The audio branch leaves the transcript and its buffers alone, whether
    it schedules, skips or throws; it only adds to the scheduled set. *)
Lemma schedule_audio_frame (clock : Clock) (base64Audio : option string) (st : State) :
  let st' := snd (schedule_audio decodeAudio clock base64Audio st) in
  transcripts st' = transcripts st
  /\ currentInputTranscriptionRef st' = currentInputTranscriptionRef st
  /\ currentOutputTranscriptionRef st' = currentOutputTranscriptionRef st
  /\ stoppedSources st' = stoppedSources st
  /\ sourcesRef st ⊆ sourcesRef st'.
Proof.
  unfold schedule_audio. rewrite !bind_gets.
  destruct base64Audio as [[|c rest]|], (outputAudioContextRef st), (outputNodeRef st);
    try (cbn; repeat split; reflexivity).
  rewrite bind_modify. destruct (decodeAudio (String c rest));
    cbn -[Qmax Qplus]; repeat split; try reflexivity. set_solver.
Qed.

Lemma playback_frame (clock : Clock) (message : LiveServerMessage) (st : State) :
  let st' := snd (onmessage_playback decodeAudio clock message st) in
  transcripts st' = transcripts st
  /\ currentInputTranscriptionRef st' = currentInputTranscriptionRef st
  /\ currentOutputTranscriptionRef st' = currentOutputTranscriptionRef st.
Proof.
  unfold onmessage_playback, bind.
  pose proof (first_audio_state message st) as E1.
  destruct (first_audio message st) as [[b|e] st1]; cbn in E1; subst st1; [|now cbn].
  pose proof (schedule_audio_frame clock b st) as E2.
  destruct (schedule_audio decodeAudio clock b st) as [[[]|e] st2]; cbn in E2;
    destruct E2 as (T & I & O & _); [|now cbn].
  destruct (interruption message); cbn; auto.
Qed.

(** A message that carries audio, handled while the output context and
    the output node exist. *)
Lemma onmessage_audio_run (clock : Clock) (message : LiveServerMessage)
  (payload : string) (buffer : AudioBuffer) (st : State) :
  inbound_audio message = Some payload -> payload <> EmptyString ->
  decodeAudio payload = Some buffer ->
  is_Some (outputAudioContextRef st) -> is_Some (outputNodeRef st) ->
  exists st',
    onmessage decodeAudio clock message st = (Ok tt, st')
    /\ startLog st' = (nextHandle st, Qmax (nextStartTimeRef st) (currentTime clock)) :: startLog st
    /\ nextHandle st' = S (nextHandle st)
    /\ outputAudioContextRef st' = outputAudioContextRef st
    /\ outputNodeRef st' = outputNodeRef st
    /\ (if interruption message
        then nextStartTimeRef st' = 0%Q /\ sourcesRef st' = ∅
             /\ stoppedSources st' = stoppedSources st ∪ (sourcesRef st ∪ {[nextHandle st]})
        else nextStartTimeRef st'
             = (Qmax (nextStartTimeRef st) (currentTime clock) + duration buffer)%Q
             /\ sourcesRef st' = sourcesRef st ∪ {[nextHandle st]}
             /\ stoppedSources st' = stoppedSources st).
Proof.
  intros Ha Hne Hd Hc Hn. unfold onmessage.
  destruct (transcript_run clock message st)
    as (st1 & E1 & _ & Hc1 & Hn1 & Hs1 & Hp1 & Ht1 & Hl1 & Hh1).
  rewrite (bind_run _ _ _ _ _ E1). unfold onmessage_playback.
  rewrite (bind_run _ _ _ _ _ (first_audio_run _ _ _ Ha)).
  rewrite <- Hc1 in Hc. rewrite <- Hn1 in Hn.
  destruct (schedule_audio_run clock payload buffer st1 Hne Hc Hn Hd)
    as (st2 & E2 & Hl2 & Ht2 & Hs2 & Hp2 & Hh2 & Hc2 & Hn2).
  rewrite (bind_run _ _ _ _ _ E2).
  rewrite Hl1, Ht1, Hh1 in Hl2. rewrite Ht1 in Ht2. rewrite Hs1, Hh1 in Hs2.
  rewrite Hp1 in Hp2. rewrite Hh1 in Hh2. rewrite Hc1 in Hc2. rewrite Hn1 in Hn2.
  destruct (interruption message); cbn [when].
  - rewrite interrupt_run. eexists. split; [reflexivity|]. cbn.
    rewrite Hl2, Hh2, Hc2, Hn2, Hp2, Hs2. repeat split; reflexivity.
  - eexists. split; [reflexivity|]. repeat split; assumption.
Qed.

(** An interruption handled to its end. *)
Lemma onmessage_interrupted_run (clock : Clock) (message : LiveServerMessage) (st : State) :
  interruption message = true ->
  fst (onmessage decodeAudio clock message st) = Ok tt ->
  sourcesRef (exec (onmessage decodeAudio clock message) st) = ∅
  /\ nextStartTimeRef (exec (onmessage decodeAudio clock message) st) = 0%Q
  /\ sourcesRef st ⊆ stoppedSources (exec (onmessage decodeAudio clock message) st).
Proof.
  intros Hi Hok. unfold exec.
  destruct (onmessage decodeAudio clock message st) as [r st'] eqn:E.
  cbn in Hok. subst r. cbn [snd]. unfold onmessage in E.
  destruct (transcript_run clock message st)
    as (st1 & E1 & _ & _ & _ & Hs1 & _).
  rewrite (bind_run _ _ _ _ _ E1) in E. unfold onmessage_playback in E.
  apply bind_inv in E. destruct E as (b & st1' & Ef & E).
  pose proof (first_audio_state message st1) as Hst. rewrite Ef in Hst. cbn in Hst. subst st1'.
  apply bind_inv in E. destruct E as ([] & st2 & Es & E).
  pose proof (schedule_audio_frame clock b st1) as Hf. rewrite Es in Hf. cbn in Hf.
  destruct Hf as (_ & _ & _ & _ & Hsub).
  rewrite Hi in E. cbn [when] in E. rewrite interrupt_run in E.
  injection E as <-. cbn. repeat split; try reflexivity. set_solver.
Qed.

End Callbacks.

(** Between a granted start and the teardown the playback refs are set:
    [startConversation] sets them and zeroes the watermark, [onopen] keeps
    them. *)
Lemma startConversation_prepares_playback (st : State) :
  exists st',
    startConversation None st = (Ok tt, st')
    /\ is_Some (outputAudioContextRef st') /\ is_Some (outputNodeRef st')
    /\ nextStartTimeRef st' = 0%Q /\ sourcesRef st' = ∅.
Proof. eexists. split; [reflexivity|]. cbn. repeat split; eauto. Qed.

Lemma onopen_keeps_playback (s : nat) (st : State) :
  outputAudioContextRef (exec (onopen s) st) = outputAudioContextRef st
  /\ outputNodeRef (exec (onopen s) st) = outputNodeRef st
  /\ nextStartTimeRef (exec (onopen s) st) = nextStartTimeRef st
  /\ sourcesRef (exec (onopen s) st) = sourcesRef st.
Proof.
  unfold exec, onopen. rewrite !bind_modify, bind_gets.
  destruct (audioContextRef _); cbn; repeat split; reflexivity.
Qed.

(** C1.  A message whose first part carries a non-empty audio payload,
    handled while the output context and the output node exist: the handler
    returns, the decoded segment is started at the later of the watermark
    and the clock of the output context, and (unless the same message also
    signals an interruption) the watermark ends at that start plus the
    segment's duration.  A second such message directly after it is
    started no earlier than that watermark, and exactly at it when the
    clock reads the same as before. *)
Theorem onmessage_schedules_gapless
  (decodeAudio : string -> option AudioBuffer) (clock : Clock)
  (message : LiveServerMessage) (payload : string) (buffer : AudioBuffer) (st : State) :
  inbound_audio message = Some payload -> payload <> EmptyString ->
  decodeAudio payload = Some buffer ->
  is_Some (outputAudioContextRef st) -> is_Some (outputNodeRef st) ->
  let start := Qmax (nextStartTimeRef st) (currentTime clock) in
  let st' := exec (onmessage decodeAudio clock message) st in
  fst (onmessage decodeAudio clock message st) = Ok tt
  /\ startLog st' = (nextHandle st, start) :: startLog st
  /\ (interruption message = false ->
      nextStartTimeRef st' = (start + duration buffer)%Q
      /\ nextHandle st ∈ sourcesRef st'
      /\ forall clock2 message2 payload2 buffer2,
           inbound_audio message2 = Some payload2 -> payload2 <> EmptyString ->
           decodeAudio payload2 = Some buffer2 ->
           exists start2,
             startLog (exec (onmessage decodeAudio clock2 message2) st')
             = (nextHandle st', start2) :: startLog st'
             /\ (start + duration buffer <= start2)%Q
             /\ (currentTime clock2 == currentTime clock -> start2 = (start + duration buffer)%Q)%Q).
Proof.
  intros Ha Hne Hd Hc Hn start st'.
  destruct (onmessage_audio_run decodeAudio clock message payload buffer st Ha Hne Hd Hc Hn)
    as (st1 & E & Hl & Hh & Hc1 & Hn1 & Hi).
  assert (Est : st' = st1) by (unfold st', exec; now rewrite E). rewrite Est, E.
  split; [reflexivity|]. split; [exact Hl|].
  intros Hint. rewrite Hint in Hi. destruct Hi as (Ht & Hs & _).
  split; [exact Ht|]. split; [rewrite Hs; set_solver|].
  intros clock2 message2 payload2 buffer2 Ha2 Hne2 Hd2.
  rewrite <- Hc1 in Hc. rewrite <- Hn1 in Hn.
  destruct (onmessage_audio_run decodeAudio clock2 message2 payload2 buffer2 st1
              Ha2 Hne2 Hd2 Hc Hn) as (st2 & E2 & Hl2 & _).
  unfold exec. rewrite E2. cbn [snd]. eexists. split; [exact Hl2|].
  rewrite Ht. fold start. split; [apply Qmax_ge_left|].
  intros Hclock. apply Qmax_left. rewrite Hclock.
  apply Qle_trans with start; [apply Qmax_ge_right|].
  rewrite <- (Qplus_0_r start) at 1. apply Qplus_le_r. apply duration_nonneg.
Qed.

Lemma onmessage_schedules_gapless_witness :
  fst (onmessage sample_decode sample_clock (audio_message "QUJDRA==") st_active) = Ok tt
  /\ startLog (exec (onmessage sample_decode sample_clock (audio_message "QUJDRA==")) st_active)
     = (nextHandle st_active, Qmax (nextStartTimeRef st_active) (currentTime sample_clock))
         :: startLog st_active.
Proof.
  pose proof (onmessage_schedules_gapless sample_decode sample_clock (audio_message "QUJDRA==")
                "QUJDRA==" {| frames := 2; sampleRate := 24000 |} st_active) as H.
  cbv zeta in H.
  destruct H as (H1 & H2 & _);
    [reflexivity | discriminate | reflexivity | vm_compute; eauto | vm_compute; eauto |].
  split; [exact H1 | exact H2].
Defined.

(** A message without a model turn is always handled to the end. *)
Lemma onmessage_returns (decodeAudio : string -> option AudioBuffer) (clock : Clock)
  (message : LiveServerMessage) (st : State) :
  chain (serverContent message) modelTurn = None ->
  fst (onmessage decodeAudio clock message st) = Ok tt.
Proof.
  intros Hm. unfold onmessage.
  destruct (transcript_run clock message st) as (st1 & E1 & _).
  rewrite (bind_run _ _ _ _ _ E1). unfold onmessage_playback, first_audio. rewrite Hm.
  unfold schedule_audio, bind, gets, ret. cbn.
  destruct (interruption message); reflexivity.
Qed.

(** The interruption branch, for a handler call that reaches it: every
    source that was in the scheduled set is stopped, the set is empty and
    the watermark is zero when the handler returns.  A segment that
    arrives next is started at the later of zero and the clock of the
    output context, which is never before that clock and equals it for a
    clock that is not negative.  The branch is the last statement of the
    handler, after the audio part of the same message. *)
Theorem onmessage_interruption_resets
  (decodeAudio : string -> option AudioBuffer) (clock : Clock)
  (message : LiveServerMessage) (st : State) :
  interruption message = true ->
  fst (onmessage decodeAudio clock message st) = Ok tt ->
  let st' := exec (onmessage decodeAudio clock message) st in
  sourcesRef st ⊆ stoppedSources st'
  /\ sourcesRef st' = ∅
  /\ nextStartTimeRef st' = 0%Q
  /\ forall clock2 message2 payload2 buffer2,
       inbound_audio message2 = Some payload2 -> payload2 <> EmptyString ->
       decodeAudio payload2 = Some buffer2 ->
       is_Some (outputAudioContextRef st') -> is_Some (outputNodeRef st') ->
       exists start2,
         startLog (exec (onmessage decodeAudio clock2 message2) st')
         = (nextHandle st', start2) :: startLog st'
         /\ start2 = Qmax 0 (currentTime clock2)
         /\ (currentTime clock2 <= start2)%Q
         /\ (0 <= currentTime clock2 -> start2 == currentTime clock2)%Q.
Proof.
  intros Hi Hok st'.
  destruct (onmessage_interrupted_run decodeAudio clock message st Hi Hok) as (Hs & Ht & Hsub).
  fold st' in Hs, Ht, Hsub.
  split; [exact Hsub|]. split; [exact Hs|]. split; [exact Ht|].
  intros clock2 message2 payload2 buffer2 Ha2 Hne2 Hd2 Hc Hn.
  destruct (onmessage_audio_run decodeAudio clock2 message2 payload2 buffer2 st'
              Ha2 Hne2 Hd2 Hc Hn) as (st2 & E2 & Hl2 & _).
  unfold exec at 1. rewrite E2. cbn [snd]. rewrite Ht in Hl2.
  eexists. split; [exact Hl2|]. split; [reflexivity|].
  split; [apply Qmax_ge_right|]. intros Hpos. now apply Q.max_r.
Qed.

Lemma onmessage_interruption_resets_witness :
  sourcesRef st_playing
    ⊆ stoppedSources (exec (onmessage sample_decode sample_clock interruption_message) st_playing)
  /\ sourcesRef (exec (onmessage sample_decode sample_clock interruption_message) st_playing) = ∅
  /\ nextStartTimeRef (exec (onmessage sample_decode sample_clock interruption_message) st_playing)
     = 0%Q.
Proof.
  pose proof (onmessage_interruption_resets sample_decode sample_clock interruption_message
                st_playing eq_refl eq_refl) as H.
  cbv zeta in H. destruct H as (H1 & H2 & H3 & _).
  split; [exact H1|]. split; [exact H2 | exact H3].
Defined.

(** C2, at the failing input: a message with the interruption signal set
    whose model turn has no [parts], handled while the two segments 6 and
    7 are scheduled.  The handler throws at the unguarded [parts[0]],
    before the interruption branch: both sources stay in the set, no
    source is stopped and the watermark keeps its value.  The same
    happens when the message carries a payload that does not decode. *)
Theorem interruption_behind_a_failing_audio_part_is_lost :
  (interruption (Dialogue.partless_message true) = true
   /\ sourcesRef st_playing = {[ 6%nat; 7%nat ]}
   /\ stoppedSources st_playing = ∅
   /\ fst (onmessage sample_decode sample_clock (Dialogue.partless_message true) st_playing)
      = Throw (TypeError "Cannot read properties of undefined (reading '0')")
   /\ sourcesRef (exec (onmessage sample_decode sample_clock (Dialogue.partless_message true))
                    st_playing)
      = {[ 6%nat; 7%nat ]}
   /\ stoppedSources (exec (onmessage sample_decode sample_clock
                              (Dialogue.partless_message true)) st_playing)
      = ∅
   /\ nextStartTimeRef (exec (onmessage sample_decode sample_clock
                                (Dialogue.partless_message true)) st_playing)
      = nextStartTimeRef st_playing)
  /\ (interruption (Dialogue.undecodable_message true) = true
      /\ fst (onmessage sample_decode sample_clock (Dialogue.undecodable_message true)
                st_playing)
         = Throw (DOMException "InvalidCharacterError")
      /\ sourcesRef (exec (onmessage sample_decode sample_clock
                             (Dialogue.undecodable_message true)) st_playing)
         = {[ 6%nat; 7%nat ]}
      /\ stoppedSources (exec (onmessage sample_decode sample_clock
                                 (Dialogue.undecodable_message true)) st_playing)
         = ∅
      /\ nextStartTimeRef (exec (onmessage sample_decode sample_clock
                                   (Dialogue.undecodable_message true)) st_playing)
         = nextStartTimeRef st_playing).
Proof. vm_compute. repeat split; reflexivity. Qed.



(** C7 (as amended).  [onerror] and [onclose] both run [stopConversation],
    so after either the session flag is false, the promise ref is null and
    the held resources are released.  [onerror] sets the one generic
    message whatever the transport reported; [onclose] leaves the error
    state as it was. *)
Theorem transport_events_stop_the_conversation
  (e : string) (settled : Settled) (fault : option exn) (st : State) :
  (onerror e settled fault st
   = stopConversation settled fault (set_error (Some conversation_error) st)
   /\ exists st',
        onerror e settled fault st = (Ok tt, st')
        /\ isSessionActive st' = false /\ sessionPromiseRef st' = None
        /\ released st st'
        /\ error st' = Some conversation_error)
  /\ (onclose e settled fault st = stopConversation settled fault st
      /\ exists st',
           onclose e settled fault st = (Ok tt, st')
           /\ isSessionActive st' = false /\ sessionPromiseRef st' = None
           /\ released st st'
           /\ error st' = error st).
Proof.
  split; (split; [reflexivity|]).
  - unfold onerror. rewrite bind_modify.
    destruct (stopConversation_run settled fault (set_error (Some conversation_error) st))
      as (st' & E & Ha & Hp & He & Hr).
    exists st'. split; [exact E|]. split; [exact Ha|]. split; [exact Hp|].
    split; [|exact He]. revert Hr. apply released_before; reflexivity.
  - unfold onclose.
    destruct (stopConversation_run settled fault st) as (st' & E & Ha & Hp & He & Hr).
    exists st'. auto.
Qed.

(** C7, the claim as stated fails: a remote close of an active session
    leaves no error message. *)
Lemma onclose_surfaces_no_error :
  isSessionActive st_active = true
  /\ error st_active = None
  /\ fst (onclose "1006" Fulfilled None st_active) = Ok tt
  /\ isSessionActive (exec (onclose "1006" Fulfilled None) st_active) = false
  /\ error (exec (onclose "1006" Fulfilled None) st_active) = None.
Proof. vm_compute. repeat split; reflexivity. Qed.

(** C8 (as amended).  The header shows Stop exactly when the session flag
    is set and Start otherwise, so a click runs [stopConversation] while
    the flag is set and [startConversation] while it is not.
    [startConversation] itself reads no state: with microphone access
    granted it always returns having opened one more session, which takes
    over the promise ref, and having replaced the stream ref; the session
    flag is left as it was. *)
Theorem start_is_guarded_by_the_header_only
  (denied : option exn) (settled : Settled) (fault : option exn) (st : State) :
  headerButton st = (if isSessionActive st then StopButton else StartButton)
  /\ click denied settled fault st
     = (if isSessionActive st then stopConversation settled fault st
        else startConversation denied st)
  /\ exists st',
       startConversation None st = (Ok tt, st')
       /\ sessions st'
          = (sessions st ++ [ {| sessionStatus := Connecting;
                                capturedStream := {| tracks := [nextHandle st] |} |} ])%list
       /\ sessionPromiseRef st' = Some (length (sessions st))
       /\ mediaStreamRef st' = Some {| tracks := [nextHandle st] |}
       /\ isSessionActive st' = isSessionActive st.
Proof.
  split; [unfold headerButton; now destruct (isSessionActive st)|].
  split; [unfold click, headerButton; rewrite bind_gets; now destruct (isSessionActive st)|].
  eexists. split; [reflexivity|]. cbn. repeat split; reflexivity.
Qed.

(** C8, the claim as stated fails: [startConversation] run on an active
    session opens a second one, and two clicks on Start before the first
    session has opened leave two open sessions. *)
Lemma second_start_opens_second_session :
  (isSessionActive st_active = true
   /\ length (liveSessions st_active) = 1%nat
   /\ sessionPromiseRef st_active = Some 0%nat
   /\ fst (startConversation None st_active) = Ok tt
   /\ length (liveSessions (exec (startConversation None) st_active)) = 2%nat
   /\ sessionPromiseRef (exec (startConversation None) st_active) = Some 1%nat)
  /\ (headerButton st_connecting = StartButton
      /\ map sessionStatus
           (sessions (exec (onopen 1) (exec (onopen 0)
              (exec (click None Fulfilled None) st_connecting))))
         = [Opened; Opened]).
Proof. vm_compute. repeat split; reflexivity. Qed.

Lemma increasing_app (a b : list Transcript) :
  increasing_ids a -> increasing_ids b ->
  (forall x y, In x a -> In y b -> (id x < id y)%Z) ->
  increasing_ids (a ++ b)%list.
Proof.
  induction a as [|x a IH]; intros Ha Hb Hlt; [exact Hb|].
  cbn [app increasing_ids] in *. destruct Ha as [Hh Ht]. split.
  - destruct a as [|x' a']; cbn [app]; [|exact Hh].
    destruct b as [|y b']; [exact I|]. apply Hlt; left; reflexivity.
  - apply IH; [exact Ht | exact Hb |]. intros x0 y Hx Hy. apply Hlt; [now right | exact Hy].
Qed.

Lemma turn_entries_ids (clock : Clock) (input output : string) :
  (dateNow_user clock <= dateNow_model clock)%Z ->
  increasing_ids (turn_entries clock input output)
  /\ forall y, In y (turn_entries clock input output) -> (dateNow_user clock <= id y)%Z.
Proof.
  intros Hclock. destruct input, output; cbn; (split; [repeat split; lia|]).
  all: intros y Hy; repeat (destruct Hy as [<-|Hy]; [cbn; lia|]); destruct Hy.
Qed.

(** C6.  A message with the turn-completion signal: the log grows by the
    entries of [turn_entries] for the two buffers as they stand once the
    fragments of the message are appended, that is by a user entry exactly
    when the input buffer is not empty, followed by a model entry exactly
    when the output buffer is not empty; these are at most two, their
    identifiers increase strictly, and both buffers are empty afterwards.
    When the identifiers of the log increased before and all lie below the
    reading of the clock, they still increase along the whole log. *)
Theorem turn_completion_flushes
  (decodeAudio : string -> option AudioBuffer) (clock : Clock)
  (message : LiveServerMessage) (st : State) :
  turn_completion message = true ->
  (dateNow_user clock <= dateNow_model clock)%Z ->
  let input := accumulated (currentInputTranscriptionRef st)
                 (chain (serverContent message) inputTranscription) in
  let output := accumulated (currentOutputTranscriptionRef st)
                  (chain (serverContent message) outputTranscription) in
  let st' := exec (onmessage decodeAudio clock message) st in
  transcripts st' = (transcripts st ++ turn_entries clock input output)%list
  /\ (length (turn_entries clock input output) <= 2)%nat
  /\ increasing_ids (turn_entries clock input output)
  /\ (input = EmptyString -> output <> EmptyString ->
      turn_entries clock input output
      = [ {| id := dateNow_model clock + 1; speaker := model; text := output |} ])
  /\ currentInputTranscriptionRef st' = EmptyString
  /\ currentOutputTranscriptionRef st' = EmptyString
  /\ (increasing_ids (transcripts st) ->
      (forall x, In x (transcripts st) -> (id x < dateNow_user clock)%Z) ->
      increasing_ids (transcripts st')).
Proof.
  intros Htc Hclock input output st'.
  assert (Hst : transcripts st' = (transcripts st ++ turn_entries clock input output)%list
                /\ currentInputTranscriptionRef st' = EmptyString
                /\ currentOutputTranscriptionRef st' = EmptyString).
  { unfold st', exec, onmessage.
    destruct (transcript_run clock message st) as (st1 & E1 & H1 & _).
    rewrite Htc in H1. destruct H1 as (T1 & I1 & O1).
    rewrite (bind_run _ _ _ _ _ E1).
    destruct (playback_frame decodeAudio clock message st1) as (T2 & I2 & O2).
    rewrite T2, I2, O2. auto. }
  destruct Hst as (T & I & O).
  destruct (turn_entries_ids clock input output Hclock) as [Hinc Hge].
  split; [exact T|]. split; [destruct input, output; cbn; lia|].
  split; [exact Hinc|].
  split; [intros -> Hout; destruct output; [congruence | reflexivity]|].
  split; [exact I|]. split; [exact O|].
  intros Hold Hbelow. rewrite T. apply increasing_app; [exact Hold | exact Hinc |].
  intros x y Hx Hy. specialize (Hbelow x Hx). specialize (Hge y Hy). lia.
Qed.

Lemma turn_completion_flushes_witness :
  transcripts (exec (onmessage sample_decode sample_clock (turn_message "Namaste.")) st_active)
  = [ {| id := 1700000000001; speaker := model; text := "Namaste." |} ]
  /\ currentOutputTranscriptionRef
       (exec (onmessage sample_decode sample_clock (turn_message "Namaste.")) st_active)
     = EmptyString.
Proof.
  pose proof (turn_completion_flushes sample_decode sample_clock (turn_message "Namaste.")
                st_active eq_refl) as H.
  cbv zeta in H. destruct H as (H1 & _ & _ & _ & _ & H2 & _); [vm_compute; discriminate|].
  split; [exact H1 | exact H2].
Defined.

End ConversationFacts.

(** *** The audio codec utilities *)

Module AudioUtilsFacts.
Import AudioUtils.
Local Open Scope Z_scope.

(** Base64. *)

Lemma sextets_ok : forallb (fun k => sextet_ok (Z.of_nat k)) (seq 0 64) = true.
Proof. vm_compute. reflexivity. Qed.

Lemma sextet_roundtrip (n : Z) :
  0 <= n < 64 ->
  sextet_of_char (char_of_sextet n) = Some n /\ is_pad (char_of_sextet n) = false.
Proof.
  intros Hn. pose proof sextets_ok as H. rewrite forallb_forall in H.
  specialize (H (Z.to_nat n)). rewrite Z2Nat.id in H by lia.
  assert (Hin : In (Z.to_nat n) (seq 0 64)) by (apply in_seq; lia).
  specialize (H Hin). unfold sextet_ok in H.
  destruct (sextet_of_char (char_of_sextet n)) as [m|]; [|discriminate].
  apply andb_true_iff in H. destruct H as [H1 H2].
  apply Z.eqb_eq in H1. apply negb_true_iff in H2. subst. auto.
Qed.

Ltac sextet n :=
  let H := fresh in
  assert (H : 0 <= n < 64) by (unfold is_byte in *; Z.div_mod_to_equations; lia);
  let H1 := fresh in
  let H2 := fresh in
  destruct (sextet_roundtrip n H) as [H1 H2]; rewrite ?H1, ?H2; clear H H1 H2.

Lemma decode_encode_bounded (fuel : nat) (bytes : list Z) :
  (length bytes < fuel)%nat -> Forall is_byte bytes -> decode (encode bytes) = Some bytes.
Proof.
  revert bytes. induction fuel as [|fuel IH]; intros bytes Hlen Hb; [lia|].
  destruct bytes as [|b0 [|b1 [|b2 rest]]]; [reflexivity| | |].
  - inversion_clear Hb as [|? ? H0 _]. cbn [encode decode].
    sextet (b0 / 4). sextet (b0 mod 4 * 16). cbn.
    do 2 f_equal. unfold is_byte in *. Z.div_mod_to_equations. lia.
  - inversion_clear Hb as [|? ? H0 Hb']. inversion_clear Hb' as [|? ? H1 _].
    cbn [encode decode].
    sextet (b0 / 4). sextet (b0 mod 4 * 16 + b1 / 16). sextet (b1 mod 16 * 4). cbn.
    unfold is_byte in *. f_equal. f_equal; [|f_equal]; Z.div_mod_to_equations; lia.
  - inversion_clear Hb as [|? ? H0 Hb']. inversion_clear Hb' as [|? ? H1 Hb''].
    inversion_clear Hb'' as [|? ? H2 Hr].
    cbn [encode decode].
    sextet (b0 / 4). sextet (b0 mod 4 * 16 + b1 / 16).
    sextet (b1 mod 16 * 4 + b2 / 64). sextet (b2 mod 64).
    rewrite IH by (cbn in Hlen; try lia; assumption).
    unfold is_byte in *. f_equal. f_equal; [|f_equal; [|f_equal]]; Z.div_mod_to_equations; lia.
Qed.

Lemma decode_encode (bytes : list Z) :
  Forall is_byte bytes -> decode (encode bytes) = Some bytes.
Proof. apply (decode_encode_bounded (S (length bytes))). lia. Qed.

(** 16-bit little-endian samples. *)

Lemma int16_bytes_are_bytes (v : Z) : Forall is_byte (int16_bytes v).
Proof.
  unfold int16_bytes, is_byte. repeat constructor; Z.div_mod_to_equations; lia.
Qed.

Lemma int16_of_int16_bytes (v : Z) (rest : list Z) :
  -32768 <= v <= 32767 ->
  int16_of_bytes (int16_bytes v ++ rest) = v :: int16_of_bytes rest.
Proof.
  intros Hv. unfold int16_bytes. cbn [app int16_of_bytes].
  f_equal. destruct (Z.ltb_spec (v mod 65536 mod 256 + 256 * (v mod 65536 / 256)) 32768);
    Z.div_mod_to_equations; lia.
Qed.


(** Quantization. *)

Lemma clamp_bounds (s : Q) : (-1 <= clamp s <= 1)%Q.
Proof.
  unfold clamp. split; [apply Q.le_max_l|].
  apply Q.max_lub; [discriminate | apply Q.le_min_l].
Qed.

Lemma clamp_inside (s : Q) : (-1 <= s <= 1)%Q -> (clamp s == s)%Q.
Proof.
  intros [H1 H2]. unfold clamp. rewrite (Q.min_r 1 s H2). now apply Q.max_r.
Qed.

Lemma clamp_above (s : Q) : (1 <= s)%Q -> (clamp s == 1)%Q.
Proof.
  intros H. unfold clamp. rewrite (Q.min_l 1 s H). apply Q.max_r. discriminate.
Qed.

Lemma clamp_below (s : Q) : (s <= -1)%Q -> (clamp s == -1)%Q.
Proof.
  intros H. unfold clamp. apply Q.max_l. apply Qle_trans with s; [apply Q.le_min_r | exact H].
Qed.

Lemma truncate_spec (x : Q) :
  (-32768 <= x <= 32768)%Q ->
  -32768 <= truncate x <= 32768
  /\ (inject_Z (truncate x) - 1 < x < inject_Z (truncate x) + 1)%Q
  /\ (truncate x = 32768 -> (x == 32768)%Q).
Proof.
  intros [Hlo Hhi]. unfold truncate.
  pose proof (Qfloor_le x) as F1. pose proof (Qlt_floor x) as F2.
  pose proof (Qle_ceiling x) as C1. pose proof (Qceiling_lt x) as C2.
  rewrite inject_Z_plus in F2. unfold Z.sub in C2. rewrite inject_Z_plus, inject_Z_opp in C2.
  change (inject_Z 1) with 1%Q in F2, C2.
  destruct (Qle_bool 0 x) eqn:E.
  - apply Qle_bool_iff in E.
    pose proof (Qfloor_resp_le _ _ E) as G1. pose proof (Qfloor_resp_le _ _ Hhi) as G2.
    change (Qfloor 0) with 0 in G1. change (Qfloor 32768) with 32768 in G2.
    split; [lia|]. split; [split; lra|].
    intros Ht. rewrite Ht in F1. change (inject_Z 32768) with 32768%Q in F1. lra.
  - assert (Hneg : (x < 0)%Q).
    { apply Qnot_le_lt. intros H. apply Qle_bool_iff in H. congruence. }
    pose proof (Qceiling_resp_le _ _ Hlo) as G1.
    pose proof (Qceiling_resp_le _ _ (Qlt_le_weak _ _ Hneg)) as G2.
    change (Qceiling (-32768)) with (-32768) in G1. change (Qceiling 0) with 0 in G2.
    split; [lia|]. split; [split; lra|]. intros Ht. exfalso. lia.
Qed.

Lemma normalize_scaled (v : Z) : (normalize v * 32768 == inject_Z v)%Q.
Proof. unfold normalize, Qeq. cbn. lia. Qed.

Lemma quantize_spec (s : Q) :
  -32768 <= quantize s <= 32767
  /\ (Qabs (normalize (quantize s) - clamp s) <= 1 # 32768)%Q
  /\ ((clamp s == 1)%Q -> quantize s = 32767)
  /\ ((clamp s == -1)%Q -> quantize s = -32768).
Proof.
  pose proof (clamp_bounds s) as [B1 B2].
  assert (Hx : (-32768 <= clamp s * 32768 <= 32768)%Q) by (split; lra).
  destruct (truncate_spec _ Hx) as (T1 & [T2 T3] & T4).
  unfold quantize, to_int16.
  assert (Etop : (clamp s == 1)%Q -> truncate (clamp s * 32768) = 32768).
  { intros H1. unfold truncate. destruct (Qle_bool _ _); rewrite H1; reflexivity. }
  assert (Ebot : (clamp s == -1)%Q -> truncate (clamp s * 32768) = -32768).
  { intros H1. unfold truncate. destruct (Qle_bool _ _); rewrite H1; reflexivity. }
  generalize dependent (truncate (clamp s * 32768)). intros t T1 T2 T3 T4 Etop Ebot.
  split; [lia|]. split; [|split].
  - apply Qabs_Qle_condition.
    pose proof (normalize_scaled (Z.max (-32768) (Z.min 32767 t))) as N.
    destruct (Z.eq_dec t 32768) as [E|E].
    + specialize (T4 E). subst t. change (inject_Z _) with 32767%Q in N.
      split; lra.
    + replace (Z.max (-32768) (Z.min 32767 t)) with t in * by lia. split; lra.
  - intros H1. rewrite (Etop H1). reflexivity.
  - intros H1. rewrite (Ebot H1). reflexivity.
Qed.

Lemma quantized_within_one_step (s : Q) : within_one_step s (normalize (quantize s)).
Proof.
  destruct (quantize_spec s) as (_ & H & Htop & Hbot). unfold within_one_step.
  split; [|split].
  - intros Hs. rewrite <- (clamp_inside s Hs) at 2. exact H.
  - intros Hs. now rewrite (Htop (clamp_above s Hs)).
  - intros Hs. now rewrite (Hbot (clamp_below s Hs)).
Qed.

(** The wire format and back. *)

Lemma pcm_bytes_are_bytes (samples : list Q) : Forall is_byte (pcm_bytes samples).
Proof.
  unfold pcm_bytes. induction samples as [|s samples IH]; [constructor|].
  cbn [flat_map]. apply Forall_app. split; [apply int16_bytes_are_bytes | exact IH].
Qed.

Lemma int16_of_pcm_bytes (samples : list Q) :
  int16_of_bytes (pcm_bytes samples) = map quantize samples.
Proof.
  unfold pcm_bytes. induction samples as [|s samples IH]; [reflexivity|].
  cbn [flat_map map]. rewrite int16_of_int16_bytes, IH; [reflexivity|].
  apply quantize_spec.
Qed.

Lemma map_nth_seq {A B : Type} (f : A -> B) (l : list A) (d : A) :
  map (fun i => f (nth i l d)) (seq 0 (length l)) = map f l.
Proof.
  induction l as [|a l IH]; [reflexivity|].
  cbn [length seq map nth]. f_equal. rewrite <- seq_shift, map_map. exact IH.
Qed.

Lemma mono_channel (bytes : list Z) (rate : positive) :
  channelData (decodeAudioData bytes rate 1) = [map normalize (int16_of_bytes bytes)].
Proof.
  unfold decodeAudioData. cbn [channelData seq map]. f_equal. rewrite Nat.div_1_r.
  rewrite <- (map_nth_seq normalize (int16_of_bytes bytes) 0).
  apply map_ext. intros i. now rewrite Nat.mul_1_r, Nat.add_0_r.
Qed.

Example roundtrip_of_samples :
  decode (data (createBlob [1; -1; 1 # 2; -1 # 3; 5; -7; 0]%Q))
  = Some [255; 127; 0; 128; 0; 64; 86; 213; 255; 127; 0; 128; 0; 0]
  /\ channelData (decodeAudioData [255; 127; 0; 128; 0; 64; 86; 213; 255; 127; 0; 128; 0; 0] 16000 1)
     = [[32767 # 32768; -32768 # 32768; 16384 # 32768; -10922 # 32768;
         32767 # 32768; -32768 # 32768; 0 # 32768]%Q].
Proof. split; vm_compute; reflexivity. Qed.

(** C9.  What [createBlob] puts on the wire decodes, and [decodeAudioData]
    reads back one mono channel with one value per sample: within
    [1/32768] of the sample when the sample lies in [-1, 1], the ends
    included, and the end of the 16-bit range on the side of the sample
    when it lies outside, so a sample above 1 comes back as 32767/32768 and
    never as a negative value. *)
Theorem createBlob_decodeAudioData_roundtrip (samples : list Q) :
  exists bytes out,
    decode (data (createBlob samples)) = Some bytes
    /\ channelData (decodeAudioData bytes 16000 1) = [out]
    /\ Forall2 within_one_step samples out.
Proof.
  exists (pcm_bytes samples), (map normalize (map quantize samples)).
  split; [apply decode_encode, pcm_bytes_are_bytes|].
  split.
  - now rewrite mono_channel, int16_of_pcm_bytes.
  - induction samples as [|s samples IH]; cbn [map]; constructor;
      [apply quantized_within_one_step | exact IH].
Qed.

End AudioUtilsFacts.

(** *** The gateway: sources, the fence amid prose, speech synthesis *)

Module GatewayFacts.
Import Js Discovery Search DiscoveryFacts.

#[local] Arguments String.append !s1 s2 : simpl nomatch.

(** The sources of one reference. *)

Lemma chunk_source_made (r : option ChunkRef) (fallback : string) (t : SourceType)
  (s : GroundingSource) :
  In s (chunk_source r fallback t) <-> made_from r fallback t s.
Proof.
  unfold chunk_source, made_from. split.
  - destruct r as [c|]; [|intros []].
    destruct (ref_uri c) as [[|u us]|] eqn:Eu; [intros [] | | intros []].
    intros [<-|[]]. exists c. cbn. repeat split; try assumption; try discriminate.
    destruct (ref_title c) as [[|x xs]|]; cbn; [right|left|right]; split; auto; discriminate.
  - intros (c & -> & Eu & Hne & Ht & Htitle). rewrite Eu.
    destruct s as [u ti ty]. cbn in *. destruct u as [|u us]; [congruence|].
    left. subst ty. f_equal.
    destruct Htitle as [[-> Hn] | [[-> | ->] ->]]; try reflexivity.
    destruct ti; [congruence | reflexivity].
Qed.

Lemma chunk_source_short (r : option ChunkRef) (fallback : string) (t : SourceType) :
  (length (chunk_source r fallback t) <= 1)%nat.
Proof.
  unfold chunk_source. destruct r as [c|]; [|cbn; lia].
  destruct (ref_uri c) as [[|u us]|]; cbn; lia.
Qed.

Lemma chunk_source_filled (r : option ChunkRef) (fallback : string) (t : SourceType) :
  fallback <> EmptyString ->
  Forall (fun s => uri s <> EmptyString /\ title s <> EmptyString) (chunk_source r fallback t).
Proof.
  intros Hf. unfold chunk_source. destruct r as [c|]; [|constructor].
  destruct (ref_uri c) as [[|u us]|]; constructor; [|constructor].
  cbn. split; [discriminate|]. destruct (ref_title c) as [[|x xs]|]; cbn; auto; discriminate.
Qed.

(** X1.  The sources [getNearbyPlaces] returns are, chunk by chunk in the
    order of the grounding metadata, at most one web source followed by at
    most one maps source; a source is made exactly from a reference with a
    non-empty [uri], with the reference's title or the fallback title when
    that is absent or empty.  So a chunk without a usable [uri] adds
    nothing, and every source has a non-empty [uri] and title. *)
Theorem getNearbyPlaces_sources_follow_chunks
  (JSON_parse : string -> option JSON) (response : GenerateContentResponse)
  (foundPlaces : JSON) (foundSources : list GroundingSource) :
  getNearbyPlaces JSON_parse (Ok response) = Ok (foundPlaces, foundSources) ->
  (exists groups,
      foundSources = concat groups
      /\ Forall2 (fun chunk group =>
                    exists fromWeb fromMaps,
                      group = (fromWeb ++ fromMaps)%list
                      /\ (length fromWeb <= 1)%nat /\ (length fromMaps <= 1)%nat
                      /\ (forall s, In s fromWeb <-> made_from (chunk_web chunk) "Web Source" web s)
                      /\ (forall s, In s fromMaps
                                    <-> made_from (chunk_maps chunk) "Map Location" maps s))
           (default [] (groundingChunks response)) groups)
  /\ (forall s, In s foundSources
                <-> exists chunk, In chunk (default [] (groundingChunks response))
                                  /\ source_of chunk s)
  /\ Forall (fun s => uri s <> EmptyString /\ title s <> EmptyString) foundSources
  /\ (length foundSources <= 2 * length (default [] (groundingChunks response)))%nat.
Proof.
  unfold getNearbyPlaces. destruct (parse_places JSON_parse (text response)); [|discriminate].
  intros [= _ <-]. set (chunks := default [] (groundingChunks response)). clearbody chunks.
  split; [|split; [|split]].
  - exists (map chunk_sources chunks). split.
    + induction chunks as [|chunk chunks IH]; cbn; [reflexivity | now rewrite IH].
    + induction chunks as [|chunk chunks IH]; cbn; constructor; [|exact IH].
      eexists _, _. split; [reflexivity|].
      split; [apply chunk_source_short|]. split; [apply chunk_source_short|].
      split; intros s; apply chunk_source_made.
  - intros s. rewrite in_flat_map. unfold source_of, chunk_sources. split.
    + intros (chunk & Hin & Hs). exists chunk. split; [exact Hin|].
      apply in_app_or in Hs. destruct Hs as [Hs|Hs]; [left|right]; now apply chunk_source_made.
    + intros (chunk & Hin & Hs). exists chunk. split; [exact Hin|].
      apply in_or_app. destruct Hs as [Hs|Hs]; [left|right]; now apply chunk_source_made.
  - induction chunks as [|chunk chunks IH]; cbn; [constructor|].
    unfold chunk_sources. rewrite !Forall_app. split; [split|exact IH];
      apply chunk_source_filled; discriminate.
  - induction chunks as [|chunk chunks IH]; cbn; [lia|].
    unfold chunk_sources at 1. rewrite !length_app.
    pose proof (chunk_source_short (chunk_web chunk) "Web Source" web).
    pose proof (chunk_source_short (chunk_maps chunk) "Map Location" maps).
    cbn in IH. lia.
Qed.

Lemma getNearbyPlaces_sources_follow_chunks_witness :
  exists groups,
    [ {| uri := "https://example.org/a"; title := "Web Source"; type := web |} ] = concat groups
    /\ length groups = 1%nat.
Proof.
  destruct (getNearbyPlaces_sources_follow_chunks sample_parse
              {| text := Some (fenced_text places_text); groundingChunks := Some [sample_chunk] |}
              (JArr [sample_record "Lookout" "Nature"; sample_record "Alley" "Street ART"])
              [ {| uri := "https://example.org/a"; title := "Web Source"; type := web |} ]
              eq_refl) as [[groups [E F]] _].
  exists groups. split; [exact E|]. apply Forall2_length in F. symmetry. exact F.
Defined.

(** The fence pattern on a text without stray backticks. *)

Lemma includes_cons_false (c : ascii) (s : string) :
  includes (String c s) BQ = false ->
  Ascii.eqb "`"%char c = false /\ includes s BQ = false.
Proof.
  cbn [includes startsWith BQ]. rewrite andb_true_r. apply orb_false_elim.
Qed.

Lemma closer_not_inside (c : ascii) (body post : string) :
  includes (String c body) BQ = false ->
  startsWith fence_close (String c (body ++ fence_close ++ post)) = false.
Proof.
  intros H. apply includes_cons_false in H. destruct H as [_ H].
  unfold fence_close at 1. cbn [LF append startsWith].
  destruct body as [|c' body'].
  - cbn. apply andb_false_r.
  - apply includes_cons_false in H. destruct H as [H _].
    cbn [append startsWith]. rewrite H. cbn. apply andb_false_r.
Qed.

Lemma lazy_body_exact (body post : string) :
  includes body BQ = false -> lazy_body (body ++ fence_close ++ post) = Some body.
Proof.
  induction body as [|c body IH]; intros H.
  - cbn [append]. destruct (fence_close ++ post) as [|x s] eqn:E; [discriminate E|].
    cbn [lazy_body]. rewrite <- E.
    replace (startsWith fence_close (fence_close ++ post)) with true; [reflexivity|].
    symmetry. apply startsWith_iff. now exists post.
  - cbn [append lazy_body]. rewrite (closer_not_inside _ _ _ H).
    apply includes_cons_false in H. destruct H as [_ H]. now rewrite (IH H).
Qed.

Lemma match_json_fence_exact (pre body post : string) :
  includes pre BQ = false -> includes body BQ = false ->
  match_json_fence (pre ++ fence_open ++ body ++ fence_close ++ post) = Some body.
Proof.
  intros Hpre Hbody. induction pre as [|c pre IH].
  - cbn [append].
    assert (E : match_here (fence_open ++ body ++ fence_close ++ post) = Some body).
    { unfold match_here.
      replace (startsWith fence_open _) with true
        by (symmetry; apply startsWith_iff; eauto).
      rewrite drop_app. now apply lazy_body_exact. }
    destruct (fence_open ++ body ++ fence_close ++ post); cbn [match_json_fence];
      now rewrite E.
  - apply includes_cons_false in Hpre. destruct Hpre as [Hc Hpre].
    cbn [append match_json_fence]. unfold match_here.
    unfold fence_open at 1. cbn [append startsWith]. rewrite Hc. cbn [andb].
    now apply IH.
Qed.

(** X2.  When the response text is prose without backticks, an opening
    fence line, a non-empty body without backticks, a closing fence and
    anything at all after it, the pattern captures exactly the body, and
    [getNearbyPlaces] returns what the parser makes of the body (or the
    format error when the parser rejects it).  Prose around the block and
    further fenced blocks after it do not matter. *)
Theorem getNearbyPlaces_reads_the_first_fenced_block
  (JSON_parse : string -> option JSON) (response : GenerateContentResponse)
  (pre body post : string) :
  text response = Some (pre ++ fence_open ++ body ++ fence_close ++ post) ->
  includes pre BQ = false -> includes body BQ = false -> body <> EmptyString ->
  match_json_fence (pre ++ fence_open ++ body ++ fence_close ++ post) = Some body
  /\ getNearbyPlaces JSON_parse (Ok response)
     = match JSON_parse body with
       | Some foundPlaces =>
           Ok (foundPlaces, flat_map chunk_sources (default [] (groundingChunks response)))
       | None => Throw (Error format_error)
       end.
Proof.
  intros Ht Hpre Hbody Hne.
  pose proof (match_json_fence_exact pre body post Hpre Hbody) as E.
  split; [exact E|].
  unfold getNearbyPlaces, parse_places. rewrite Ht, E.
  destruct body as [|c body]; [congruence|]. now destruct (JSON_parse (String c body)).
Qed.

Lemma getNearbyPlaces_reads_the_first_fenced_block_witness :
  match_json_fence (fenced_text "{}" ++ fenced_text strings_text) = Some "{}"
  /\ getNearbyPlaces sample_parse
       (Ok {| text := Some (fenced_text "{}" ++ fenced_text strings_text);
              groundingChunks := None |})
     = Ok (JObj [], []).
Proof.
  exact (getNearbyPlaces_reads_the_first_fenced_block sample_parse
           {| text := Some (fenced_text "{}" ++ fenced_text strings_text);
              groundingChunks := None |}
           ("Here you go:" ++ LF) "{}" (LF ++ fenced_text strings_text)
           eq_refl eq_refl eq_refl ltac:(discriminate)).
Defined.

End GatewayFacts.

(** *** Speech synthesis *)

Module SpeechFacts.
Import Js Speech.

(** X3.  When the speech service answers, [getTextToSpeech] returns the
    inline data of the first part of the first candidate if that is a
    non-empty string, and throws the one synthesis error in every other
    case: no candidate, no content, no part, a first part without inline
    data, or empty data.  Audio in a later part or candidate is not used,
    and the empty string is never returned. *)
Theorem getTextToSpeech_first_part_or_error
  (generateContent : string -> Result SpeechResponse) (text : string) (language : Language)
  (response : SpeechResponse) :
  generateContent (tts_prompt text language) = Ok response ->
  match getTextToSpeech generateContent text language with
  | Ok base64Audio =>
      base64Audio <> EmptyString
      /\ exists candidate others turn part rest inline,
           candidates response = Some (candidate :: others)
           /\ content candidate = Some turn
           /\ Conversation.parts turn = Some (part :: rest)
           /\ Conversation.inlineData part = Some inline
           /\ Conversation.data inline = Some base64Audio
  | Throw e =>
      e = Error speech_error
      /\ forall candidate others turn part rest inline base64Audio,
           candidates response = Some (candidate :: others) ->
           content candidate = Some turn ->
           Conversation.parts turn = Some (part :: rest) ->
           Conversation.inlineData part = Some inline ->
           Conversation.data inline = Some base64Audio ->
           base64Audio = EmptyString
  end.
Proof.
  intros E. unfold getTextToSpeech. rewrite E. unfold first_inline_data.
  destruct (candidates response) as [[|candidate others]|] eqn:Ec; cbn;
    try (split; [reflexivity | intros; discriminate]).
  destruct (content candidate) as [turn|] eqn:Et; cbn;
    [|split; [reflexivity | intros ? ? ? ? ? ? ? [= <- <-]; congruence]].
  destruct (Conversation.parts turn) as [[|part rest]|] eqn:Ep; cbn;
    try (split; [reflexivity | intros ? ? ? ? ? ? ? [= <- <-]; congruence]).
  destruct (Conversation.inlineData part) as [inline|] eqn:Ei; cbn;
    [|split; [reflexivity | intros ? ? ? ? ? ? ? [= <- <-] H1 H2; congruence]].
  destruct (Conversation.data inline) as [[|c s]|] eqn:Ed;
    try (split; [reflexivity | intros ? ? ? ? ? ? ? [= <- <-] H1 H2 H3 H4; congruence]).
  split; [discriminate|]. eexists _, _, _, _, _, _. eauto 10.
Qed.

Lemma getTextToSpeech_first_part_or_error_witness :
  getTextToSpeech sample_speech "A long view." english = Ok "QUJDRA=="
  /\ getTextToSpeech sample_speech "A long view." hindi = Throw (Error speech_error).
Proof.
  pose proof (getTextToSpeech_first_part_or_error sample_speech "A long view." english
                _ eq_refl) as H1.
  pose proof (getTextToSpeech_first_part_or_error sample_speech "A long view." hindi
                _ eq_refl) as H2.
  split; reflexivity.
Defined.

End SpeechFacts.

(** *** The discovery view: illustrations, outcomes of a search, entry points, screens *)

Module SearchFacts.
Import Js Discovery Search DiscoveryFacts.

#[local] Arguments String.append !s1 s2 : simpl nomatch.

(** The loop over the table stops at the first key that occurs. *)

Lemma first_included_first (l key url : string) (before after : list (string * string)) :
  includes l key = true ->
  (forall k u, In (k, u) before -> includes l k = false) ->
  first_included l (before ++ (key, url) :: after) = Some url.
Proof.
  intros Hk Hb. induction before as [|[k u] before IH]; cbn.
  - now rewrite Hk.
  - rewrite (Hb k u) by now left. apply IH. intros k' u' Hin. apply (Hb k' u'). now right.
Qed.

(** X4.  The illustration is decided by the order of the table, not by the
    order of the words in the category: of the keys that occur in the
    category (letter case ignored), the one that comes first in the table
    gives the illustration. *)
Theorem getCategoryImage_first_key_of_the_table_wins
  (category key url : string) (before after : list (string * string)) :
  categories = (before ++ (key, url) :: after)%list ->
  occurs_ignoring_case key category ->
  (forall k u, In (k, u) before -> ~ occurs_ignoring_case k category) ->
  getCategoryImage (Some category) = url.
Proof.
  intros Hcat Hocc Hbefore.
  destruct category as [|x c].
  - exfalso. destruct Hocc as (pre & mid & post & E & Hm).
    destruct pre; [|discriminate]. destruct mid; [|discriminate]. cbn in Hm. subst key.
    assert (Hin : In (EmptyString, url) categories) by (rewrite Hcat; apply in_elt).
    cbn in Hin. intuition discriminate.
  - unfold getCategoryImage. cbv zeta. rewrite categoryLower_nonempty, Hcat.
    rewrite (first_included_first _ key url); [reflexivity | now apply included_iff |].
    intros k u Hin. destruct (includes (toLowerCase (String x c)) k) eqn:E; [|reflexivity].
    exfalso. apply (Hbefore k u Hin). now apply included_iff.
Qed.

Lemma getCategoryImage_first_key_of_the_table_wins_witness :
  getCategoryImage (Some "Art and Food") = pexels "262978/pexels-photo-262978.jpeg".
Proof.
  apply (getCategoryImage_first_key_of_the_table_wins "Art and Food" "food" _
           [ ("nature", pexels "3225517/pexels-photo-3225517.jpeg");
             ("architecture", pexels "161439/architecture-building-france-landmark-161439.jpeg");
             ("history", pexels "326900/pexels-photo-326900.jpeg") ]
           [ ("art", pexels "102127/pexels-photo-102127.jpeg"); ("other", categories_other) ]).
  - reflexivity.
  - now exists "Art and ", "Food", EmptyString.
  - intros k u Hin Hocc. apply included_iff in Hocc.
    cbn in Hin. destruct Hin as [[= <- <-]|[[= <- <-]|[[= <- <-]|[]]]]; discriminate Hocc.
Defined.

(** The outcome of the [map] over the parsed value. *)

Lemma decorate_outcome (place : JSON) :
  match decorate place with
  | Ok card => mappable_element place = true /\ exists props, card = JObj props
  | Throw _ => mappable_element place = false
  end.
Proof.
  destruct place as [| | | | |props]; cbn; eauto.
  destruct (get_prop "category" props) as [[| | | | |]|]; cbn; eauto.
Qed.

Lemma map_decorate_outcome (items : list JSON) :
  match map_result decorate items with
  | Ok cards =>
      forallb mappable_element items = true /\ length cards = length items
      /\ Forall (fun card => exists props, card = JObj props) cards
  | Throw _ => forallb mappable_element items = false
  end.
Proof.
  induction items as [|place items IH]; cbn [map_result forallb].
  - repeat split. constructor.
  - pose proof (decorate_outcome place) as Hd.
    destruct (decorate place) as [card|e]; cbn.
    + destruct Hd as [-> Hcard]. destruct (map_result decorate items) as [cards|e]; cbn.
      * destruct IH as (-> & Hl & Hf). repeat split; [now rewrite Hl | now constructor].
      * exact IH.
    + now rewrite Hd.
Qed.

Lemma array_map_outcome (foundPlaces : JSON) :
  match array_map decorate foundPlaces with
  | Ok cards =>
      mappable foundPlaces = true
      /\ (exists items, foundPlaces = JArr items /\ length cards = length items)
      /\ Forall (fun card => exists props, card = JObj props) cards
  | Throw _ => mappable foundPlaces = false
  end.
Proof.
  destruct foundPlaces as [| | | |items|]; cbn; try reflexivity.
  pose proof (map_decorate_outcome items) as H.
  destruct (map_result decorate items); [|exact H].
  destruct H as (H1 & H2 & H3). eauto.
Qed.

Lemma or_default_filled (m d : string) : d <> EmptyString -> or_default (Some m) d <> EmptyString.
Proof. intros Hd. destruct m; [exact Hd | discriminate]. Qed.

(** X5.  However the service call, the extraction and the mapping end,
    and whatever the view showed before, [handleFetchPlaces] ends with
    the loading flag off and the status line empty, no place selected and
    the audio state reset, and with exactly one of two results: cards and
    no error, or no cards and a non-empty error message.  A rejection of
    the service call is shown with its own message, or with the generic
    one when that is empty, and leaves no sources.  The result does not
    depend on what the loading flag, the status, the error, the places,
    the sources, the selection and the audio state were before. *)
Theorem handleFetchPlaces_ends_in_cards_or_in_an_error
  (JSON_parse : string -> option JSON) (service : Result GenerateContentResponse)
  (v : DiscoverView) :
  let v' := handleFetchPlaces JSON_parse service v in
  isLoading v' = false /\ status v' = EmptyString /\ selectedPlace v' = None
  /\ isPlaying v' = false /\ audioBufferRef v' = None /\ audioSourceRef v' = None
  /\ ((exists cards, places v' = Some cards /\ error v' = None)
      \/ (places v' = None /\ exists message, error v' = Some message /\ message <> EmptyString))
  /\ (forall e, service = Throw e ->
        sources v' = None
        /\ error v' = Some (or_default (Some (message_of e))
                              "Failed to get information. Please try again."))
  /\ (forall w, handleFetchPlaces JSON_parse service w = v').
Proof.
  intros v'. subst v'. unfold handleFetchPlaces.
  destruct (getNearbyPlaces JSON_parse service) as [[foundPlaces foundSources]|e] eqn:E.
  - assert (Hs : forall e, service = Throw e -> False) by (intros e ->; discriminate E).
    destruct (array_map decorate foundPlaces) as [cards|e']; cbn.
    + do 6 (split; [reflexivity|]). split; [eauto|].
      split; [|reflexivity]. intros e He. destruct (Hs e He).
    + do 6 (split; [reflexivity|]). split.
      * right. split; [reflexivity|]. eexists. split; [reflexivity|].
        apply or_default_filled. discriminate.
      * split; [|reflexivity]. intros e He. destruct (Hs e He).
  - cbn. do 6 (split; [reflexivity|]). split.
    + right. split; [reflexivity|]. eexists. split; [reflexivity|].
      apply or_default_filled. discriminate.
    + split; [|reflexivity]. intros e0 ->. cbn in E. injection E as <-. split; reflexivity.
Qed.

(** X6.  Once the gateway has returned a parsed value, the sources are
    stored whatever the value is, and cards appear exactly when the value
    is an array none of whose elements is [null] or an object whose
    [category] is a number, a boolean, an array or an object: then there
    is one card per element and no error; otherwise there are no cards
    and an error message, next to the sources already stored. *)
Theorem handleFetchPlaces_needs_a_mappable_array
  (JSON_parse : string -> option JSON) (service : Result GenerateContentResponse)
  (foundPlaces : JSON) (foundSources : list GroundingSource) (v : DiscoverView) :
  getNearbyPlaces JSON_parse service = Ok (foundPlaces, foundSources) ->
  let v' := handleFetchPlaces JSON_parse service v in
  sources v' = Some foundSources
  /\ if mappable foundPlaces
     then error v' = None
          /\ exists items cards, foundPlaces = JArr items /\ places v' = Some cards
                                 /\ length cards = length items
     else places v' = None
          /\ exists message, error v' = Some message /\ message <> EmptyString.
Proof.
  intros E v'. subst v'. unfold handleFetchPlaces. rewrite E.
  pose proof (array_map_outcome foundPlaces) as H.
  destruct (array_map decorate foundPlaces) as [cards|e]; cbn.
  - destruct H as (-> & (items & -> & Hl) & _). repeat split. eauto.
  - rewrite H. repeat split. eexists. split; [reflexivity|].
    apply or_default_filled. discriminate.
Qed.

Lemma handleFetchPlaces_needs_a_mappable_array_witness :
  places (handleFetchPlaces sample_parse (Ok (fenced_response "{}")) initialView) = None
  /\ exists message,
       error (handleFetchPlaces sample_parse (Ok (fenced_response "{}")) initialView)
       = Some message.
Proof.
  destruct (handleFetchPlaces_needs_a_mappable_array sample_parse (Ok (fenced_response "{}"))
              (JObj []) [] initialView eq_refl) as [_ [Hp [message [He _]]]].
  split; [exact Hp|]. exists message. exact He.
Defined.

Lemma decorate_uncategorised (place : JSON) :
  uncategorised place = true ->
  decorate place = Ok (JObj (set_prop "imageUrl" (JStr categories_other) (spread place))).
Proof.
  destruct place as [| | | | |props]; cbn; try discriminate; try reflexivity.
  destruct (get_prop "category" props) as [[| | |[|c s]| |]|]; cbn;
    try discriminate; reflexivity.
Qed.

(** X7.  An element that names no category, because it is not an object
    or because its [category] is absent, [null] or empty, still becomes a
    card: its own properties with the generic illustration as [imageUrl].
    An array of such elements gives one such card per element, in order. *)
Theorem elements_without_category_get_the_generic_illustration
  (JSON_parse : string -> option JSON) (service : Result GenerateContentResponse)
  (items : list JSON) (foundSources : list GroundingSource) (v : DiscoverView) :
  getNearbyPlaces JSON_parse service = Ok (JArr items, foundSources) ->
  Forall (fun place => uncategorised place = true) items ->
  exists cards,
    places (handleFetchPlaces JSON_parse service v) = Some cards
    /\ Forall2 (fun place card =>
                  exists props,
                    card = JObj props
                    /\ get_prop "imageUrl" props = Some (JStr categories_other)
                    /\ forall k, k <> "imageUrl" -> get_prop k props = get_prop k (spread place))
         items cards.
Proof.
  intros E Hall. unfold handleFetchPlaces. rewrite E. cbn [array_map].
  assert (H : exists cards,
             map_result decorate items = Ok cards
             /\ Forall2 (fun place card =>
                  exists props,
                    card = JObj props
                    /\ get_prop "imageUrl" props = Some (JStr categories_other)
                    /\ forall k, k <> "imageUrl" -> get_prop k props = get_prop k (spread place))
                  items cards).
  { clear E. induction Hall as [|place items Hp _ (cards & Ec & Hc)].
    - exists []. split; [reflexivity | constructor].
    - eexists (_ :: cards). split.
      + cbn [map_result]. rewrite (decorate_uncategorised _ Hp), Ec. reflexivity.
      + constructor; [|exact Hc]. eexists. split; [reflexivity|].
        split; [apply get_set_prop_same|]. intros k Hk. now apply get_set_prop_other. }
  destruct H as (cards & -> & Hc). exists cards. split; [reflexivity | exact Hc].
Qed.

Lemma elements_without_category_get_the_generic_illustration_witness :
  exists cards,
    places (handleFetchPlaces sample_parse (Ok (fenced_response strings_text)) initialView)
    = Some cards
    /\ length cards = 1%nat.
Proof.
  destruct (elements_without_category_get_the_generic_illustration sample_parse
              (Ok (fenced_response strings_text)) [JStr "x"] [] initialView eq_refl
              ltac:(repeat constructor)) as (cards & E & F).
  exists cards. split; [exact E|]. apply Forall2_length in F. symmetry. exact F.
Defined.

(** [String.prototype.trim] *)

Lemma trimStart_split (s : string) :
  exists lead, s = lead ++ trimStart s /\ blank lead = true.
Proof.
  induction s as [|c s (lead & H1 & H2)]; cbn [trimStart].
  - now exists EmptyString.
  - destruct (is_whitespace c) eqn:E.
    + exists (String c lead). cbn. rewrite E, H2. split; [f_equal; exact H1 | reflexivity].
    + now exists EmptyString.
Qed.

Lemma trimStart_first (s : string) (c : ascii) :
  first_unit (trimStart s) = Some c -> is_whitespace c = false.
Proof.
  induction s as [|x s IH]; cbn [trimStart]; [discriminate|].
  destruct (is_whitespace x) eqn:E; [exact IH|]. cbn. now intros [= <-].
Qed.

Lemma blank_trimStart (s : string) : blank (trimStart s) = blank s.
Proof.
  induction s as [|x s IH]; cbn [trimStart blank]; [reflexivity|].
  destruct (is_whitespace x) eqn:E; cbn; [exact IH | now rewrite E].
Qed.

Lemma trimEnd_split (s : string) :
  exists trail, s = trimEnd s ++ trail /\ blank trail = true.
Proof.
  induction s as [|c s (trail & H1 & H2)]; cbn [trimEnd].
  - now exists EmptyString.
  - destruct (trimEnd s) as [|c' t].
    + cbn in H1. destruct (is_whitespace c) eqn:E.
      * exists (String c s). cbn. rewrite E. now subst s.
      * exists s. cbn. split; [reflexivity | now subst s].
    + exists trail. cbn. split; [f_equal; exact H1 | exact H2].
Qed.

Lemma trimEnd_last (s : string) (c : ascii) :
  last_unit (trimEnd s) = Some c -> is_whitespace c = false.
Proof.
  induction s as [|x s IH]; cbn [trimEnd]; [discriminate|].
  destruct (trimEnd s) as [|c' t].
  - destruct (is_whitespace x) eqn:E; cbn; [discriminate | now intros [= <-]].
  - exact IH.
Qed.

Lemma trimEnd_first (s : string) (c : ascii) :
  first_unit s = Some c -> is_whitespace c = false -> first_unit (trimEnd s) = Some c.
Proof.
  destruct s as [|x s]; cbn [first_unit trimEnd]; [discriminate|].
  intros [= ->] E. destruct (trimEnd s); [rewrite E|]; reflexivity.
Qed.

Lemma trimEnd_blank (s : string) : blank s = true -> trimEnd s = EmptyString.
Proof.
  induction s as [|x s IH]; cbn [trimEnd blank]; [reflexivity|].
  intros H. apply andb_true_iff in H. destruct H as [H1 H2]. now rewrite (IH H2), H1.
Qed.

Lemma last_unit_filled (c : ascii) (s : string) : exists x, last_unit (String c s) = Some x.
Proof.
  revert c. induction s as [|c' s IH]; intros c; cbn [last_unit]; [eauto | apply IH].
Qed.

(** X8.  [handleSearch] strips the white space around the input.  Input
    that is empty or white space only changes nothing and hands no query
    over; any other input is searched by what stands between its leading
    and its trailing white space, a non-empty text that neither begins nor
    ends with white space. *)
Theorem handleSearch_searches_the_trimmed_input
  (JSON_parse : string -> option JSON) (backend : string -> Result GenerateContentResponse)
  (locationInput : string) (v : DiscoverView) :
  if blank locationInput
  then submitted locationInput = None
       /\ handleSearch JSON_parse backend locationInput v = v
  else exists lead locationQuery trail,
         locationInput = lead ++ locationQuery ++ trail
         /\ blank lead = true /\ blank trail = true
         /\ (exists c, first_unit locationQuery = Some c /\ is_whitespace c = false)
         /\ (exists c, last_unit locationQuery = Some c /\ is_whitespace c = false)
         /\ submitted locationInput = Some locationQuery
         /\ handleSearch JSON_parse backend locationInput v
            = handleFetchPlaces JSON_parse (backend locationQuery) v.
Proof.
  destruct (blank locationInput) eqn:B.
  - assert (E : trim locationInput = EmptyString).
    { unfold trim. apply trimEnd_blank. now rewrite blank_trimStart. }
    unfold handleSearch, submitted. now rewrite E.
  - destruct (trimStart_split locationInput) as (lead & H1 & H2).
    destruct (trimEnd_split (trimStart locationInput)) as (trail & H3 & H4).
    pose proof (blank_trimStart locationInput) as Bt. rewrite B in Bt.
    fold (trim locationInput) in H3.
    destruct (trim locationInput) as [|c q] eqn:E.
    { cbn in H3. rewrite H3, H4 in Bt. discriminate. }
    exists lead, (String c q), trail.
    split; [now rewrite <- H3|]. split; [exact H2|]. split; [exact H4|].
    assert (Hf : first_unit (trimStart locationInput) = Some c).
    { rewrite H3. reflexivity. }
    split; [exists c; split; [reflexivity | exact (trimStart_first _ _ Hf)]|].
    split.
    { destruct (last_unit_filled c q) as [x Hx]. exists x. split; [exact Hx|].
      apply (trimEnd_last (trimStart locationInput)). fold (trim locationInput).
      now rewrite E. }
    unfold handleSearch, submitted. rewrite E. split; reflexivity.
Qed.

(** The screens. *)

(** X9.  Using the current location from the initial screen never leaves
    the view loading.  A position is searched by the fixed query that
    names its coordinates, as [handleFetchPlaces] would from the initial
    screen.  A failure of the position request shows the error box, with
    the prefix [Geolocation Error: ] for a position error and the generic
    location message for an exception without message, issues no search,
    and Try Again leads back to the initial screen. *)
Theorem handleUseCurrentLocation_from_the_initial_screen
  (JSON_parse : string -> option JSON) (backend : string -> Result GenerateContentResponse)
  (located : Located) (v : DiscoverView) :
  render v = InitialState ->
  let v' := handleUseCurrentLocation JSON_parse backend located v in
  isLoading v' = false /\ status v' = EmptyString
  /\ match located with
     | Position latitude longitude =>
         v' = handleFetchPlaces JSON_parse (backend (location_query latitude longitude)) v
     | PositionError message =>
         render v' = ErrorBox ("Geolocation Error: " ++ message)
         /\ places v' = None /\ sources v' = sources v
         /\ render (tryAgain v') = InitialState
     | Failure e =>
         render v' = ErrorBox (or_default (Some (message_of e))
                                 "Failed to get location. Please try again.")
         /\ places v' = None /\ sources v' = sources v
         /\ render (tryAgain v') = InitialState
     end.
Proof.
  intros Hr v'. subst v'.
  assert (Hv : isLoading v = false /\ places v = None
               /\ render (tryAgain v) = InitialState).
  { unfold render in *. destruct v as [l st e p so se ip ab asr]; cbn in *.
    destruct l; [discriminate|].
    destruct e as [[|c m]|]; try discriminate;
      destruct se as [place|]; try destruct (truthy place); try discriminate;
      destruct p; try discriminate; auto. }
  destruct Hv as (Hl & Hp & Ht).
  destruct located as [latitude longitude|message|e]; cbn.
  - repeat split.
  - repeat split; [exact Hp|]. unfold render, tryAgain in *. cbn in *.
    rewrite Hl in Ht. destruct (error v) as [[|c m]|]; exact Ht.
  - repeat split.
    + unfold render. cbn. destruct (message_of e); reflexivity.
    + exact Hp.
    + unfold render, tryAgain in *. cbn in *.
      rewrite Hl in Ht. destruct (error v) as [[|c m]|]; exact Ht.
Qed.

Lemma handleUseCurrentLocation_from_the_initial_screen_witness :
  render (handleUseCurrentLocation sample_parse sample_backend
            (PositionError "User denied Geolocation") initialView)
  = ErrorBox "Geolocation Error: User denied Geolocation".
Proof.
  exact (proj1 (proj2 (proj2 (handleUseCurrentLocation_from_the_initial_screen
                                sample_parse sample_backend
                                (PositionError "User denied Geolocation") initialView
                                eq_refl)))).
Defined.

(** X10.  After a search the view shows the list of cards or the error
    box, never the loader, a detail or the initial screen.  An empty array
    of places is shown as a list without cards, not as an error. *)
Theorem a_search_ends_on_the_list_or_on_the_error_box
  (JSON_parse : string -> option JSON) (service : Result GenerateContentResponse)
  (v : DiscoverView) :
  let v' := handleFetchPlaces JSON_parse service v in
  match places v' with
  | Some cards => render v' = PlacesList cards
  | None => exists message, error v' = Some message /\ render v' = ErrorBox message
  end
  /\ (forall foundSources,
        getNearbyPlaces JSON_parse service = Ok (JArr [], foundSources) ->
        render v' = PlacesList []).
Proof.
  intros v'. subst v'. unfold handleFetchPlaces.
  destruct (getNearbyPlaces JSON_parse service) as [[foundPlaces foundSources]|e] eqn:E.
  - split.
    + destruct (array_map decorate foundPlaces) as [cards|e']; cbn; [reflexivity|].
      unfold render. cbn. destruct (message_of e'); eauto.
    + intros s [= -> ->]. reflexivity.
  - split; [|discriminate]. cbn. unfold render. cbn. destruct (message_of e); eauto.
Qed.


End SearchFacts.

(** *** The narration of a selected place *)

Module NarrationFacts.
Import Js Discovery Search Narration.

#[local] Set Warnings "-clear-no-such-hyp".

Lemma quiet_in_step (p : Player) : quiet p -> in_step p.
Proof.
  intros (Hs & He & _). split.
  - intros s. rewrite Hs, He. set_solver.
  - auto.
Qed.

Lemma source_stop_in_step (s : nat) (p : Player) :
  audioSourceRef (view p) = Some s -> isPlaying (view p) = true ->
  in_step p -> in_step (source_stop s p).
Proof.
  intros Hr Hp [H1 H2]. unfold source_stop.
  destruct (bool_decide (s ∈ sounding p)) eqn:E; [|now split].
  apply bool_decide_eq_true in E. split; cbn.
  - intros t Ht. apply H1. set_solver.
  - rewrite Hp. discriminate.
Qed.

Lemma toggleAudio_in_step (p : Player) : in_step p -> in_step (toggleAudio p).
Proof.
  intros Hi. unfold toggleAudio.
  destruct (audioContextRef p); [|exact Hi].
  destruct (audioBufferRef (view p)); [|exact Hi].
  destruct (isPlaying (view p)) eqn:Hp.
  - destruct (audioSourceRef (view p)) as [s|] eqn:Hr; [|exact Hi].
    now apply source_stop_in_step.
  - destruct Hi as [_ H2]. destruct (H2 Hp) as [Hs He]. split; cbn.
    + intros s. rewrite Hs, He. intros Hin. f_equal. set_solver.
    + discriminate.
Qed.

Lemma dispatch_ended_in_step (s : nat) (p p' : Player) :
  in_step p -> dispatch_ended s p = Some p' -> quiet p'.
Proof.
  intros [H1 _]. unfold dispatch_ended.
  destruct (bool_decide (s ∈ sounding p ∪ ending p)) eqn:E; [|discriminate].
  apply bool_decide_eq_true in E. intros [= <-].
  assert (Hall : forall t, t ∈ sounding p ∪ ending p -> t = s).
  { intros t Ht. pose proof (H1 t Ht) as Et. rewrite (H1 s E) in Et. congruence. }
  unfold quiet. cbn. split; [|split; [|reflexivity]].
  - apply set_eq. intros t. split; [|set_solver].
    intros Ht. exfalso. assert (t = s) by (apply Hall; set_solver). set_solver.
  - apply set_eq. intros t. split; [|set_solver].
    intros Ht. exfalso. assert (t = s) by (apply Hall; set_solver). set_solver.
Qed.

Lemma run_in_step (events : list Event) (p p' : Player) :
  in_step p -> run events p = Some p' -> in_step p'.
Proof.
  revert p. induction events as [|e events IH]; intros p Hi; cbn [run].
  - now intros [= <-].
  - destruct (step e p) as [p1|] eqn:E; [|discriminate].
    apply IH. destruct e as [|s]; cbn in E.
    + injection E as <-. now apply toggleAudio_in_step.
    + apply quiet_in_step. exact (dispatch_ended_in_step _ _ _ Hi E).
Qed.

(** X12.  From a quiet state, that is one in which no source sounds, no
    stopped source still owes its 'ended' event and the button shows Play,
    any sequence of clicks on the play button and of 'ended' events leaves
    at most one source sounding; while one sounds the button shows Pause
    and the ref holds that source.  That no source sounds is not enough:
    every [onended] listener clears the flag and the ref whichever source
    is current, so from the state a language switch during playback
    leaves (nothing sounds, the stopped source owes its event), play, the
    late event and play again leave two sources sounding. *)
Theorem narration_playback_is_exclusive :
  (forall (events : list Event) (p p' : Player),
      quiet p -> run events p = Some p' ->
      (forall s t, s ∈ sounding p' -> t ∈ sounding p' -> s = t)
      /\ (forall s, s ∈ sounding p' ->
            isPlaying (view p') = true /\ audioSourceRef (view p') = Some s))
  /\ (sounding switched = ∅ /\ isPlaying (view switched) = false
      /\ ending switched = {[ 2%nat ]}
      /\ run [Toggle; Ended 2; Toggle] switched = Some overlapped
      /\ sounding overlapped = {[ 4%nat; 5%nat ]}).
Proof.
  split.
  - intros events p p' Hq Hr.
    destruct (run_in_step events p p' (quiet_in_step p Hq) Hr) as [H1 H2].
    assert (Href : forall s, s ∈ sounding p' -> audioSourceRef (view p') = Some s).
    { intros s Hs. apply H1. set_solver. }
    split.
    + intros s t Hs Ht. pose proof (Href s Hs) as Es. rewrite (Href t Ht) in Es. congruence.
    + intros s Hs. split; [|now apply Href].
      destruct (isPlaying (view p')) eqn:Hp; [reflexivity|].
      destruct (H2 eq_refl) as [He _]. rewrite He in Hs. set_solver.
  - vm_compute. repeat split; reflexivity.
Qed.

Lemma narration_playback_is_exclusive_witness :
  isPlaying (view replayed) = true /\ audioSourceRef (view replayed) = Some 3%nat.
Proof.
  apply (proj1 narration_playback_is_exclusive [Toggle; Toggle; Ended 2; Toggle]
           loaded_player replayed).
  - vm_compute. repeat split.
  - vm_compute. reflexivity.
  - apply (bool_decide_unpack (3%nat ∈ sounding replayed)). vm_compute. exact I.
Defined.

(** X13.  [generateAudio] always ends with the loading line gone: the
    play button, showing Play, exactly when the speech call returned a
    payload and that payload decodes, and the line saying that no audio
    guide could be generated in every other case.  Whatever source the
    ref held has been stopped and the ref is null, no source was started,
    an audio context that exists is kept and one is created only when a
    payload arrived and none existed, and the places, the selection and
    the error of the view are untouched. *)
Theorem generateAudio_ends_ready_or_unavailable
  (decodeAudio : string -> option Conversation.AudioBuffer) (speech : Result string)
  (p : Player) :
  let p' := generateAudio decodeAudio speech p in
  audio_line p'
  = match speech with
    | Ok audioBase64 =>
        match decodeAudio audioBase64 with
        | Some _ => PlayButton false
        | None => Unavailable
        end
    | Throw _ => Unavailable
    end
  /\ audioSourceRef (view p') = None
  /\ (forall s, audioSourceRef (view p) = Some s -> s ∉ sounding p')
  /\ sounding p' ⊆ sounding p
  /\ (forall c, audioContextRef p = Some c -> audioContextRef p' = Some c)
  /\ (is_Some (audioContextRef p')
      <-> is_Some (audioContextRef p) \/ exists audioBase64, speech = Ok audioBase64)
  /\ places (view p') = places (view p)
  /\ selectedPlace (view p') = selectedPlace (view p)
  /\ error (view p') = error (view p).
Proof.
  intros p'. subst p'. unfold generateAudio, generateAudio_resume, generateAudio_begin.
  set (p0 := cleanupAudio p).
  assert (H0 : audioSourceRef (view p0) = None
               /\ audioBufferRef (view p0) = None /\ isPlaying (view p0) = false
               /\ (forall s, audioSourceRef (view p) = Some s -> s ∉ sounding p0)
               /\ sounding p0 ⊆ sounding p
               /\ audioContextRef p0 = audioContextRef p
               /\ places (view p0) = places (view p)
               /\ selectedPlace (view p0) = selectedPlace (view p)
               /\ error (view p0) = error (view p)).
  { unfold p0, cleanupAudio. destruct (audioSourceRef (view p)) as [s|] eqn:E; cbn.
    - unfold source_stop. destruct (bool_decide (s ∈ sounding p)) eqn:B; cbn.
      + repeat split; try reflexivity; [|set_solver]. intros t [= <-]. set_solver.
      + apply bool_decide_eq_false in B.
        repeat split; try reflexivity. intros t [= <-]. exact B.
    - rewrite E. repeat split; try reflexivity. intros t Ht. discriminate Ht. }
  destruct H0 as (Hr & Hb & Hp & Hstop & Hsub & Hc & Hpl & Hsel & Herr).
  clearbody p0. rewrite <- Hc, <- Hpl, <- Hsel, <- Herr.
  unfold audio_line, setIsAudioLoading, store_buffer, new_AudioContext.
  destruct speech as [audioBase64|e]; cbn.
  - destruct (audioContextRef p0) as [c|] eqn:Ec; destruct (decodeAudio audioBase64); cbn;
      rewrite ?Hb, ?Hp, ?Hr, ?Ec.
    all: split; [reflexivity|]; split; [reflexivity|]; split; [exact Hstop|];
      split; [exact Hsub|].
    all: split; [intros c' Hc'; congruence|].
    all: split; [split; eauto|].
    all: repeat split.
  - rewrite Hb, Hr. split; [reflexivity|]. split; [reflexivity|]. split; [exact Hstop|].
    split; [exact Hsub|]. split; [auto|]. split; [|repeat split].
    split; [now left|]. intros [H|[a Ha]]; [exact H | discriminate Ha].
Qed.




End NarrationFacts.

(** *** A conversation as a sequence of events *)

Module DialogueFacts.
Import Js Conversation Dialogue ConversationFacts.
Local Open Scope js_scope.

#[local] Set Warnings "-clear-no-such-hyp".
#[local] Arguments String.append !s1 s2 : simpl nomatch.

(** X14.  When the microphone is refused, [startConversation] returns
    without throwing and shows the one start error; it opens no session
    and creates no audio context, holds no stream, and leaves the refs to
    resources, the session flag and with it the header button as they
    were.  The transcript log and both buffers are cleared all the same.
    A start that is granted afterwards ends in the state it would have
    ended in without the refused attempt. *)
Theorem a_refused_microphone_opens_nothing (e : exn) (st : State) :
  let st' := exec (startConversation (Some e)) st in
  exec (startConversation None) st' = exec (startConversation None) st
  /\ fst (startConversation (Some e) st) = Ok tt
  /\ error st' = Some "Failed to start conversation. Please check microphone permissions."
  /\ transcripts st' = []
  /\ currentInputTranscriptionRef st' = EmptyString
  /\ currentOutputTranscriptionRef st' = EmptyString
  /\ sessions st' = sessions st /\ sessionPromiseRef st' = sessionPromiseRef st
  /\ liveTracks st' = liveTracks st /\ openContexts st' = openContexts st
  /\ mediaStreamRef st' = mediaStreamRef st /\ audioContextRef st' = audioContextRef st
  /\ outputAudioContextRef st' = outputAudioContextRef st
  /\ nextHandle st' = nextHandle st
  /\ isSessionActive st' = isSessionActive st /\ headerButton st' = headerButton st.
Proof. cbn. repeat split. Qed.

(** What a message handler can change. *)



Lemma transcript_effect (clock : Clock) (message : LiveServerMessage) (st : State) :
  exists st1,
    onmessage_transcript clock message st = (Ok tt, st1)
    /\ same_resources st st1
    /\ sourcesRef st1 = sourcesRef st /\ stoppedSources st1 = stoppedSources st
    /\ nextStartTimeRef st1 = nextStartTimeRef st /\ startLog st1 = startLog st
    /\ nextHandle st1 = nextHandle st
    /\ (turn_completion message = false ->
        transcripts st1 = transcripts st
        /\ currentInputTranscriptionRef st1
           = accumulated (currentInputTranscriptionRef st)
               (chain (serverContent message) inputTranscription)
        /\ currentOutputTranscriptionRef st1
           = accumulated (currentOutputTranscriptionRef st)
               (chain (serverContent message) outputTranscription)).
Proof.
  unfold onmessage_transcript.
  rewrite (bind_run _ _ _ _ _ (append_input_run _ _)).
  rewrite (bind_run _ _ _ _ _ (append_output_run _ _)).
  destruct (turn_completion message); cbn [when].
  - rewrite flush_turn_run. eexists. split; [reflexivity|].
    unfold same_resources. cbn. repeat split; discriminate.
  - eexists. split; [reflexivity|]. unfold same_resources. cbn. repeat split.
Qed.





(** [stopConversation] as the teardown of a state without session ref. *)

Lemma stopConversation_shape (settled : Settled) (fault : option exn) (st : State) :
  exists X,
    stopConversation settled fault st
    = cleanup (set_sessionPromiseRef None (set_sessions X (set_isSessionActive false st)))
    /\ (settled = Fulfilled -> fault = None ->
        X = match sessionPromiseRef st with
            | Some s =>
                alter (fun x => {| sessionStatus := Closed; capturedStream := capturedStream x |})
                  s (sessions st)
            | None => sessions st
            end).
Proof.
  unfold stopConversation. rewrite bind_modify.
  destruct (sessionPromiseRef st) as [s|] eqn:E.
  - assert (E' : sessionPromiseRef (set_isSessionActive false st) = Some s) by exact E.
    unfold bind at 1. rewrite (if_ref_Some _ _ _ _ E').
    unfold close_session, try_finally, try_catch, await_session, session_close.
    destruct settled as [|e], fault as [e'|]; cbn; eexists; (split; [reflexivity|]);
      try discriminate; try (intros _ [=]). reflexivity.
  - assert (E' : sessionPromiseRef (set_isSessionActive false st) = None) by exact E.
    rewrite (bind_run _ _ _ _ _ (if_ref_None _ _ _ E')).
    exists (sessions st). split; [|reflexivity].
    f_equal. destruct st; cbn in E; subst; reflexivity.
Qed.




(** [cleanup] nulls the ref of an output context that is open and is not
    the capture context. *)
Lemma cleanup_output (st : State) :
  (forall c, outputAudioContextRef st = Some c ->
     c ∈ openContexts st /\ audioContextRef st <> Some c) ->
  exists st',
    cleanup st = (Ok tt, st')
    /\ outputAudioContextRef st' = None
    /\ sourcesRef st' = ∅
    /\ stoppedSources st' = stoppedSources st ∪ sourcesRef st
    /\ startLog st' = startLog st
    /\ nextHandle st' = nextHandle st.
Proof.
  intros Hout.
  unfold cleanup, stop_all_sources. rewrite !bind_modify.
  set (st1 := set_sourcesRef ∅ _).
  destruct (disconnect_scriptProcessor_run st1) as [X2 E2].
  rewrite (bind_run _ _ _ _ _ E2). set (st2 := set_scriptProcessorRef None _).
  destruct (disconnect_mediaStreamSource_run st2) as [X3 E3].
  rewrite (bind_run _ _ _ _ _ E3). set (st3 := set_mediaStreamSourceRef None _).
  assert (E4 : exists r X,
             if_ref audioContextRef (fun audioContext =>
               closed <- context_closed audioContext ;;
               when (negb closed)
                 (context_close audioContext ;; modify (set_audioContextRef None))) st3
             = (Ok tt, set_audioContextRef r (set_openContexts X st3))
             /\ forall c, outputAudioContextRef st = Some c -> c ∈ X).
  { destruct (audioContextRef st3) as [c1|] eqn:E.
    - rewrite (if_ref_Some _ _ _ _ E).
      destruct (decide (c1 ∈ openContexts st3)) as [Hin|Hout1].
      + rewrite (close_opened _ _ _ Hin). exists None, (openContexts st3 ∖ {[c1]}).
        split; [reflexivity|]. intros c Hc. destruct (Hout c Hc) as [Ho Hn].
        cbn in E |- *. apply elem_of_difference. split; [exact Ho|].
        intros Heq. apply elem_of_singleton in Heq. subst c1. exact (Hn E).
      + rewrite (close_closed _ _ _ Hout1). exists (Some c1), (openContexts st3).
        split; [destruct st; cbn in E; subst; reflexivity|].
        intros c Hc. exact (proj1 (Hout c Hc)).
    - rewrite (if_ref_None _ _ _ E). exists None, (openContexts st3).
      split; [destruct st; cbn in E; subst; reflexivity|].
      intros c Hc. exact (proj1 (Hout c Hc)). }
  destruct E4 as (r4 & X4 & E4 & Hin4).
  rewrite (bind_run _ _ _ _ _ E4). set (st4 := set_audioContextRef r4 _).
  assert (E5 : exists X,
             if_ref outputAudioContextRef (fun outputAudioContext =>
               closed <- context_closed outputAudioContext ;;
               when (negb closed)
                 (context_close outputAudioContext ;; modify (set_outputAudioContextRef None))) st4
             = (Ok tt, set_outputAudioContextRef None (set_openContexts X st4))).
  { destruct (outputAudioContextRef st4) as [c2|] eqn:E.
    - rewrite (if_ref_Some _ _ _ _ E).
      assert (Hin : c2 ∈ openContexts st4) by (cbn; apply Hin4; exact E).
      rewrite (close_opened _ _ _ Hin). eexists. reflexivity.
    - rewrite (if_ref_None _ _ _ E). exists (openContexts st4).
      unfold st4 in *. destruct st; cbn in E; subst; reflexivity. }
  destruct E5 as (X5 & E5).
  rewrite (bind_run _ _ _ _ _ E5). set (st5 := set_outputAudioContextRef None _).
  destruct (stop_mediaStream_run st5) as (X6 & E6 & _).
  rewrite E6. eexists. split; [reflexivity|]. cbn. repeat split.
Qed.

(** X16.  Once [stopConversation] has run on a state whose output context
    is open (and is not the capture context), the ref to the output
    context is null, so a message that arrives afterwards schedules
    nothing, whatever audio it carries: no source is created or started
    and the set stays empty.  Its transcript part is still applied. *)
Theorem audio_after_the_teardown_is_dropped
  (decodeAudio : string -> option AudioBuffer) (settled : Settled) (fault : option exn)
  (clock : Clock) (message : LiveServerMessage) (st : State) :
  (forall c, outputAudioContextRef st = Some c ->
     c ∈ openContexts st /\ audioContextRef st <> Some c) ->
  let st1 := exec (stopConversation settled fault) st in
  let st2 := exec (onmessage decodeAudio clock message) st1 in
  outputAudioContextRef st1 = None
  /\ startLog st2 = startLog st1 /\ nextHandle st2 = nextHandle st1
  /\ sourcesRef st2 = ∅ /\ stoppedSources st2 = stoppedSources st1
  /\ liveTracks st2 = liveTracks st1 /\ openContexts st2 = openContexts st1
  /\ currentOutputTranscriptionRef st2
     = (if turn_completion message then EmptyString
        else accumulated (currentOutputTranscriptionRef st1)
               (chain (serverContent message) outputTranscription)).
Proof.
  intros Hout st1 st2. subst st2 st1.
  destruct (stopConversation_shape settled fault st) as (X & E & _).
  destruct (cleanup_output
              (set_sessionPromiseRef None (set_sessions X (set_isSessionActive false st))) Hout)
    as (st1 & E1 & Ho & Hs & _).
  assert (Est : exec (stopConversation settled fault) st = st1)
    by (unfold exec; now rewrite E, E1).
  rewrite Est. clear Est E E1 Hout.
  split; [exact Ho|].
  unfold exec, onmessage.
  destruct (transcript_effect clock message st1)
    as (sta & Ea & Hres & Hsa & Hpa & Hna & Hla & Hha & Hbuf).
  destruct (transcript_run clock message st1) as (sta' & Ea' & Hturn & _).
  rewrite Ea in Ea'. injection Ea' as <-.
  rewrite (bind_run _ _ _ _ _ Ea).
  destruct Hres as (_ & _ & _ & _ & _ & _ & _ & Roa & _ & Rt & Rc & _).
  rewrite <- Hla, <- Hha, <- Hpa, <- Rt, <- Rc.
  assert (Hbuf' : currentOutputTranscriptionRef sta
                  = (if turn_completion message then EmptyString
                     else accumulated (currentOutputTranscriptionRef st1)
                            (chain (serverContent message) outputTranscription))).
  { destruct (turn_completion message); [exact (proj2 (proj2 Hturn))|].
    exact (proj2 (proj2 (Hbuf eq_refl))). }
  rewrite <- Hbuf'. rewrite Ho in Roa. rewrite Hs in Hsa. clear - Roa Hsa.
  unfold onmessage_playback, bind.
  pose proof (first_audio_state message sta) as Ef.
  destruct (first_audio message sta) as [[b|e] stb]; cbn in Ef; subst stb; cbn [snd].
  2: { repeat split; try reflexivity. exact Hsa. }
  assert (Es : schedule_audio decodeAudio clock b sta = (Ok tt, sta)).
  { unfold schedule_audio. rewrite !bind_gets, Roa. destruct b as [[|]|]; reflexivity. }
  rewrite Es. destruct (interruption message); cbn [when].
  - rewrite interrupt_run. cbn. rewrite Hsa. repeat split; try reflexivity.
    apply union_empty_r_L.
  - cbn. repeat split; try reflexivity. exact Hsa.
Qed.

Lemma audio_after_the_teardown_is_dropped_witness :
  startLog (exec (onmessage sample_decode sample_clock (audio_message "QUJD"))
              (exec (stopConversation Fulfilled None) st_active))
  = startLog (exec (stopConversation Fulfilled None) st_active).
Proof.
  refine (proj1 (proj2 (audio_after_the_teardown_is_dropped sample_decode Fulfilled None
                          sample_clock (audio_message "QUJD") st_active _))).
  intros c Hc. vm_compute in Hc. injection Hc as <-. split.
  - apply (bool_decide_unpack (2%nat ∈ openContexts st_active)). vm_compute. exact I.
  - vm_compute. discriminate.
Defined.

(** The transcript buffers over a sequence of messages. *)

Lemma append_empty_r (s : string) : s ++ EmptyString = s.
Proof. induction s as [|c s IH]; cbn; [reflexivity | now rewrite IH]. Qed.

Lemma accumulated_app (buffer : string) (t : option Transcription) :
  accumulated buffer t = buffer ++ accumulated EmptyString t.
Proof. destruct t; cbn; [reflexivity | now rewrite append_empty_r]. Qed.

Lemma heard_app (which : LiveServerContent -> option Transcription)
  (events : list (Clock * LiveServerMessage)) (e : Clock * LiveServerMessage) :
  heard which (events ++ [e])
  = heard which events ++ accumulated EmptyString (chain (serverContent (snd e)) which).
Proof.
  induction events as [|x events IH]; cbn [heard app].
  - now rewrite append_empty_r.
  - now rewrite IH, DiscoveryFacts.append_assoc.
Qed.

Lemma onmessage_buffers (decodeAudio : string -> option AudioBuffer) (clock : Clock)
  (message : LiveServerMessage) (st : State) :
  turn_completion message = false ->
  let st' := exec (onmessage decodeAudio clock message) st in
  transcripts st' = transcripts st
  /\ currentInputTranscriptionRef st'
     = accumulated (currentInputTranscriptionRef st)
         (chain (serverContent message) inputTranscription)
  /\ currentOutputTranscriptionRef st'
     = accumulated (currentOutputTranscriptionRef st)
         (chain (serverContent message) outputTranscription).
Proof.
  intros Hturn. unfold exec, onmessage.
  destruct (transcript_effect clock message st) as (st1 & E1 & _ & _ & _ & _ & _ & _ & Hbuf).
  rewrite (bind_run _ _ _ _ _ E1).
  destruct (playback_frame decodeAudio clock message st1) as (Ht & Hi & Ho).
  destruct (Hbuf Hturn) as (Bt & Bi & Bo).
  rewrite Ht, Hi, Ho. auto.
Qed.

Lemma run_messages_buffers (decodeAudio : string -> option AudioBuffer)
  (events : list (Clock * LiveServerMessage)) (st : State) :
  Forall (fun e => turn_completion (snd e) = false) events ->
  transcripts (run_messages decodeAudio events st) = transcripts st
  /\ currentInputTranscriptionRef (run_messages decodeAudio events st)
     = currentInputTranscriptionRef st ++ heard inputTranscription events
  /\ currentOutputTranscriptionRef (run_messages decodeAudio events st)
     = currentOutputTranscriptionRef st ++ heard outputTranscription events.
Proof.
  intros H. revert st. induction H as [|[clock message] events Hturn _ IH]; intros st.
  - cbn. now rewrite !append_empty_r.
  - cbn [run_messages fold_left heard fst snd] in *.
    destruct (onmessage_buffers decodeAudio clock message st Hturn) as (Bt & Bi & Bo).
    destruct (IH (exec (onmessage decodeAudio clock message) st)) as (It & Ii & Io).
    fold (run_messages decodeAudio events (exec (onmessage decodeAudio clock message) st)).
    rewrite It, Ii, Io, Bt, Bi, Bo.
    rewrite (accumulated_app (currentInputTranscriptionRef st)).
    rewrite (accumulated_app (currentOutputTranscriptionRef st)).
    now rewrite !DiscoveryFacts.append_assoc.
Qed.

(** X17.  Transcription fragments that arrive over several messages are
    kept in the two buffers, in arrival order, and the log does not grow
    until a message completes the turn; that message appends at most one
    entry per speaker, holding everything heard since the buffers were
    last empty, its own fragments included, and empties both buffers.
    This holds whatever audio the messages carry and whether their audio
    part returns or throws. *)
Theorem fragments_accumulate_until_the_turn_completes
  (decodeAudio : string -> option AudioBuffer)
  (events : list (Clock * LiveServerMessage)) (clock : Clock) (message : LiveServerMessage)
  (st : State) :
  Forall (fun e => turn_completion (snd e) = false) events ->
  turn_completion message = true ->
  let st1 := run_messages decodeAudio events st in
  let st2 := exec (onmessage decodeAudio clock message) st1 in
  transcripts st1 = transcripts st
  /\ currentInputTranscriptionRef st1
     = currentInputTranscriptionRef st ++ heard inputTranscription events
  /\ currentOutputTranscriptionRef st1
     = currentOutputTranscriptionRef st ++ heard outputTranscription events
  /\ transcripts st2
     = (transcripts st
        ++ turn_entries clock
             (currentInputTranscriptionRef st
              ++ heard inputTranscription (events ++ [(clock, message)]))
             (currentOutputTranscriptionRef st
              ++ heard outputTranscription (events ++ [(clock, message)])))%list
  /\ currentInputTranscriptionRef st2 = EmptyString
  /\ currentOutputTranscriptionRef st2 = EmptyString.
Proof.
  intros Hall Hturn st1 st2. subst st2 st1.
  destruct (run_messages_buffers decodeAudio events st Hall) as (Rt & Ri & Ro).
  set (st1 := run_messages decodeAudio events st) in *. clearbody st1.
  split; [exact Rt|]. split; [exact Ri|]. split; [exact Ro|].
  unfold exec, onmessage.
  destruct (transcript_run clock message st1) as (sta & Ea & Hc & _).
  rewrite Hturn in Hc. destruct Hc as (Ht & Hi & Ho).
  rewrite (bind_run _ _ _ _ _ Ea).
  destruct (playback_frame decodeAudio clock message sta) as (Pt & Pi & Po).
  rewrite Pt, Pi, Po, Ht, Hi, Ho, Rt, Ri, Ro, !heard_app. cbn [snd].
  rewrite (accumulated_app (_ ++ heard inputTranscription events)).
  rewrite (accumulated_app (_ ++ heard outputTranscription events)).
  now rewrite !DiscoveryFacts.append_assoc.
Qed.

Lemma fragments_accumulate_until_the_turn_completes_witness :
  transcripts
    (exec (onmessage sample_decode sample_clock (turn_message "Hi"))
       (run_messages sample_decode
          [(sample_clock, said user "Hel"); (sample_clock, said user "lo")] st_active))
  = [ {| id := 1700000000000; speaker := user; text := "Hello" |};
      {| id := 1700000000001; speaker := model; text := "Hi" |} ].
Proof.
  refine (proj1 (proj2 (proj2 (proj2
            (fragments_accumulate_until_the_turn_completes sample_decode
               [(sample_clock, said user "Hel"); (sample_clock, said user "lo")]
               sample_clock (turn_message "Hi") st_active _ eq_refl))))).
  repeat constructor.
Defined.

(** X18.  When the audio part of a message throws, because the model turn
    has no [parts] or because the payload does not decode, the handler
    ends there: the interruption branch is not reached, so even a message
    that signals an interruption stops no source and leaves the set as it
    was; no source is started; the transcript part, which ran before, has
    taken effect.  The watermark is as it was, or raised to the clock when
    the failure was in decoding. *)
Theorem a_failing_audio_part_skips_the_interruption
  (decodeAudio : string -> option AudioBuffer) (clock : Clock) (message : LiveServerMessage)
  (st : State) :
  (exists turn, chain (serverContent message) modelTurn = Some turn /\ parts turn = None)
  \/ (exists payload,
        inbound_audio message = Some payload /\ payload <> EmptyString
        /\ decodeAudio payload = None
        /\ is_Some (outputAudioContextRef st) /\ is_Some (outputNodeRef st)) ->
  let st' := exec (onmessage decodeAudio clock message) st in
  (exists e, fst (onmessage decodeAudio clock message st) = Throw e)
  /\ sourcesRef st' = sourcesRef st /\ stoppedSources st' = stoppedSources st
  /\ startLog st' = startLog st
  /\ (nextStartTimeRef st' = nextStartTimeRef st
      \/ nextStartTimeRef st' = Qmax (nextStartTimeRef st) (currentTime clock))
  /\ transcripts st'
     = if turn_completion message
       then (transcripts st
             ++ turn_entries clock
                  (accumulated (currentInputTranscriptionRef st)
                     (chain (serverContent message) inputTranscription))
                  (accumulated (currentOutputTranscriptionRef st)
                     (chain (serverContent message) outputTranscription)))%list
       else transcripts st.
Proof.
  intros Hfail st'. subst st'. unfold exec, onmessage.
  destruct (transcript_run clock message st)
    as (st1 & E1 & Hturn & Hc1 & Hn1 & Hs1 & Hp1 & Ht1 & Hl1 & Hh1).
  rewrite (bind_run _ _ _ _ _ E1).
  assert (Htr : transcripts st1
                = if turn_completion message
                  then (transcripts st
                        ++ turn_entries clock
                             (accumulated (currentInputTranscriptionRef st)
                                (chain (serverContent message) inputTranscription))
                             (accumulated (currentOutputTranscriptionRef st)
                                (chain (serverContent message) outputTranscription)))%list
                  else transcripts st).
  { destruct (turn_completion message); [exact (proj1 Hturn) | exact Hturn]. }
  rewrite <- Htr, <- Hs1, <- Hp1, <- Ht1, <- Hl1.
  rewrite <- Hc1, <- Hn1 in Hfail. clear - Hfail.
  unfold onmessage_playback.
  destruct Hfail as [(turn & Hm & Hparts) | (payload & Ha & Hne & Hd & [ctx Hc] & [node Hn])].
  - unfold bind, first_audio. rewrite Hm, Hparts. cbn. repeat split; eauto.
  - rewrite (bind_run _ _ _ _ _ (first_audio_run _ _ _ Ha)).
    destruct payload as [|c rest]; [congruence|].
    assert (Es : schedule_audio decodeAudio clock (Some (String c rest)) st1
                 = (Throw (DOMException "InvalidCharacterError"),
                    set_nextStartTimeRef (Qmax (nextStartTimeRef st1) (currentTime clock)) st1)).
    { unfold schedule_audio. rewrite !bind_gets, Hc, Hn, bind_modify, Hd. reflexivity. }
    unfold bind. rewrite Es. cbn -[Qmax]. repeat split; eauto.
Qed.

Lemma a_failing_audio_part_skips_the_interruption_witness :
  sourcesRef (exec (onmessage sample_decode sample_clock (partless_message true)) st_playing)
  = sourcesRef st_playing
  /\ stoppedSources (exec (onmessage sample_decode sample_clock (partless_message true))
                       st_playing)
     = stoppedSources st_playing.
Proof.
  destruct (a_failing_audio_part_skips_the_interruption sample_decode sample_clock
              (partless_message true) st_playing) as (_ & H1 & H2 & _).
  - left. eexists. split; reflexivity.
  - split; [exact H1 | exact H2].
Defined.

(** Segments scheduled one after the other. *)

Lemma segments_from_the_watermark (decodeAudio : string -> option AudioBuffer)
  (events : list (Clock * LiveServerMessage)) (buffers : list AudioBuffer) (st : State) :
  is_Some (outputAudioContextRef st) -> is_Some (outputNodeRef st) ->
  Forall2 (carries decodeAudio) events buffers ->
  Forall (fun e => (currentTime (fst e) <= nextStartTimeRef st)%Q) events ->
  let st' := run_messages decodeAudio events st in
  startLog st'
  = (rev (combine (seq (nextHandle st) (length buffers))
            (back_to_back (nextStartTimeRef st) (map duration buffers)))
     ++ startLog st)%list
  /\ nextStartTimeRef st' = fold_left Qplus (map duration buffers) (nextStartTimeRef st)
  /\ sourcesRef st' = sourcesRef st ∪ list_to_set (seq (nextHandle st) (length buffers)).
Proof.
  intros Hc Hn HF. revert st Hc Hn.
  induction HF as [|[clock message] buffer events buffers Hcar _ IH]; intros st Hc Hn Hclk.
  - cbn. repeat split. now rewrite union_empty_r_L.
  - apply Forall_cons in Hclk. destruct Hclk as [Hnow Hclk].
    destruct Hcar as (payload & Ha & Hne & Hd & Hi). cbn [fst snd] in *.
    destruct (onmessage_audio_run decodeAudio clock message payload buffer st Ha Hne Hd Hc Hn)
      as (st1 & E & Hl & Hh & Hc1 & Hn1 & Hint).
    rewrite Hi in Hint. destruct Hint as (Ht & Hs & _).
    rewrite (Qmax_left _ _ Hnow) in Hl, Ht.
    cbn [run_messages fold_left fst snd].
    assert (Est : exec (onmessage decodeAudio clock message) st = st1)
      by (unfold exec; now rewrite E).
    rewrite Est. fold (run_messages decodeAudio events st1).
    rewrite <- Hc1 in Hc. rewrite <- Hn1 in Hn.
    destruct (IH st1 Hc Hn) as (Il & It & Is).
    { rewrite Ht. eapply Forall_impl; [exact Hclk|]. intros e He. cbn in He.
      apply Qle_trans with (nextStartTimeRef st); [exact He|].
      rewrite <- (Qplus_0_r (nextStartTimeRef st)) at 1.
      apply Qplus_le_r. apply duration_nonneg. }
    cbn zeta in Il, It, Is. rewrite Il, It, Is, Hl, Ht, Hs, Hh.
    cbn [length seq map back_to_back combine rev fold_left list_to_set].
    split; [now rewrite <- app_assoc|]. split; [reflexivity|]. set_solver.
Qed.

(** X19.  Audio messages handled one after the other while the output
    context and node exist, none of them signalling an interruption: the
    first segment starts at the later of the watermark and the clock, and
    as long as the clock has not passed that start when a later message
    is handled, every further segment starts exactly where the one before
    it ends.  The segments get consecutive new sources, all of them in
    the set, and the watermark ends at the start plus the sum of the
    durations. *)
Theorem a_burst_of_segments_plays_back_to_back
  (decodeAudio : string -> option AudioBuffer) (clock : Clock) (message : LiveServerMessage)
  (buffer : AudioBuffer) (rest : list (Clock * LiveServerMessage))
  (buffers : list AudioBuffer) (st : State) :
  is_Some (outputAudioContextRef st) -> is_Some (outputNodeRef st) ->
  carries decodeAudio (clock, message) buffer ->
  Forall2 (carries decodeAudio) rest buffers ->
  let start := Qmax (nextStartTimeRef st) (currentTime clock) in
  Forall (fun e => (currentTime (fst e) <= start)%Q) rest ->
  let st' := run_messages decodeAudio ((clock, message) :: rest) st in
  startLog st'
  = (rev (combine (seq (nextHandle st) (S (length buffers)))
            (back_to_back start (map duration (buffer :: buffers))))
     ++ startLog st)%list
  /\ nextStartTimeRef st' = fold_left Qplus (map duration (buffer :: buffers)) start
  /\ sourcesRef st' = sourcesRef st ∪ list_to_set (seq (nextHandle st) (S (length buffers))).
Proof.
  intros Hc Hn (payload & Ha & Hne & Hd & Hi) HF start Hclk st'. subst st'.
  cbn [fst snd] in *.
  destruct (onmessage_audio_run decodeAudio clock message payload buffer st Ha Hne Hd Hc Hn)
    as (st1 & E & Hl & Hh & Hc1 & Hn1 & Hint).
  rewrite Hi in Hint. destruct Hint as (Ht & Hs & _). fold start in Hl, Ht.
  cbn [run_messages fold_left fst snd].
  assert (Est : exec (onmessage decodeAudio clock message) st = st1)
    by (unfold exec; now rewrite E).
  rewrite Est. fold (run_messages decodeAudio rest st1).
  rewrite <- Hc1 in Hc. rewrite <- Hn1 in Hn.
  destruct (segments_from_the_watermark decodeAudio rest buffers st1 Hc Hn HF) as (Il & It & Is).
  { rewrite Ht. eapply Forall_impl; [exact Hclk|]. intros e He. cbn in He.
    apply Qle_trans with start; [exact He|].
    rewrite <- (Qplus_0_r start) at 1. apply Qplus_le_r. apply duration_nonneg. }
  cbn zeta in Il, It, Is. rewrite Il, It, Is, Hl, Ht, Hs, Hh.
  cbn [length seq map back_to_back combine rev fold_left list_to_set].
  split; [now rewrite <- app_assoc|]. split; [reflexivity|]. set_solver.
Qed.

Lemma a_burst_of_segments_plays_back_to_back_witness :
  startLog (run_messages sample_decode
              [(sample_clock, audio_message "QUJDRA=="); (sample_clock, audio_message "QUJD")]
              st_active)
  = (rev (combine [6; 7]%nat
            (back_to_back (Qmax (nextStartTimeRef st_active) (currentTime sample_clock))
               (map duration [ {| frames := 2; sampleRate := 24000 |};
                               {| frames := 1; sampleRate := 24000 |} ])))
     ++ startLog st_active)%list.
Proof.
  refine (proj1 (a_burst_of_segments_plays_back_to_back sample_decode sample_clock
                   (audio_message "QUJDRA==") {| frames := 2; sampleRate := 24000 |}
                   [(sample_clock, audio_message "QUJD")]
                   [ {| frames := 1; sampleRate := 24000 |} ] st_active _ _ _ _ _)).
  - vm_compute. eauto.
  - vm_compute. eauto.
  - exists "QUJDRA==". split; [reflexivity|]. split; [discriminate|].
    split; [vm_compute; reflexivity | reflexivity].
  - constructor; [|constructor]. exists "QUJD". split; [reflexivity|]. split; [discriminate|].
    split; [vm_compute; reflexivity | reflexivity].
  - constructor; [|constructor]. vm_compute. discriminate.
Defined.

End DialogueFacts.
